(** * Consistent-hashing rings of [wangzeping722/consistent]

    A shallow embedding of the two ring implementations of the repository,

    - [Consistent]      (consistent.go):  string nodes, 32-bit positions,
                        one occupant per position, [Get]/[GetTwo]/[GetN]/[Set];
    - [ConsistentHash]  (consistent1.go): arbitrary nodes, 64-bit positions,
                        a list of occupants per position, weighted adds;

    followed by the properties of the specification that were checked
    against them.

    Conventions.  Go integers are [Z] with their wrap-around written out
    where an operation can leave the range; slice indices are [nat]
    (they are never negative in the source); [map[K]V] is a [gmap];
    a Go string is a [string] (a sequence of bytes).  The mutexes are not
    modelled: every operation holds the lock for its whole body, so each
    one is an atomic step on the state. *)

From Stdlib Require Import ZArith Ascii String List Lia.
From stdpp Require Import base numbers option list sorting strings gmap fin_maps.

Local Open Scope string_scope.
Local Open Scope list_scope.
Local Open Scope Z_scope.

(** ** Outcomes of a Go call

    A call returns a value, panics (index out of range, division by zero,
    negative slice capacity), or is still running when the fuel given to
    one of its loops is spent. *)

Inductive outcome (A : Type) : Type :=
  | Done (a : A)
  | Panic
  | OutOfFuel.
Arguments Done {A} a.
Arguments Panic {A}.
Arguments OutOfFuel {A}.

(** Sequencing, written [x ← e; k] below. *)
#[global] Instance outcome_ret : MRet outcome := fun A a => Done a.
#[global] Instance outcome_bind : MBind outcome := fun A B f x =>
  match x with
  | Done a => f a
  | Panic => Panic
  | OutOfFuel => OutOfFuel
  end.

(** ** Machine integers *)

Definition uint32_wrap (z : Z) : Z := z mod 2 ^ 32.
Definition uint64_wrap (z : Z) : Z := z mod 2 ^ 64.
(** [int] and [int64] (two's complement, 64 bits). *)
Definition int64_wrap (z : Z) : Z := (z + 2 ^ 63) mod 2 ^ 64 - 2 ^ 63.

(** ** Bytes and strings *)

Definition byte_of (a : ascii) : Z := Z.of_N (N_of_ascii a).

(** [[]byte(s)] *)
Fixpoint bytes (s : string) : list Z :=
  match s with
  | EmptyString => []
  | String a s' => byte_of a :: bytes s'
  end.

(** [len(s)] *)
Definition len (s : string) : Z := Z.of_nat (String.length s).

(** [copy(dst, src)]: overwrites the first [min (len dst) (len src)]
    elements of [dst]; returns the new contents of [dst]. *)
Definition copy {A} (dst src : list A) : list A :=
  take (length dst) src ++ drop (length src) dst.

(** *** [strconv.Itoa] (Go standard library): decimal, with a sign. *)

Definition digit (d : Z) : ascii := ascii_of_N (Z.to_N (48 + d)).

Fixpoint utoa (fuel : nat) (n : Z) (acc : string) : string :=
  match fuel with
  | O => acc
  | S fuel' =>
      let acc' := String (digit (n mod 10)) acc in
      if n <? 10 then acc' else utoa fuel' (n / 10) acc'
  end.

(** A 64-bit integer has at most 20 decimal digits. *)
Definition Itoa (i : Z) : string :=
  if i <? 0 then String "-" (utoa 20 (- i) "") else utoa 20 i "".

(** *** [strconv.FormatBool] *)
Definition FormatBool (b : bool) : string := if b then "true" else "false".

(** ** Hash functions of the standard library

    [hash/crc32] and [hash/fnv] belong to Go, not to the repository; they
    are given by their defining algorithms (the bit-serial CRC-32 with the
    reflected IEEE polynomial, and FNV-1a on 32 bits). *)

Definition IEEE : Z := 0xedb88320.

Fixpoint crc_shift (k : nat) (crc : Z) : Z :=
  match k with
  | O => crc
  | S k' =>
      crc_shift k'
        (if Z.testbit crc 0 then Z.lxor (Z.shiftr crc 1) IEEE
         else Z.shiftr crc 1)
  end.

Definition crc_update (crc : Z) (b : Z) : Z := crc_shift 8 (Z.lxor crc b).

Definition ChecksumIEEE (data : list Z) : Z :=
  Z.lxor (fold_left crc_update data 0xffffffff) 0xffffffff.

Definition fnv_offset32 : Z := 2166136261.
Definition fnv_prime32 : Z := 16777619.

Definition fnv1a_update (h : Z) (b : Z) : Z :=
  uint32_wrap (Z.lxor h b * fnv_prime32).

(** [h := fnv.New32a(); h.Write(data); h.Sum32()] *)
Definition Sum32a (data : list Z) : Z := fold_left fnv1a_update data fnv_offset32.

(** ** [sort.Search] (Go standard library)

    [Search n f] is the binary search of package [sort]:
<<
      i, j := 0, n
      for i < j {
        h := int(uint(i+j) >> 1)
        if !f(h) { i = h + 1 } else { j = h }
      }
      return i
>>
    [j - i] decreases at every turn, so [n] turns are always enough. *)

Fixpoint search_loop (fuel : nat) (f : nat -> bool) (i j : nat) : nat :=
  match fuel with
  | O => i
  | S fuel' =>
      if (i <? j)%nat then
        let h := ((i + j) / 2)%nat in
        if negb (f h) then search_loop fuel' f (h + 1)%nat j
        else search_loop fuel' f i h
      else i
  end.

Definition Search (n : nat) (f : nat -> bool) : nat := search_loop n f 0%nat n.

(** [sort.Sort] / [sort.Slice] on unsigned integers with [<]: the result is
    the ascending rearrangement of the slice, which is unique, so any
    sorting function models it. *)
Definition sort_asc (l : list Z) : list Z := merge_sort Z.le l.

(** * The string ring: [Consistent] (consistent.go) *)

(** [var ErrEmptyCircle = errors.New("empty circle")], the only error value. *)
Inductive error : Set := ErrEmptyCircle.

(** [type Consistent struct].  The [scratch] array is never read or written
    ([hashKeyCRC32] declares its own) and the embedded [sync.RWMutex] only
    serialises the operations; both are left out. *)
Record Consistent : Type := mkConsistent {
  circle : gmap Z string;          (* map[uint32]string *)
  members : gmap string bool;      (* map[string]bool *)
  sortedHashes : list Z;           (* uints *)
  NumberOfReplicas : Z;            (* int *)
  count : Z;                       (* int64 *)
  UseFnv : bool
}.

Definition New : Consistent :=
  {| circle := ∅; members := ∅; sortedHashes := [];
     NumberOfReplicas := 20; count := 0; UseFnv := false |}.

Definition eltKey (elt : string) (idx : Z) : string := Itoa idx +:+ elt.

Definition hashKeyCRC32 (key : string) : Z :=
  if len key <? 64 then
    let scratch := copy (replicate 64 0) (bytes key) in
    ChecksumIEEE (take (Z.to_nat (len key)) scratch)
  else ChecksumIEEE (bytes key).

Definition hashKeyFnv (key : string) : Z := Sum32a (bytes key).

Definition hashKey (c : Consistent) (key : string) : Z :=
  if UseFnv c then hashKeyFnv key else hashKeyCRC32 key.

(** The positions [hashKey (eltKey elt i)] for [i = 0 .. NumberOfReplicas-1],
    in the order in which the loops of [add] and [remove] visit them. *)
Definition replicaHashes (c : Consistent) (elt : string) : list Z :=
  (λ i, hashKey c (eltKey elt i)) <$> seqZ 0 (NumberOfReplicas c).

(** [updateSortedHashes].  The keys of [circle] are collected (in the
    unspecified order of a map range) and sorted.  The capacity test only
    decides whether the old backing array is reused, which no operation
    observes; its division panics when [NumberOfReplicas * 4] is zero. *)
Definition updateSortedHashes (c : Consistent) : outcome Consistent :=
  if int64_wrap (NumberOfReplicas c * 4) =? 0 then Panic
  else Done {| circle := circle c; members := members c;
               sortedHashes := sort_asc (map_to_list (circle c)).*1;
               NumberOfReplicas := NumberOfReplicas c;
               count := count c; UseFnv := UseFnv c |}.

Definition add (elt : string) (c : Consistent) : outcome Consistent :=
  let circle' := foldl (λ m h, <[h := elt]> m) (circle c) (replicaHashes c elt) in
  c' ← updateSortedHashes
         {| circle := circle'; members := <[elt := true]> (members c);
            sortedHashes := sortedHashes c;
            NumberOfReplicas := NumberOfReplicas c;
            count := count c; UseFnv := UseFnv c |};
  Done {| circle := circle c'; members := members c';
          sortedHashes := sortedHashes c';
          NumberOfReplicas := NumberOfReplicas c';
          count := int64_wrap (count c' + 1); UseFnv := UseFnv c' |}.

Definition Add (elt : string) (c : Consistent) : outcome Consistent := add elt c.

Definition remove (elt : string) (c : Consistent) : outcome Consistent :=
  let circle' := foldl (λ m h, delete h m) (circle c) (replicaHashes c elt) in
  c' ← updateSortedHashes
         {| circle := circle'; members := delete elt (members c);
            sortedHashes := sortedHashes c;
            NumberOfReplicas := NumberOfReplicas c;
            count := count c; UseFnv := UseFnv c |};
  Done {| circle := circle c'; members := members c';
          sortedHashes := sortedHashes c';
          NumberOfReplicas := NumberOfReplicas c';
          count := int64_wrap (count c' - 1); UseFnv := UseFnv c' |}.

Definition Remove (elt : string) (c : Consistent) : outcome Consistent := remove elt c.

(** [Set] (a reserved word here, hence [Set_]).  The first loop ranges
    over [members] in an unspecified order and removes the current key
    only, so every member is visited once: [Set_ordered] takes the order
    [ks] of the visit, and [Set_] uses that of [map_to_list]; the result
    does not depend on it ([Set_order_irrelevant] below).  The second loop
    follows [elts]. *)
Definition Set_remove (elts : list string) (r : outcome Consistent) (k : string)
  : outcome Consistent :=
  c ← r;
  let found := existsb (λ v, bool_decide (k = v)) elts in
  if negb found then remove k c else Done c.

Definition Set_add (r : outcome Consistent) (v : string) : outcome Consistent :=
  c ← r; if bool_decide (is_Some (members c !! v)) then Done c else add v c.

Definition Set_ordered (ks : list string) (elts : list string) (c : Consistent)
  : outcome Consistent :=
  foldl Set_add (foldl (Set_remove elts) (Done c) ks) elts.

Definition Set_ (elts : list string) (c : Consistent) : outcome Consistent :=
  Set_ordered (map_to_list (members c)).*1 elts c.

(** [Members] *)
Definition Members (c : Consistent) : list string := (map_to_list (members c)).*1.

(** [search].  The closure indexes [sortedHashes]; [sort.Search] calls it
    below [len(c.sortedHashes)] only, so the value given here to an index
    out of range is never used. *)
Definition search (c : Consistent) (key : Z) : nat :=
  let f := λ x, default 0 (sortedHashes c !! x) >? key in
  let i := Search (length (sortedHashes c)) f in
  if (length (sortedHashes c) <=? i)%nat then 0%nat else i.

(** [c.circle[h]]: a missing key reads as the empty string. *)
Definition occupant (c : Consistent) (h : Z) : string := default "" (circle c !! h).

(** [c.circle[c.sortedHashes[i]]]; the index expression panics out of range. *)
Definition at_index (c : Consistent) (i : nat) : outcome string :=
  match sortedHashes c !! i with
  | Some h => Done (occupant c h)
  | None => Panic
  end.

Definition Get (c : Consistent) (name : string) : outcome (string * option error) :=
  if (size (circle c) =? 0)%nat then Done ("", Some ErrEmptyCircle)
  else
    let key := hashKey c name in
    let i := search c key in
    a ← at_index c i;
    Done (a, None).

(** The loop of [GetTwo], entered at its condition [i != start]. *)
Fixpoint GetTwo_loop (fuel : nat) (c : Consistent) (a : string)
    (start i : nat) (b : string) : outcome string :=
  match fuel with
  | O => OutOfFuel
  | S fuel' =>
      if (i =? start)%nat then Done b
      else
        let i := if (size (circle c) <=? i)%nat then 0%nat else i in
        b ← at_index c i;
        if bool_decide (b ≠ a) then Done b
        else GetTwo_loop fuel' c a start (i + 1)%nat b
  end.

Definition GetTwo (fuel : nat) (c : Consistent) (name : string)
  : outcome (string * string * option error) :=
  if (size (circle c) =? 0)%nat then Done ("", "", Some ErrEmptyCircle)
  else
    let key := hashKey c name in
    let i := search c key in
    a ← at_index c i;
    if count c =? 1 then Done (a, "", None)
    else
      b ← GetTwo_loop fuel c a i (i + 1)%nat "";
      Done (a, b, None).

Fixpoint sliceContainsMember (set : list string) (member : string) : bool :=
  match set with
  | [] => false
  | m :: set' =>
      if bool_decide (member = m) then true else sliceContainsMember set' member
  end.

(** The loop of [GetN], entered at its condition [i != start]. *)
Fixpoint GetN_loop (fuel : nat) (c : Consistent) (n : Z)
    (start i : nat) (res : list string) : outcome (list string) :=
  match fuel with
  | O => OutOfFuel
  | S fuel' =>
      if (i =? start)%nat then Done res
      else
        let i := if (length (sortedHashes c) <=? i)%nat then 0%nat else i in
        elem ← at_index c i;
        let res := if sliceContainsMember res elem then res else res ++ [elem] in
        if Z.of_nat (length res) =? n then Done res
        else GetN_loop fuel' c n start (i + 1)%nat res
  end.

(** [make([]string, 0, n)] panics for a negative capacity. *)
Definition GetN (fuel : nat) (c : Consistent) (name : string) (n : Z)
  : outcome (list string * option error) :=
  if (size (circle c) =? 0)%nat then Done ([], Some ErrEmptyCircle)
  else
    let n := if count c <? n then count c else n in
    let key := hashKey c name in
    let i := search c key in
    if n <? 0 then Panic
    else
      elem ← at_index c i;
      res ← GetN_loop fuel c n i (i + 1)%nat [elem];
      Done (res, None).

(** * The generic ring: [ConsistentHash] (consistent1.go) *)

Module ConsistentHash.

Definition TopWeight : Z := 100.
Definition minReplica : Z := 100.
Definition prime : Z := 167777619.

(** A node or key is an [interface{}].  The dynamic types kept here are the
    ones [repr] distinguishes and that have an exact textual form: the nil
    interface, [bool], [int], [string], and a value with a [String()]
    method ([fmt.Stringer], carried as the string it returns).  Floats,
    sized integers, errors and byte slices go through the same switch and
    are not needed by the properties below. *)
Inductive node : Type :=
  | NodeNil
  | NodeBool (b : bool)
  | NodeInt (i : Z)
  | NodeString (s : string)
  | NodeStringer (s : string).

#[global] Instance node_eq_dec : EqDecision node.
Proof. solve_decision. Defined.

(** [repr] with [reprOfValue] inlined. *)
Definition repr (n : node) : string :=
  match n with
  | NodeNil => ""
  | NodeStringer s => s
  | NodeBool b => FormatBool b
  | NodeInt i => Itoa i
  | NodeString s => s
  end.

(** [fmt.Sprintf("%d:%v", prime, node)] *)
Definition innerRepr (n : node) : string :=
  Itoa prime +:+ ":" +:+
  match n with
  | NodeNil => "<nil>"
  | NodeStringer s => s
  | NodeBool b => FormatBool b
  | NodeInt i => Itoa i
  | NodeString s => s
  end.

(** [type HashFunc func(data []byte) uint64]; the argument is always a
    string converted to bytes, and is passed as that string. *)
Definition HashFunc : Type := string -> Z.

Record ConsistentHash : Type := mkConsistentHash {
  hashFunc : HashFunc;
  replicas : Z;                    (* int *)
  keys : list Z;                   (* []uint64 *)
  ring : gmap Z (list node);       (* map[uint64][]interface{} *)
  nodes : gset string              (* map[string]PlaceholderType *)
}.

(** A call [h.hashFunc(data)]; the result is a [uint64]. *)
Definition hash (h : ConsistentHash) (data : string) : Z :=
  uint64_wrap (hashFunc h data).

(** [NewCustomConsistentHash].  The default hash function [Hash] is not
    part of the sources at hand and is taken as the parameter [Hash];
    [fn = None] is the nil function. *)
Definition NewCustomConsistentHash (Hash : HashFunc) (replicas : Z)
    (fn : option HashFunc) : ConsistentHash :=
  let replicas := if replicas <? minReplica then minReplica else replicas in
  let fn := match fn with None => Hash | Some f => f end in
  {| hashFunc := fn; replicas := replicas; keys := []; ring := ∅; nodes := ∅ |}.

Definition NewConsistentHash (Hash : HashFunc) : ConsistentHash :=
  NewCustomConsistentHash Hash minReplica (Some Hash).

Definition containsNode (h : ConsistentHash) (nodeRepr : string) : bool :=
  bool_decide (nodeRepr ∈ nodes h).

Definition addNode (nodeRepr : string) (h : ConsistentHash) : ConsistentHash :=
  {| hashFunc := hashFunc h; replicas := replicas h; keys := keys h;
     ring := ring h; nodes := {[nodeRepr]} ∪ nodes h |}.

(** Declared in the source and called by no operation. *)
Definition removeNode (nodeRepr : string) (h : ConsistentHash) : ConsistentHash :=
  {| hashFunc := hashFunc h; replicas := replicas h; keys := keys h;
     ring := ring h; nodes := nodes h ∖ {[nodeRepr]} |}.

Definition removeRingNode (hash : Z) (nodeRepr : string) (h : ConsistentHash)
  : ConsistentHash :=
  match ring h !! hash with
  | Some nodes0 =>
      let newNodes := filter (λ x, repr x ≠ nodeRepr) nodes0 in
      {| hashFunc := hashFunc h; replicas := replicas h; keys := keys h;
         ring := if (0 <? length newNodes)%nat then <[hash := newNodes]> (ring h)
                 else delete hash (ring h);
         nodes := nodes h |}
  | None => h
  end.

(** [sort.Search(len(h.keys), func(i) { return h.keys[i] >= hash })] *)
Definition searchKeys (ks : list Z) (hash : Z) : nat :=
  let f := λ i, default 0 (ks !! i) >=? hash in Search (length ks) f.

(** One turn of the loop of [Remove]. *)
Definition Remove_step (nodeRepr : string) (h : ConsistentHash) (i : Z)
  : ConsistentHash :=
  let hash := hash h (nodeRepr +:+ Itoa i) in
  let index := searchKeys (keys h) hash in
  let keys' :=
    if (index <? length (keys h))%nat
    then take index (keys h) ++ drop (index + 1) (keys h)
    else keys h in
  removeRingNode hash nodeRepr
    {| hashFunc := hashFunc h; replicas := replicas h; keys := keys';
       ring := ring h; nodes := nodes h |}.

Definition Remove (n : node) (h : ConsistentHash) : ConsistentHash :=
  let nodeRepr := repr n in
  if negb (containsNode h nodeRepr) then h
  else foldl (Remove_step nodeRepr) h (seqZ 0 (replicas h)).

(** One turn of the loop of [AddWithReplicas]. *)
Definition Add_step (n : node) (nodeRepr : string) (h : ConsistentHash) (i : Z)
  : ConsistentHash :=
  let hash := hash h (nodeRepr +:+ Itoa i) in
  {| hashFunc := hashFunc h; replicas := replicas h;
     keys := keys h ++ [hash];
     ring := <[hash := default [] (ring h !! hash) ++ [n]]> (ring h);
     nodes := nodes h |}.

Definition AddWithReplicas (n : node) (replicas0 : Z) (h : ConsistentHash)
  : ConsistentHash :=
  let h := Remove n h in
  let replicas0 := if replicas0 >? replicas h then replicas h else replicas0 in
  let nodeRepr := repr n in
  let h := addNode nodeRepr h in
  let h := foldl (Add_step n nodeRepr) h (seqZ 0 replicas0) in
  {| hashFunc := hashFunc h; replicas := replicas h; keys := sort_asc (keys h);
     ring := ring h; nodes := nodes h |}.

Definition Add (n : node) (h : ConsistentHash) : ConsistentHash :=
  AddWithReplicas n (replicas h) h.

(** [replicas := h.replicas * weight / TopWeight]: the product wraps, the
    quotient truncates toward zero. *)
Definition AddWithWeight (n : node) (weight : Z) (h : ConsistentHash)
  : ConsistentHash :=
  let replicas0 := Z.quot (int64_wrap (replicas h * weight)) TopWeight in
  AddWithReplicas n replicas0 h.

(** The index expression of [Get]:
    [sort.Search(...) % len(h.keys)], which panics on an empty [keys]. *)
Definition Get_index (h : ConsistentHash) (hash0 : Z) : outcome nat :=
  if (length (keys h) =? 0)%nat then Panic
  else Done (searchKeys (keys h) hash0 `mod` length (keys h))%nat.

(** [Get] returns [(interface{}, bool)]. *)
Definition Get (h : ConsistentHash) (v : node) : outcome (node * bool) :=
  if (size (ring h) =? 0)%nat then Done (NodeNil, false)
  else
    let hash0 := hash h (repr v) in
    index ← Get_index h hash0;
    match keys h !! index with
    | None => Panic
    | Some k =>
        let nodes0 := default [] (ring h !! k) in
        match nodes0 with
        | [] => Done (NodeNil, false)
        | [x] => Done (x, true)
        | _ =>
            let innerIndex := hash h (innerRepr v) in
            let pos := Z.to_nat (innerIndex `mod` Z.of_nat (length nodes0)) in
            match nodes0 !! pos with
            | Some x => Done (x, true)
            | None => Panic
            end
        end
    end.

(** The mutating operations, as data. *)
Inductive op : Type :=
  | OpAdd (n : node)
  | OpAddWithReplicas (n : node) (replicas0 : Z)
  | OpAddWithWeight (n : node) (weight : Z)
  | OpRemove (n : node).

Definition apply_op (h : ConsistentHash) (o : op) : ConsistentHash :=
  match o with
  | OpAdd n => Add n h
  | OpAddWithReplicas n r => AddWithReplicas n r h
  | OpAddWithWeight n w => AddWithWeight n w h
  | OpRemove n => Remove n h
  end.

Definition run (h : ConsistentHash) (ops : list op) : ConsistentHash :=
  foldl apply_op h ops.

End ConsistentHash.

Module CH := ConsistentHash.

(** * Mutation sequences of the string ring *)

Inductive mutation : Type :=
  | MAdd (elt : string)
  | MRemove (elt : string)
  | MSet (elts : list string).

Definition apply_mutation (c : Consistent) (m : mutation) : outcome Consistent :=
  match m with
  | MAdd elt => Add elt c
  | MRemove elt => Remove elt c
  | MSet elts => Set_ elts c
  end.

(** A sequence of mutations applied to a ring fresh from [New]. *)
Definition run (ms : list mutation) : outcome Consistent :=
  foldl (λ r m, c ← r; apply_mutation c m) (Done New) ms.

(** * Vocabulary of the properties *)

(** ** Well-formed string rings *)

(** The division in [updateSortedHashes] is defined. *)
Definition replicas_ok (c : Consistent) : Prop :=
  int64_wrap (NumberOfReplicas c * 4) ≠ 0.

(** What [updateSortedHashes] establishes and every lookup relies on:
    [sortedHashes] is the ascending list of the keys of [circle]. *)
Definition wf (c : Consistent) : Prop :=
  sortedHashes c = sort_asc (map_to_list (circle c)).*1.

(** Every position is one of the replica hashes of its occupant, and the
    occupant is a member. *)
Definition owned (c : Consistent) : Prop :=
  ∀ h e, circle c !! h = Some e →
    is_Some (members c !! e) ∧ h ∈ replicaHashes c e.

Record inv (c : Consistent) : Prop := mkInv {
  inv_wf : wf c;
  inv_replicas : NumberOfReplicas c = 20;
  inv_owned : owned c
}.

(** [count] is the number of members (as an [int64]). *)
Definition count_ok (c : Consistent) : Prop :=
  count c = int64_wrap (Z.of_nat (size (members c))).

(** A mutation used the way [Set] uses [add] and [remove]: a node is added
    when it is not a member and removed when it is one. *)
Definition intended (c : Consistent) (m : mutation) : Prop :=
  match m with
  | MAdd elt => members c !! elt = None
  | MRemove elt => is_Some (members c !! elt)
  | MSet _ => True
  end.

(** [intended_run ms c]: the mutations [ms], each used as intended, take a
    fresh ring to [c]. *)
Inductive intended_run : list mutation → Consistent → Prop :=
  | intended_nil : intended_run [] New
  | intended_snoc ms c m c' :
      intended_run ms c → intended c m → apply_mutation c m = Done c' →
      intended_run (ms ++ [m]) c'.

(** ** Selection of a position *)

(** [i] is the index [search] must return for [key] in the ascending slice
    [l]: the first position strictly above [key], or 0 when there is none. *)
Definition first_above (l : list Z) (key : Z) (i : nat) : Prop :=
  (∃ p, l !! i = Some p ∧ key < p ∧
        ∀ j q, (j < i)%nat → l !! j = Some q → q ≤ key)
  ∨ (i = 0%nat ∧ ∀ q, q ∈ l → q ≤ key).

(** The selection rule as the claim states it: [i] is the first index of
    [l] whose position is at least [key], or 0 when every position is
    below [key]. *)
Definition first_at_least (l : list Z) (key : Z) (i : nat) : Prop :=
  (∃ p, l !! i = Some p ∧ key ≤ p ∧
        ∀ j q, (j < i)%nat → l !! j = Some q → q < key)
  ∨ (i = 0%nat ∧ ∀ q, q ∈ l → q < key).

(** The position a key is served from: the least one strictly above the
    key's hash, or the least of all when none is above. *)
Definition successor (l : list Z) (key p : Z) : Prop :=
  p ∈ l ∧
  ((key < p ∧ ∀ q, q ∈ l → key < q → p ≤ q)
   ∨ ((∀ q, q ∈ l → q ≤ key) ∧ ∀ q, q ∈ l → p ≤ q)).

(** ** The CRC-32 key hash *)

(** The checksum of the key's bytes, computed directly. *)
Definition hashKeyCRC32_direct (key : string) : Z := ChecksumIEEE (bytes key).

(** ** The circular walks of [GetTwo] and [GetN] *)

(** The occupants met along the circle, in position order, and the distinct
    nodes among them. *)
Definition owners (c : Consistent) : list string := occupant c <$> sortedHashes c.

Definition distinctNodes (c : Consistent) : list string := remove_dups (owners c).

(** [res] after one more position has been looked at. *)
Definition visit (res : list string) (elem : string) : list string :=
  if sliceContainsMember res elem then res else res ++ [elem].

(** [res] holds, without repetition, occupants of the circle, among them
    those of all positions in [V]. *)
Definition collected (c : Consistent) (V : nat → Prop) (res : list string) : Prop :=
  NoDup res ∧ (∀ x, x ∈ res → x ∈ owners c) ∧
  (∀ k h, V k → sortedHashes c !! k = Some h → occupant c h ∈ res).

(** What [GetN]'s walk returns when it started with [res0]. *)
Definition walk_result (c : Consistent) (n : Z) (res0 res : list string) : Prop :=
  Z.of_nat (length res) = n ∧ NoDup res ∧ (∀ x, x ∈ res → x ∈ owners c)
  ∧ res0 `prefix_of` res.

(** ** Occupants and the registered set of the generic ring *)

(** Every occupant list is non-empty and made of registered identities. *)
Definition registered_ring (h : CH.ConsistentHash) : Prop :=
  ∀ k l, CH.ring h !! k = Some l →
    l ≠ [] ∧ ∀ x, x ∈ l → CH.repr x ∈ CH.nodes h.

(** The occupants of a position once those of identity [id] are taken
    out, as [removeRingNode] leaves them: an emptied position is dropped. *)
Definition without (id : string) (o : option (list CH.node))
  : option (list CH.node) :=
  match o with
  | Some l =>
      if decide (filter (λ x, CH.repr x ≠ id) l = []) then None
      else Some (filter (λ x, CH.repr x ≠ id) l)
  | None => None
  end.

(** The replica positions of identity [id] for the indices [js], under the
    hash function [hf]. *)
Definition replicaKeys (hf : CH.HashFunc) (id : string) (js : list Z) : list Z :=
  (λ j, uint64_wrap (hf (id +:+ Itoa j))) <$> js.

(** The identity [id] has at least one replica among the occupants. *)
Definition has_replica (h : CH.ConsistentHash) (id : string) : Prop :=
  ∃ k l x, CH.ring h !! k = Some l ∧ x ∈ l ∧ CH.repr x = id.

Definition op_node (o : CH.op) : CH.node :=
  match o with
  | CH.OpAdd n | CH.OpAddWithReplicas n _ | CH.OpAddWithWeight n _
  | CH.OpRemove n => n
  end.

(** The number of replicas an operation places on a ring configured with
    [R] replicas (after the clamp of [AddWithReplicas]). *)
Definition op_replicas (R : Z) (o : CH.op) : Z :=
  match o with
  | CH.OpAdd _ => R
  | CH.OpAddWithReplicas _ r => Z.min r R
  | CH.OpAddWithWeight _ w => Z.min (Z.quot (int64_wrap (R * w)) CH.TopWeight) R
  | CH.OpRemove _ => 0
  end.

(** * Concrete rings *)

Definition state_of (r : outcome Consistent) : Consistent :=
  match r with Done c => c | _ => New end.

(** The ring of [TestGetMultiple]. *)
Definition ring3_ms : list mutation :=
  [MAdd "abcdefg"; MAdd "hijklmn"; MAdd "opqrstu"].

Definition ring3_state : Consistent := Eval vm_compute in state_of (run ring3_ms).

(** The same node added twice. *)
Definition double_ms : list mutation := [MAdd "abcdefg"; MAdd "abcdefg"].
Definition double_state : Consistent := Eval vm_compute in state_of (run double_ms).

Definition emptied_ms : list mutation := [MAdd "abcdefg"; MRemove "abcdefg"].

Definition emptied_state : Consistent := Eval vm_compute in state_of (run emptied_ms).

(** Two node names of equal length and equal CRC-32: prefixing both with
    the same replica index keeps the checksums equal, so all twenty
    replica positions of the one coincide with those of the other. *)
Definition twin_a : string := "kadtati".

Definition twin_b : string := "hosdwbv".

Definition twins_ms : list mutation := [MAdd twin_a; MAdd twin_b].

Definition twins_state : Consistent := Eval vm_compute in state_of (run twins_ms).

Definition twins3_ms : list mutation := [MAdd twin_a; MAdd twin_b; MAdd "abcdefg"].

Definition twins3_state : Consistent := Eval vm_compute in state_of (run twins3_ms).

(** A checksum in the style of the pluggable [HashFunc]: the sum of the
    bytes.  Anagrams collide ([a19] and [a91]). *)
Definition byteSum : CH.HashFunc := λ data, foldr Z.add 0 (bytes data).

(** CRC-32 as the pluggable hash function, and the twins on a generic
    ring that uses it. *)
Definition crc32Hash : CH.HashFunc := λ data, ChecksumIEEE (bytes data).

Definition generic_twins : CH.ConsistentHash :=
  CH.run (CH.NewCustomConsistentHash crc32Hash 100 None)
    [CH.OpAdd (CH.NodeString twin_a); CH.OpAdd (CH.NodeString twin_b)].

(** Two nodes with one replica each, then the first removed. *)
Definition generic_stolen : CH.ConsistentHash :=
  CH.run (CH.NewCustomConsistentHash byteSum 100 None)
    [CH.OpAddWithReplicas (CH.NodeString "a") 1;
     CH.OpAddWithReplicas (CH.NodeString "c") 1;
     CH.OpRemove (CH.NodeString "a")].

Definition generic_a : CH.ConsistentHash :=
  CH.run (CH.NewCustomConsistentHash byteSum 100 None) [CH.OpAdd (CH.NodeString "a")].

(** * Vocabulary of the further properties *)

(** ** Counting the calls *)

(** The number of [Add] calls less the number of [Remove] calls. *)
Definition balance (ms : list mutation) : Z :=
  foldl (λ z m, match m with MAdd _ => z + 1 | MRemove _ => z - 1 | MSet _ => z end) 0 ms.

(** Only [Add] and [Remove]. *)
Definition no_Set (m : mutation) : Prop :=
  match m with MSet _ => False | _ => True end.

(** Two stray removals after one addition. *)
Definition overdrawn_ms : list mutation := [MAdd "abcdefg"; MRemove "aaa"; MRemove "bbb"].

Definition overdrawn_state : Consistent := Eval vm_compute in state_of (run overdrawn_ms).

(** [x := New(); x.NumberOfReplicas = 0] *)
Definition no_replicas : Consistent :=
  {| circle := ∅; members := ∅; sortedHashes := [];
     NumberOfReplicas := 0; count := 0; UseFnv := false |}.

(** ** Invariants of the generic ring *)

(** Every occupant sits at a replica position of its own identity. *)
Definition placed (h : CH.ConsistentHash) : Prop :=
  ∀ k l x, CH.ring h !! k = Some l → x ∈ l →
    k ∈ replicaKeys (CH.hashFunc h) (CH.repr x) (seqZ 0 (CH.replicas h)).

(** Every registered identity has all its replicas in place: [keys] holds
    the replica positions of the registered identities, each once per
    replica, and each of these positions has an occupant of that
    identity. *)
Definition complete (h : CH.ConsistentHash) : Prop :=
  CH.keys h ≡ₚ
    elements (CH.nodes h) ≫=
      (λ id, replicaKeys (CH.hashFunc h) id (seqZ 0 (CH.replicas h)))
  ∧ ∀ id k, id ∈ CH.nodes h →
      k ∈ replicaKeys (CH.hashFunc h) id (seqZ 0 (CH.replicas h)) →
      ∃ l x, CH.ring h !! k = Some l ∧ x ∈ l ∧ CH.repr x = id.

(** Every occupant is one of the nodes [ns]. *)
Definition occupants_among (ns : list CH.node) (h : CH.ConsistentHash) : Prop :=
  ∀ k l x, CH.ring h !! k = Some l → x ∈ l → x ∈ ns.

(** An operation that adds its node. *)
Definition op_adds (o : CH.op) : bool :=
  match o with CH.OpRemove _ => false | _ => true end.

(** ** Membership as the calls leave it *)

(** Whether [x] is a member after the calls [ms] on a fresh ring, read off
    the calls: the last call that concerns [x] decides. *)
Definition member_after (x : string) (ms : list mutation) : bool :=
  foldl (λ b m, match m with
                | MAdd e => if bool_decide (x = e) then true else b
                | MRemove e => if bool_decide (x = e) then false else b
                | MSet elts => bool_decide (x ∈ elts)
                end) false ms.

(** ** Rings that hash with FNV *)

(** [x := New(); x.UseFnv = true] *)
Definition NewFnv : Consistent :=
  {| circle := ∅; members := ∅; sortedHashes := [];
     NumberOfReplicas := 20; count := 0; UseFnv := true |}.

(** A sequence of mutations applied to the ring [c0]. *)
Definition run_from (c0 : Consistent) (ms : list mutation) : outcome Consistent :=
  foldl (λ r m, c ← r; apply_mutation c m) (Done c0) ms.

(** * The model on known values and on the tests of consistent_test.go *)

Example Itoa_examples :
  Itoa 0 = "0" /\ Itoa 7 = "7" /\ Itoa 19 = "19" /\ Itoa (-305) = "-305"
  /\ Itoa 9223372036854775807 = "9223372036854775807".
Proof. repeat split; reflexivity. Qed.

Example ChecksumIEEE_check : ChecksumIEEE (bytes "123456789") = 0xcbf43926.
Proof. vm_compute. reflexivity. Qed.

Example Sum32a_check : Sum32a (bytes "a") = 0xe40c292c /\ Sum32a (bytes "foobar") = 0xbf9cf968.
Proof. split; vm_compute; reflexivity. Qed.

Example TestGetMultiple :
  (c ← run ring3_ms; Get c "ggg") = Done ("abcdefg", None) /\
  (c ← run ring3_ms; Get c "hhh") = Done ("opqrstu", None) /\
  (c ← run ring3_ms; Get c "iiiii") = Done ("hijklmn", None).
Proof. repeat split; vm_compute; reflexivity. Qed.

Example TestGetMultipleRemove :
  let r := run [MAdd "abcdefg"; MAdd "opqrstu"; MAdd "hijklmn"; MRemove "hijklmn"] in
  (c ← r; Get c "ggg") = Done ("abcdefg", None) /\
  (c ← r; Get c "hhh") = Done ("opqrstu", None) /\
  (c ← r; Get c "iiiii") = Done ("opqrstu", None).
Proof. repeat split; vm_compute; reflexivity. Qed.

Example TestAdd :
  (c ← run [MAdd "abcdefg"; MAdd "qwer"];
   Done (size (circle c), length (sortedHashes c))) = Done (40%nat, 40%nat).
Proof. vm_compute. reflexivity. Qed.

Example TestRemove :
  (c ← run [MAdd "abcdefg"; MRemove "abcdefg"];
   Done (size (circle c), length (sortedHashes c))) = Done (0%nat, 0%nat).
Proof. vm_compute. reflexivity. Qed.

Example TestRemoveNonExisting :
  (c ← run [MAdd "abcdefg"; MRemove "aaa"]; Done (size (circle c))) = Done 20%nat.
Proof. vm_compute. reflexivity. Qed.

Example TestGetEmpty : Get New "abcdefg" = Done ("", Some ErrEmptyCircle).
Proof. vm_compute. reflexivity. Qed.

Example TestSet :
  let ms := [MAdd "abc"; MAdd "def"; MAdd "ghi"; MSet ["jkl"; "mno"]] in
  (c ← run ms; x ← GetTwo 50 c "qwerqwerwqer"; Done (count c, x))
    = Done (2, ("mno", "jkl", None)) /\
  (c ← run (ms ++ [MSet ["pqr"; "mno"]]);
   x ← GetTwo 50 c "qwerqwerwqer"; Done (count c, x))
    = Done (2, ("pqr", "mno", None)) /\
  (c ← run (ms ++ [MSet ["pqr"; "mno"]; MSet ["pqr"; "mno"]]);
   x ← GetTwo 50 c "qwerqwerwqer"; Done (count c, x))
    = Done (2, ("pqr", "mno", None)).
Proof. repeat split; vm_compute; reflexivity. Qed.

(** * Binary search and sorted slices *)

Lemma midpoint_bounds (i j : nat) : (i < j)%nat → (i ≤ (i + j) / 2 < j)%nat.
Proof.
  intros Hij. pose proof (Nat.div_mod_eq (i + j) 2).
  pose proof (Nat.mod_upper_bound (i + j) 2). lia.
Qed.

Section binary_search.
Variable f : nat -> bool.
Variable n : nat.
(** [f] is monotone on the searched range, as [sort.Search] requires. *)
Hypothesis f_mono : ∀ a b, (a ≤ b < n)%nat → f a = true → f b = true.

Lemma search_loop_spec fuel : ∀ i j,
  (j - i ≤ fuel)%nat → (i ≤ j ≤ n)%nat →
  (∀ k, (k < i)%nat → f k = false) →
  (∀ k, (j ≤ k < n)%nat → f k = true) →
  (i ≤ search_loop fuel f i j ≤ j)%nat ∧
  (∀ k, (k < search_loop fuel f i j)%nat → f k = false) ∧
  (∀ k, (search_loop fuel f i j ≤ k < n)%nat → f k = true).
Proof.
  induction fuel as [|fuel IH]; intros i j Hfuel Hij Hlo Hhi; cbn [search_loop].
  - assert (i = j) by lia. subst. repeat split; auto; lia.
  - destruct (Nat.ltb_spec i j) as [Hlt|Hge].
    + set (h := ((i + j) / 2)%nat).
      assert (i ≤ h < j)%nat as Hh by (by apply midpoint_bounds).
      destruct (f h) eqn:Hfh; cbn [negb].
      * assert (∀ k, (h ≤ k < n)%nat → f k = true) as Hhi'.
        { intros k Hk. apply (f_mono h k); [lia | done]. }
        destruct (IH i h) as (Hr & Hlo1 & Hhi1); [lia | lia | done | done |].
        repeat split; auto; lia.
      * assert (∀ k, (k < h + 1)%nat → f k = false) as Hlo'.
        { intros k Hk. destruct (f k) eqn:Hfk; [|done].
          rewrite (f_mono k h) in Hfh; [done | lia | done]. }
        destruct (IH (h + 1)%nat j) as (Hr & Hlo1 & Hhi1); [lia | lia | done | done |].
        repeat split; auto; lia.
    + assert (i = j) by lia. subst. repeat split; auto; lia.
Qed.

(** [Search n f] is the least index at which [f] holds, or [n]. *)
Lemma Search_spec :
  (Search n f ≤ n)%nat ∧
  (∀ k, (k < Search n f)%nat → f k = false) ∧
  (∀ k, (Search n f ≤ k < n)%nat → f k = true).
Proof.
  unfold Search.
  destruct (search_loop_spec n 0%nat n) as (Hr & Hlo & Hhi);
    [lia | lia | intros; lia | intros; lia |].
  repeat split; auto; lia.
Qed.
End binary_search.

Lemma search_loop_ext n f g fuel :
  (∀ k, (k < n)%nat → f k = g k) →
  ∀ i j, (j ≤ n)%nat → search_loop fuel f i j = search_loop fuel g i j.
Proof.
  intros Hfg. induction fuel as [|fuel IH]; intros i j Hj; cbn [search_loop]; [done|].
  destruct (Nat.ltb_spec i j) as [Hlt|Hge]; [|done].
  assert (((i + j) / 2 < j)%nat) by (by apply midpoint_bounds).
  rewrite Hfg by lia.
  destruct (g ((i + j) / 2)%nat); cbn [negb]; apply IH; lia.
Qed.

(** [Search n f] calls [f] on indices below [n] only. *)
Lemma Search_ext n f g :
  (∀ k, (k < n)%nat → f k = g k) → Search n f = Search n g.
Proof. intros Hfg. unfold Search. by apply (search_loop_ext n). Qed.

Lemma StronglySorted_lookup_le (l : list Z) i j x y :
  StronglySorted Z.le l → l !! i = Some x → l !! j = Some y →
  (i ≤ j)%nat → x ≤ y.
Proof.
  intros Hs. revert i j. induction Hs as [|a l Hs IH Ha]; intros i j Hi Hj Hij.
  - done.
  - destruct i as [|i], j as [|j]; simplify_eq/=; try lia.
    + rewrite Forall_forall in Ha. apply Ha. by eapply list_elem_of_lookup_2.
    + eapply IH; eauto; lia.
Qed.

Lemma StronglySorted_lookup_lt (l : list Z) i j x y :
  StronglySorted Z.lt l → l !! i = Some x → l !! j = Some y →
  (i < j)%nat → x < y.
Proof.
  intros Hs. revert i j. induction Hs as [|a l Hs IH Ha]; intros i j Hi Hj Hij.
  - done.
  - destruct i as [|i], j as [|j]; simplify_eq/=; try lia.
    + rewrite Forall_forall in Ha. apply Ha. by eapply list_elem_of_lookup_2.
    + eapply IH; eauto; lia.
Qed.

Lemma StronglySorted_lt_le (l : list Z) :
  StronglySorted Z.lt l → StronglySorted Z.le l.
Proof.
  induction 1 as [|a l Hs IH Ha]; constructor; [done|].
  eapply Forall_impl; [done|]. intros; simpl in *; lia.
Qed.

Lemma StronglySorted_lt_NoDup (l : list Z) : StronglySorted Z.lt l → NoDup l.
Proof.
  induction 1 as [|a l Hs IH Ha]; constructor; [|done].
  intros Hin. rewrite Forall_forall in Ha. specialize (Ha _ Hin). lia.
Qed.

(** Sorting a duplicate-free slice gives a strictly ascending one. *)
Lemma sort_asc_sorted (l : list Z) : StronglySorted Z.le (sort_asc l).
Proof. apply (StronglySorted_merge_sort Z.le). Qed.

Lemma sort_asc_perm (l : list Z) : sort_asc l ≡ₚ l.
Proof. apply (merge_sort_Permutation Z.le). Qed.

Lemma StronglySorted_le_NoDup_lt (l : list Z) :
  StronglySorted Z.le l → NoDup l → StronglySorted Z.lt l.
Proof.
  induction 1 as [|a l Hs IH Ha]; intros Hnd; [constructor|].
  apply NoDup_cons in Hnd as [Hna Hnd]. constructor; [auto|].
  rewrite Forall_forall in Ha |- *. intros y Hy.
  specialize (Ha y Hy). assert (a ≠ y) by (intros ->; done). lia.
Qed.

Lemma sort_asc_strict (l : list Z) : NoDup l → StronglySorted Z.lt (sort_asc l).
Proof.
  intros Hnd. apply StronglySorted_le_NoDup_lt; [apply sort_asc_sorted|].
  by rewrite sort_asc_perm.
Qed.

(** The ascending arrangement of a slice is unique. *)
Lemma sort_asc_unique (l1 l2 : list Z) :
  l1 ≡ₚ l2 → StronglySorted Z.le l2 → sort_asc l1 = l2.
Proof.
  intros Hp Hs. apply (StronglySorted_unique Z.le); [apply sort_asc_sorted|done|].
  by rewrite sort_asc_perm.
Qed.

(** * The string ring: lemmas *)

(** ** Well-formed states *)

Lemma wf_elem_of c h : wf c → h ∈ sortedHashes c ↔ is_Some (circle c !! h).
Proof.
  intros ->. rewrite sort_asc_perm, list_elem_of_fmap. split.
  - intros ([k x] & -> & Hin). apply elem_of_map_to_list in Hin. eauto.
  - intros [x Hx]. exists (h, x). split; [done|]. by apply elem_of_map_to_list.
Qed.

Lemma wf_strict c : wf c → StronglySorted Z.lt (sortedHashes c).
Proof. intros ->. apply sort_asc_strict, NoDup_fst_map_to_list. Qed.

Lemma wf_sorted c : wf c → StronglySorted Z.le (sortedHashes c).
Proof. intros. by apply StronglySorted_lt_le, wf_strict. Qed.

Lemma wf_length c : wf c → length (sortedHashes c) = size (circle c).
Proof.
  intros ->. rewrite sort_asc_perm, length_fmap. apply length_map_to_list.
Qed.

Lemma wf_New : wf New.
Proof. unfold wf. simpl. by rewrite map_to_list_empty. Qed.

(** ** [search] on a sorted slice *)

Lemma search_first_above c key :
  StronglySorted Z.le (sortedHashes c) →
  first_above (sortedHashes c) key (search c key).
Proof.
  intros Hs. unfold search.
  set (l := sortedHashes c) in *.
  set (f := λ x : nat, default 0 (l !! x) >? key).
  destruct (Search_spec f (length l)) as (Hle & Hlo & Hhi).
  { intros a b Hab. unfold f.
    destruct (lookup_lt_is_Some_2 l a) as [x Hx]; [lia|].
    destruct (lookup_lt_is_Some_2 l b) as [y Hy]; [lia|].
    rewrite Hx, Hy. simpl. intros Hax.
    pose proof (StronglySorted_lookup_le l a b x y Hs Hx Hy). lia. }
  remember (Search (length l) f) as r eqn:Hr.
  destruct (Nat.leb_spec (length l) r) as [Hge|Hlt].
  - right. split; [done|]. intros q Hq.
    apply list_elem_of_lookup in Hq as [j Hj].
    pose proof (lookup_lt_Some _ _ _ Hj).
    specialize (Hlo j ltac:(lia)). unfold f in Hlo. rewrite Hj in Hlo.
    simpl in Hlo. lia.
  - left. destruct (lookup_lt_is_Some_2 l r) as [p Hp]; [done|].
    exists p. split; [done|]. split.
    + specialize (Hhi r ltac:(lia)).
      unfold f in Hhi. rewrite Hp in Hhi. simpl in Hhi. lia.
    + intros j q Hj Hq. specialize (Hlo j Hj). unfold f in Hlo.
      rewrite Hq in Hlo. simpl in Hlo. lia.
Qed.

Lemma search_lt_length c key :
  sortedHashes c ≠ [] → (search c key < length (sortedHashes c))%nat.
Proof.
  intros Hne. unfold search.
  destruct (Nat.leb_spec (length (sortedHashes c))
              (Search (length (sortedHashes c))
                 (λ x, default 0 (sortedHashes c !! x) >? key))); [|done].
  destruct (sortedHashes c); [done|simpl; lia].
Qed.

Lemma successor_unique l key p p' :
  successor l key p → successor l key p' → p = p'.
Proof.
  intros [Hp [[H1 H2]|[H1 H2]]] [Hp' [[H1' H2']|[H1' H2']]].
  - specialize (H2 _ Hp' H1'). specialize (H2' _ Hp H1). lia.
  - specialize (H1' _ Hp). lia.
  - specialize (H1 _ Hp'). lia.
  - specialize (H2 _ Hp'). specialize (H2' _ Hp). lia.
Qed.

Lemma successor_subseteq l l' key p :
  successor l key p → (∀ q, q ∈ l' → q ∈ l) → p ∈ l' → successor l' key p.
Proof.
  intros [Hp [[H1 H2]|[H1 H2]]] Hsub Hp'; (split; [done|]).
  - left. split; [done|]. intros q Hq. apply H2. auto.
  - right. split; intros q Hq; [apply H1 | apply H2]; auto.
Qed.

Lemma search_successor c key :
  StronglySorted Z.le (sortedHashes c) → sortedHashes c ≠ [] →
  ∃ p, sortedHashes c !! search c key = Some p ∧ successor (sortedHashes c) key p.
Proof.
  intros Hs Hne.
  destruct (search_first_above c key Hs) as [(p & Hp & Hkp & Hlo)|[Hi Hall]].
  - exists p. split; [done|]. split; [by eapply list_elem_of_lookup_2|].
    left. split; [done|]. intros q Hq Hkq.
    apply list_elem_of_lookup in Hq as [j Hj].
    destruct (Nat.lt_ge_cases j (search c key)) as [Hlt|Hge].
    + specialize (Hlo j q Hlt Hj). lia.
    + eapply StronglySorted_lookup_le; eauto.
  - rewrite Hi. destruct (sortedHashes c) as [|p l] eqn:Hl; [done|].
    exists p. split; [done|]. split; [left|].
    right. split; [done|]. intros q Hq.
    apply list_elem_of_lookup in Hq as [j Hj].
    eapply (StronglySorted_lookup_le (p :: l) 0 j); eauto. lia.
Qed.

(** ** The scratch buffer of [hashKeyCRC32] *)

Lemma length_bytes s : length (bytes s) = String.length s.
Proof. induction s; simpl; congruence. Qed.

Lemma scratch_prefix (key : string) :
  len key < 64 →
  take (Z.to_nat (len key)) (copy (replicate 64 0) (bytes key)) = bytes key.
Proof.
  unfold len, copy. intros Hlen.
  rewrite Nat2Z.id, length_replicate, <- length_bytes.
  rewrite (take_ge (bytes key) 64) by (rewrite length_bytes; lia).
  apply take_app_length.
Qed.

(** ** [add] and [remove] *)

Lemma lookup_foldl_insert (m : gmap Z string) (hs : list Z) (e : string) (k : Z) :
  foldl (λ m h, <[h := e]> m) m hs !! k
  = if decide (k ∈ hs) then Some e else m !! k.
Proof.
  revert m. induction hs as [|h hs IH]; intros m; cbn [foldl].
  - by rewrite decide_False by apply not_elem_of_nil.
  - rewrite IH. destruct (decide (k ∈ hs)) as [Hin|Hnin].
    + by rewrite decide_True by (by right).
    + destruct (decide (k = h)) as [->|Hne].
      * rewrite lookup_insert_eq. by rewrite decide_True by (by left).
      * rewrite lookup_insert_ne by done.
        by rewrite decide_False by (by apply not_elem_of_cons).
Qed.

Lemma lookup_foldl_delete (m : gmap Z string) (hs : list Z) (k : Z) :
  foldl (λ m h, delete h m) m hs !! k
  = if decide (k ∈ hs) then None else m !! k.
Proof.
  revert m. induction hs as [|h hs IH]; intros m; cbn [foldl].
  - by rewrite decide_False by apply not_elem_of_nil.
  - rewrite IH. destruct (decide (k ∈ hs)) as [Hin|Hnin].
    + by rewrite decide_True by (by right).
    + destruct (decide (k = h)) as [->|Hne].
      * rewrite lookup_delete_eq. by rewrite decide_True by (by left).
      * rewrite lookup_delete_ne by done.
        by rewrite decide_False by (by apply not_elem_of_cons).
Qed.

(** [add] and [remove], field by field. *)
Lemma add_Done c elt :
  replicas_ok c →
  add elt c = Done
    {| circle := foldl (λ m h, <[h := elt]> m) (circle c) (replicaHashes c elt);
       members := <[elt := true]> (members c);
       sortedHashes :=
         sort_asc (map_to_list
           (foldl (λ m h, <[h := elt]> m) (circle c) (replicaHashes c elt))).*1;
       NumberOfReplicas := NumberOfReplicas c;
       count := int64_wrap (count c + 1);
       UseFnv := UseFnv c |}.
Proof.
  intros Hok. unfold add, updateSortedHashes. simpl.
  destruct (Z.eqb_spec (int64_wrap (NumberOfReplicas c * 4)) 0); [done|]. done.
Qed.

Lemma remove_Done c elt :
  replicas_ok c →
  remove elt c = Done
    {| circle := foldl (λ m h, delete h m) (circle c) (replicaHashes c elt);
       members := delete elt (members c);
       sortedHashes :=
         sort_asc (map_to_list
           (foldl (λ m h, delete h m) (circle c) (replicaHashes c elt))).*1;
       NumberOfReplicas := NumberOfReplicas c;
       count := int64_wrap (count c - 1);
       UseFnv := UseFnv c |}.
Proof.
  intros Hok. unfold remove, updateSortedHashes. simpl.
  destruct (Z.eqb_spec (int64_wrap (NumberOfReplicas c * 4)) 0); [done|]. done.
Qed.

Lemma add_inv c elt c' :
  add elt c = Done c' →
  wf c' ∧ NumberOfReplicas c' = NumberOfReplicas c ∧ UseFnv c' = UseFnv c
  ∧ circle c' = foldl (λ m h, <[h := elt]> m) (circle c) (replicaHashes c elt)
  ∧ members c' = <[elt := true]> (members c)
  ∧ count c' = int64_wrap (count c + 1).
Proof.
  unfold add, updateSortedHashes. simpl.
  destruct (Z.eqb_spec (int64_wrap (NumberOfReplicas c * 4)) 0); [done|].
  simpl. intros [= <-]. by repeat split.
Qed.

Lemma remove_inv c elt c' :
  remove elt c = Done c' →
  wf c' ∧ NumberOfReplicas c' = NumberOfReplicas c ∧ UseFnv c' = UseFnv c
  ∧ circle c' = foldl (λ m h, delete h m) (circle c) (replicaHashes c elt)
  ∧ members c' = delete elt (members c)
  ∧ count c' = int64_wrap (count c - 1).
Proof.
  unfold remove, updateSortedHashes. simpl.
  destruct (Z.eqb_spec (int64_wrap (NumberOfReplicas c * 4)) 0); [done|].
  simpl. intros [= <-]. by repeat split.
Qed.

(** [replicaHashes] reads two fields only. *)
Lemma replicaHashes_cong c c' elt :
  NumberOfReplicas c' = NumberOfReplicas c → UseFnv c' = UseFnv c →
  replicaHashes c' elt = replicaHashes c elt.
Proof. unfold replicaHashes, hashKey. by intros -> ->. Qed.

(** ** What holds of every ring built from [New] *)

Lemma inv_replicas_ok c : inv c → replicas_ok c.
Proof. intros [_ H _]. unfold replicas_ok. rewrite H. done. Qed.

Lemma inv_New : inv New.
Proof.
  split; [apply wf_New | done |].
  intros h e Hh. simpl in Hh. by rewrite lookup_empty in Hh.
Qed.

Lemma add_preserves_inv c elt :
  inv c → ∃ c', add elt c = Done c' ∧ inv c'.
Proof.
  intros Hinv. pose proof (inv_replicas_ok c Hinv) as Hok.
  destruct Hinv as [Hwf Hrep Hown].
  destruct (add elt c) as [c'| |] eqn:Hadd; [|by rewrite add_Done in Hadd..].
  destruct (add_inv _ _ _ Hadd) as (Hwf' & HN & HF & Hc & Hm & Hcnt).
  exists c'. split; [done|]. split; [done|congruence|].
  intros h e. rewrite (replicaHashes_cong c c') by done. rewrite Hc, Hm.
  rewrite lookup_foldl_insert.
  destruct (decide (h ∈ replicaHashes c elt)) as [Hin|Hnin].
  - intros [= <-]. rewrite lookup_insert_eq. eauto.
  - intros He. destruct (Hown h e He) as [[b Hb] Hh]. split; [|done].
    destruct (decide (elt = e)) as [->|Hne].
    + rewrite lookup_insert_eq. eauto.
    + rewrite lookup_insert_ne by done. eauto.
Qed.

Lemma remove_preserves_inv c elt :
  inv c → ∃ c', remove elt c = Done c' ∧ inv c'.
Proof.
  intros Hinv. pose proof (inv_replicas_ok c Hinv) as Hok.
  destruct Hinv as [Hwf Hrep Hown].
  destruct (remove elt c) as [c'| |] eqn:Hrm; [|by rewrite remove_Done in Hrm..].
  destruct (remove_inv _ _ _ Hrm) as (Hwf' & HN & HF & Hc & Hm & Hcnt).
  exists c'. split; [done|]. split; [done|congruence|].
  intros h e. rewrite (replicaHashes_cong c c') by done. rewrite Hc, Hm.
  rewrite lookup_foldl_delete.
  destruct (decide (h ∈ replicaHashes c elt)) as [Hin|Hnin]; [done|].
  intros He. destruct (Hown h e He) as [[b Hb] Hh]. split; [|done].
  rewrite lookup_delete_ne; [eauto|]. by intros <-.
Qed.

Lemma Set_preserves_inv c elts :
  inv c → ∃ c', Set_ elts c = Done c' ∧ inv c'.
Proof.
  intros Hinv. unfold Set_, Set_ordered.
  assert (∃ c1, foldl (Set_remove elts) (Done c) (map_to_list (members c)).*1
                = Done c1 ∧ inv c1) as (c1 & -> & Hinv1).
  { generalize ((map_to_list (members c)).*1). intros ks. revert c Hinv.
    induction ks as [|k ks IH]; intros c Hinv; simpl; [eauto|].
    destruct (existsb _ elts); cbn [negb]; [by apply IH|].
    destruct (remove_preserves_inv c k Hinv) as (c' & -> & Hinv'). by apply IH. }
  clear c Hinv. revert c1 Hinv1.
  induction elts as [|v elts IH]; intros c Hinv; simpl; [eauto|].
  destruct (bool_decide (is_Some (members c !! v))); [by apply IH|].
  destruct (add_preserves_inv c v Hinv) as (c' & -> & Hinv'). by apply IH.
Qed.

Lemma apply_mutation_preserves_inv c m :
  inv c → ∃ c', apply_mutation c m = Done c' ∧ inv c'.
Proof.
  destruct m; simpl; [apply add_preserves_inv | apply remove_preserves_inv
                     | apply Set_preserves_inv].
Qed.

(** No sequence of mutations panics, and the result satisfies [inv]. *)
Lemma run_inv ms : ∃ c, run ms = Done c ∧ inv c.
Proof.
  unfold run. induction ms as [|m ms IH] using rev_ind; simpl.
  - exists New. split; [done | apply inv_New].
  - rewrite foldl_app. simpl. destruct IH as (c & -> & Hinv).
    by apply apply_mutation_preserves_inv.
Qed.

(** ** The order in which [Set] visits the members *)

Lemma Consistent_eq (c1 c2 : Consistent) :
  circle c1 = circle c2 → members c1 = members c2 →
  sortedHashes c1 = sortedHashes c2 → NumberOfReplicas c1 = NumberOfReplicas c2 →
  count c1 = count c2 → UseFnv c1 = UseFnv c2 → c1 = c2.
Proof. destruct c1, c2. simpl. by intros -> -> -> -> -> ->. Qed.

Lemma remove_comm c k1 k2 :
  (c1 ← remove k1 c; remove k2 c1) = (c2 ← remove k2 c; remove k1 c2).
Proof.
  destruct (decide (replicas_ok c)) as [Hok|Hnok].
  - destruct (remove k1 c) as [c1| |] eqn:H1; [|by rewrite remove_Done in H1..].
    destruct (remove k2 c) as [c2| |] eqn:H2; [|by rewrite remove_Done in H2..].
    cbn [mbind outcome_bind].
    destruct (remove_inv _ _ _ H1) as (_ & HN1 & HF1 & Hc1 & Hm1 & Hcnt1).
    destruct (remove_inv _ _ _ H2) as (_ & HN2 & HF2 & Hc2 & Hm2 & Hcnt2).
    destruct (remove k2 c1) as [c12| |] eqn:H12;
      [|rewrite remove_Done in H12; [done | unfold replicas_ok; by rewrite HN1]..].
    destruct (remove k1 c2) as [c21| |] eqn:H21;
      [|rewrite remove_Done in H21; [done | unfold replicas_ok; by rewrite HN2]..].
    destruct (remove_inv _ _ _ H12) as (Hwf12 & HN12 & HF12 & Hc12 & Hm12 & Hcnt12).
    destruct (remove_inv _ _ _ H21) as (Hwf21 & HN21 & HF21 & Hc21 & Hm21 & Hcnt21).
    rewrite (replicaHashes_cong c c1) in Hc12 by done.
    rewrite (replicaHashes_cong c c2) in Hc21 by done.
    assert (circle c12 = circle c21) as Hcc.
    { rewrite Hc12, Hc21, Hc1, Hc2. apply map_eq. intros k.
      rewrite !lookup_foldl_delete. by repeat case_decide. }
    f_equal. apply Consistent_eq; [done| | |congruence|congruence|congruence].
    + rewrite Hm12, Hm21, Hm1, Hm2. apply delete_delete.
    + unfold wf in Hwf12, Hwf21. by rewrite Hwf12, Hwf21, Hcc.
  - unfold remove, updateSortedHashes. cbn [NumberOfReplicas].
    unfold replicas_ok in Hnok.
    destruct (Z.eqb_spec (int64_wrap (NumberOfReplicas c * 4)) 0); [done|].
    by destruct Hnok.
Qed.

Lemma Set_remove_comm elts r k1 k2 :
  Set_remove elts (Set_remove elts r k1) k2
  = Set_remove elts (Set_remove elts r k2) k1.
Proof.
  unfold Set_remove. destruct r as [c| |]; cbn [mbind outcome_bind]; [|done..].
  destruct (existsb (λ v, bool_decide (k1 = v)) elts),
           (existsb (λ v, bool_decide (k2 = v)) elts);
    cbn [negb mbind outcome_bind].
  - done.
  - by destruct (remove k2 c).
  - by destruct (remove k1 c).
  - apply remove_comm.
Qed.

Lemma foldl_Permutation {A B} (f : A → B → A) (l1 l2 : list B) :
  (∀ a x y, f (f a x) y = f (f a y) x) →
  l1 ≡ₚ l2 → ∀ a, foldl f a l1 = foldl f a l2.
Proof.
  intros Hcomm. induction 1 as [|x l1 l2 _ IH|x y l|l1 l2 l3 _ IH1 _ IH2];
    intros a; simpl; [done|apply IH|by rewrite Hcomm|].
  by rewrite IH1.
Qed.

(** The result of [Set] is the same for every order of the first loop. *)
Lemma Set_order_irrelevant ks ks' elts c :
  ks ≡ₚ ks' → Set_ordered ks elts c = Set_ordered ks' elts c.
Proof.
  intros Hperm. unfold Set_ordered. f_equal.
  apply foldl_Permutation; [|done]. intros. apply Set_remove_comm.
Qed.

(** ** The node count under intended use *)

Lemma int64_wrap_add_l a b : int64_wrap (int64_wrap a + b) = int64_wrap (a + b).
Proof.
  unfold int64_wrap. f_equal.
  replace ((a + 2 ^ 63) `mod` 2 ^ 64 - 2 ^ 63 + b + 2 ^ 63)
    with ((a + 2 ^ 63) `mod` 2 ^ 64 + b) by lia.
  rewrite Zplus_mod_idemp_l. f_equal. lia.
Qed.

Lemma add_count_ok c elt c' :
  add elt c = Done c' → members c !! elt = None → count_ok c → count_ok c'.
Proof.
  intros Hadd Hm Hc. destruct (add_inv _ _ _ Hadd) as (_ & _ & _ & _ & Hm' & Hcnt).
  unfold count_ok in *. rewrite Hcnt, Hm', Hc, int64_wrap_add_l.
  rewrite map_size_insert_None by done. f_equal. lia.
Qed.

Lemma remove_count_ok c elt c' :
  remove elt c = Done c' → is_Some (members c !! elt) → count_ok c → count_ok c'.
Proof.
  intros Hrm Hm Hc. destruct (remove_inv _ _ _ Hrm) as (_ & _ & _ & _ & Hm' & Hcnt).
  unfold count_ok in *.
  replace (count c - 1) with (count c + -1) in Hcnt by lia.
  rewrite Hcnt, Hm', Hc, int64_wrap_add_l.
  rewrite map_size_delete_Some by done.
  assert (size (members c) ≠ 0%nat) as Hsz.
  { destruct Hm as [b Hb]. intros H0%map_size_empty_inv. by rewrite H0 in Hb. }
  f_equal. lia.
Qed.

Lemma Set_remove_failed elts (r : outcome Consistent) ks c :
  (∀ c0, r ≠ Done c0) → foldl (Set_remove elts) r ks ≠ Done c.
Proof.
  revert r. induction ks as [|k ks IH]; intros r Hr; simpl; [by apply Hr|].
  apply IH. intros c0. destruct r; [by destruct (Hr a)|done..].
Qed.

Lemma Set_add_failed (r : outcome Consistent) elts c :
  (∀ c0, r ≠ Done c0) → foldl Set_add r elts ≠ Done c.
Proof.
  revert r. induction elts as [|v elts IH]; intros r Hr; simpl; [by apply Hr|].
  apply IH. intros c0. destruct r; [by destruct (Hr a)|done..].
Qed.

Lemma Set_removes_count_ok elts ks : ∀ c c1,
  NoDup ks → (∀ k, k ∈ ks → is_Some (members c !! k)) → count_ok c →
  foldl (Set_remove elts) (Done c) ks = Done c1 → count_ok c1.
Proof.
  induction ks as [|k ks IH]; intros c c1 Hnd Hks Hc Hfold; simpl in Hfold.
  - by simplify_eq.
  - apply NoDup_cons in Hnd as [Hk Hnd].
    destruct (existsb _ elts); cbn [negb] in Hfold.
    + eapply IH; [done| |done|done]. intros k' Hk'. apply Hks. by right.
    + destruct (remove k c) as [c2| |] eqn:Hrm;
        [|by apply Set_remove_failed in Hfold..].
      eapply (IH c2); [done| | |done].
      * intros k' Hk'. destruct (remove_inv _ _ _ Hrm) as (_ & _ & _ & _ & -> & _).
        rewrite lookup_delete_ne by (by intros ->). apply Hks. by right.
      * eapply remove_count_ok; [done| |done]. apply Hks. by left.
Qed.

Lemma Set_adds_count_ok elts : ∀ c c',
  count_ok c → foldl Set_add (Done c) elts = Done c' → count_ok c'.
Proof.
  induction elts as [|v elts IH]; intros c c' Hc Hfold; simpl in Hfold.
  - by simplify_eq.
  - case_bool_decide as Hv; [by eapply IH|].
    destruct (add v c) as [c2| |] eqn:Hadd; [|by apply Set_add_failed in Hfold..].
    eapply (IH c2); [|done]. eapply add_count_ok; [done| |done].
    destruct (members c !! v) eqn:Hmv; [|done]. destruct Hv. eauto.
Qed.

Lemma Set_count_ok elts c c' :
  Set_ elts c = Done c' → count_ok c → count_ok c'.
Proof.
  unfold Set_, Set_ordered. intros Hset Hc.
  destruct (foldl (Set_remove elts) (Done c) (map_to_list (members c)).*1)
    as [c1| |] eqn:Hrm; [|by apply Set_add_failed in Hset..].
  eapply Set_adds_count_ok; [|done].
  eapply (Set_removes_count_ok elts (map_to_list (members c)).*1 c c1);
    [apply NoDup_fst_map_to_list| |done|done].
  intros k ([k' b] & -> & Hin)%list_elem_of_fmap.
  apply elem_of_map_to_list in Hin. eauto.
Qed.

(** Under intended use [count] is the number of members. *)
Lemma intended_run_count ms c : intended_run ms c → run ms = Done c ∧ count_ok c.
Proof.
  induction 1 as [|ms c m c' Hrun [IHrun IHc] Hm Happ].
  - split; [done|]. unfold count_ok. simpl. by rewrite map_size_empty.
  - split.
    + unfold run in *. rewrite foldl_app. simpl. by rewrite IHrun.
    + destruct m as [elt|elt|elts]; simpl in *.
      * by eapply add_count_ok.
      * by eapply remove_count_ok.
      * by eapply Set_count_ok.
Qed.

(** ** [Get] *)

Lemma size_circle_eqb c : (size (circle c) =? 0)%nat = bool_decide (circle c = ∅).
Proof.
  destruct (Nat.eqb_spec (size (circle c)) 0) as [H|H].
  - by rewrite bool_decide_eq_true_2 by by apply map_size_empty_inv.
  - rewrite bool_decide_eq_false_2; [done|].
    intros Hc. apply H. by apply map_size_empty_iff.
Qed.

Lemma wf_nonempty c : wf c → circle c ≠ ∅ → sortedHashes c ≠ [].
Proof.
  intros Hwf Hne Hnil. apply Hne, map_size_empty_inv.
  by rewrite <- wf_length, Hnil.
Qed.

Lemma wf_occupant c p : wf c → p ∈ sortedHashes c → circle c !! p = Some (occupant c p).
Proof.
  intros Hwf Hp. apply (wf_elem_of c p Hwf) in Hp as [e He].
  unfold occupant. by rewrite He.
Qed.

Lemma Get_empty c name :
  circle c = ∅ → Get c name = Done ("", Some ErrEmptyCircle).
Proof. intros H. unfold Get. by rewrite size_circle_eqb, bool_decide_eq_true_2. Qed.

(** On a populated ring [Get] returns the occupant of the successor of the
    key's hash. *)
Lemma Get_successor c name :
  wf c → circle c ≠ ∅ →
  ∃ p, sortedHashes c !! search c (hashKey c name) = Some p
       ∧ successor (sortedHashes c) (hashKey c name) p
       ∧ Get c name = Done (occupant c p, None).
Proof.
  intros Hwf Hne.
  destruct (search_successor c (hashKey c name)) as (p & Hp & Hsucc);
    [by apply wf_sorted | by apply wf_nonempty |].
  exists p. repeat split; try done; try apply Hsucc.
  unfold Get, at_index. rewrite size_circle_eqb, bool_decide_eq_false_2 by done.
  by rewrite Hp.
Qed.

(** [Get] fails exactly on a ring without positions. *)
Lemma Get_error c name a e :
  Get c name = Done (a, Some e) → circle c = ∅.
Proof.
  unfold Get. rewrite size_circle_eqb. case_bool_decide; [done|].
  destruct (at_index c _); simpl; intros; simplify_eq.
Qed.

(** A ring built from [New] has positions as soon as it has none without
    members: no member, no position. *)
Lemma inv_members_empty c : inv c → members c = ∅ → circle c = ∅.
Proof.
  intros [_ _ Hown] Hm. apply map_empty. intros h.
  destruct (circle c !! h) as [e|] eqn:He; [|done].
  destruct (Hown h e He) as [[b Hb] _]. by rewrite Hm, lookup_empty in Hb.
Qed.

(** Removing a node whose replica positions are free or its own leaves
    the successor of every key served by another node in place. *)
Lemma remove_keeps_position c C c' p :
  remove C c = Done c' →
  circle c !! p = Some (occupant c p) → occupant c p ≠ C →
  Forall (λ h, circle c !! h = None ∨ circle c !! h = Some C) (replicaHashes c C) →
  circle c' !! p = Some (occupant c p).
Proof.
  intros Hrm Hp HC Hfree.
  destruct (remove_inv _ _ _ Hrm) as (_ & _ & _ & -> & _).
  rewrite lookup_foldl_delete. rewrite decide_False; [done|].
  intros Hin. rewrite Forall_forall in Hfree.
  destruct (Hfree p Hin) as [H|H]; rewrite H in Hp; congruence.
Qed.

Lemma remove_circle_subseteq c C c' h :
  remove C c = Done c' → is_Some (circle c' !! h) → is_Some (circle c !! h).
Proof.
  intros Hrm. destruct (remove_inv _ _ _ Hrm) as (_ & _ & _ & -> & _).
  rewrite lookup_foldl_delete. case_decide; [by intros [? ?]|done].
Qed.

(** ** The walk of [GetTwo] *)

Lemma at_index_Some c i h :
  sortedHashes c !! i = Some h → at_index c i = Done (occupant c h).
Proof. unfold at_index. by intros ->. Qed.

Lemma owners_lookup c i h :
  sortedHashes c !! i = Some h → occupant c h ∈ owners c.
Proof.
  intros Hi. unfold owners. apply list_elem_of_fmap_2.
  by eapply list_elem_of_lookup_2.
Qed.

Lemma distinctNodes_other c a :
  (1 < length (distinctNodes c))%nat →
  ∃ j hj, sortedHashes c !! j = Some hj ∧ occupant c hj ≠ a.
Proof.
  unfold distinctNodes. intros Hlen.
  destruct (decide (Forall (λ x, x = a) (owners c))) as [Hall|Hex].
  - exfalso.
    assert (remove_dups (owners c) ⊆+ [a]) as Hsub.
    { apply NoDup_submseteq; [apply NoDup_remove_dups|].
      intros x Hx. rewrite elem_of_remove_dups in Hx.
      rewrite Forall_forall in Hall. rewrite (Hall x Hx). by left. }
    apply submseteq_length in Hsub. simpl in Hsub. lia.
  - apply not_Forall_Exists in Hex; [|apply _].
    apply Exists_exists in Hex as (x & Hx & Hne).
    unfold owners in Hx. apply list_elem_of_fmap in Hx as (h & -> & Hh).
    apply list_elem_of_lookup in Hh as [j Hj]. eauto.
Qed.

Lemma distinctNodes_single c a x :
  length (distinctNodes c) = 1%nat → a ∈ owners c → x ∈ owners c → x = a.
Proof.
  unfold distinctNodes. intros Hlen Ha Hx.
  rewrite <- elem_of_remove_dups in Ha, Hx.
  destruct (remove_dups (owners c)) as [|y [|z l]]; simplify_eq/=.
  apply list_elem_of_singleton in Ha, Hx. congruence.
Qed.

Lemma distinctNodes_pos c a : a ∈ owners c → (1 ≤ length (distinctNodes c))%nat.
Proof.
  unfold distinctNodes. intros Ha. rewrite <- elem_of_remove_dups in Ha.
  destruct (remove_dups (owners c)); [by apply elem_of_nil in Ha | simpl; lia].
Qed.

Section walks.
Variable c : Consistent.
Hypothesis Hwf : wf c.

(** Walking on from [i] without passing [start] reaches a position [j]
    held by another node than [a], unless an earlier one stops the walk. *)
Lemma GetTwo_loop_find a start j hj :
  sortedHashes c !! j = Some hj → occupant c hj ≠ a →
  ∀ fuel i b, (i ≤ j)%nat → (j < start ∨ start < i)%nat → (j - i < fuel)%nat →
  ∃ b', GetTwo_loop fuel c a start i b = Done b' ∧ b' ≠ a ∧ b' ∈ owners c.
Proof.
  intros Hj Hne. pose proof (lookup_lt_Some _ _ _ Hj) as Hjlen.
  induction fuel as [|fuel IH]; intros i b Hij Hstart Hfuel; [lia|].
  cbn [GetTwo_loop].
  destruct (Nat.eqb_spec i start) as [->|_]; [lia|].
  rewrite <- (wf_length c Hwf).
  destruct (Nat.leb_spec (length (sortedHashes c)) i) as [Hge|_]; [lia|].
  destruct (lookup_lt_is_Some_2 (sortedHashes c) i) as [hi Hi]; [lia|].
  rewrite (at_index_Some c i hi Hi). cbn [mbind outcome_bind].
  case_bool_decide as Hb.
  - eexists. split; [done|]. split; [done|]. by eapply owners_lookup.
  - assert (i ≠ j) by (intros ->; simplify_eq; by apply Hb).
    apply IH; lia.
Qed.

(** The same from the first lap into the second, through the wrap. *)
Lemma GetTwo_loop_wrap a start j hj :
  sortedHashes c !! j = Some hj → occupant c hj ≠ a → (j < start)%nat →
  ∀ fuel i b, (start < i ≤ length (sortedHashes c))%nat →
    (length (sortedHashes c) - i + j + 1 < fuel)%nat →
  ∃ b', GetTwo_loop fuel c a start i b = Done b' ∧ b' ≠ a ∧ b' ∈ owners c.
Proof.
  intros Hj Hne Hjs. pose proof (lookup_lt_Some _ _ _ Hj) as Hjlen.
  induction fuel as [|fuel IH]; intros i b Hi Hfuel; [lia|].
  cbn [GetTwo_loop].
  destruct (Nat.eqb_spec i start) as [->|_]; [lia|].
  rewrite <- (wf_length c Hwf).
  destruct (Nat.leb_spec (length (sortedHashes c)) i) as [Hge|Hlt].
  - destruct (lookup_lt_is_Some_2 (sortedHashes c) 0) as [h0 H0]; [lia|].
    rewrite (at_index_Some c 0 h0 H0). cbn [mbind outcome_bind].
    case_bool_decide as Hb.
    + eexists. split; [done|]. split; [done|]. by eapply owners_lookup.
    + assert (j ≠ 0)%nat by (intros ->; simplify_eq; by apply Hb).
      apply (GetTwo_loop_find a start j hj Hj Hne); lia.
  - destruct (lookup_lt_is_Some_2 (sortedHashes c) i) as [hi Hi']; [lia|].
    rewrite (at_index_Some c i hi Hi'). cbn [mbind outcome_bind].
    case_bool_decide as Hb.
    + eexists. split; [done|]. split; [done|]. by eapply owners_lookup.
    + apply IH; lia.
Qed.

Lemma GetTwo_loop_differs a start hs fuel :
  sortedHashes c !! start = Some hs → occupant c hs = a →
  (1 < length (distinctNodes c))%nat →
  (length (sortedHashes c) ≤ fuel)%nat →
  ∃ b, GetTwo_loop fuel c a start (start + 1) "" = Done b ∧ b ≠ a ∧ b ∈ owners c.
Proof.
  intros Hs Ha Hd Hfuel. pose proof (lookup_lt_Some _ _ _ Hs) as Hslen.
  destruct (distinctNodes_other c a Hd) as (j & hj & Hj & Hne).
  pose proof (lookup_lt_Some _ _ _ Hj) as Hjlen.
  assert (j ≠ start) by (intros ->; simplify_eq).
  destruct (Nat.lt_ge_cases j start) as [Hlt|Hge].
  - apply (GetTwo_loop_wrap a start j hj Hj Hne Hlt); lia.
  - apply (GetTwo_loop_find a start j hj Hj Hne); lia.
Qed.
End walks.

(** ** The walk of [GetN] *)

Lemma sliceContainsMember_spec set member :
  sliceContainsMember set member = bool_decide (member ∈ set).
Proof.
  induction set as [|m set IH]; cbn [sliceContainsMember].
  - symmetry. apply bool_decide_eq_false_2, not_elem_of_nil.
  - destruct (decide (member = m)) as [->|Hne].
    + rewrite (bool_decide_eq_true_2 (m = m)) by done.
      symmetry. apply bool_decide_eq_true_2. by left.
    + rewrite (bool_decide_eq_false_2 (member = m)) by done.
      rewrite IH. apply bool_decide_ext. rewrite elem_of_cons.
      split; [by right | by intros [?|?]].
Qed.

Lemma visit_prefix res e : res `prefix_of` visit res e.
Proof.
  unfold visit. destruct (sliceContainsMember res e); [done|]. by apply prefix_app_r.
Qed.

Lemma visit_length res e :
  (length res ≤ length (visit res e) ≤ S (length res))%nat.
Proof.
  unfold visit. destruct (sliceContainsMember res e); [lia|].
  rewrite length_app. simpl. lia.
Qed.

Lemma visit_collected c V res k h :
  collected c V res → sortedHashes c !! k = Some h →
  collected c (λ k', V k' ∨ k' = k) (visit res (occupant c h)).
Proof.
  intros (Hnd & Hsub & Hcov) Hk. unfold visit. rewrite sliceContainsMember_spec.
  case_bool_decide as Hin.
  - split; [done|]. split; [done|]. intros k' h' [HV| ->] Hk'; [eauto|].
    by simplify_eq.
  - split; [|split].
    + apply NoDup_app. split; [done|]. split; [|apply NoDup_singleton].
      intros x Hx ->%list_elem_of_singleton. done.
    + intros x [Hx| ->%list_elem_of_singleton]%elem_of_app; [auto|].
      by eapply owners_lookup.
    + intros k' h' [HV| ->] Hk'; apply elem_of_app; [left; eauto|right].
      simplify_eq. by left.
Qed.

Lemma collected_weaken c V V' res :
  collected c V res →
  (∀ k, (k < length (sortedHashes c))%nat → V' k → V k) →
  collected c V' res.
Proof.
  intros (Hnd & Hsub & Hcov) HV. split; [done|]. split; [done|].
  intros k h Hk Hh. eapply Hcov; [|done]. apply HV; [|done].
  by eapply lookup_lt_Some.
Qed.

(** Once every position has been looked at, all distinct nodes are in. *)
Lemma collected_all c V res :
  collected c V res →
  (∀ k, (k < length (sortedHashes c))%nat → V k) →
  (length (distinctNodes c) ≤ length res)%nat.
Proof.
  intros (Hnd & Hsub & Hcov) Hall. apply submseteq_length.
  apply NoDup_submseteq; [apply NoDup_remove_dups|].
  intros x Hx. unfold distinctNodes in Hx.
  rewrite elem_of_remove_dups in Hx. unfold owners in Hx.
  apply list_elem_of_fmap in Hx as (h & -> & Hh).
  apply list_elem_of_lookup in Hh as [k Hk].
  eapply Hcov; [|done]. apply Hall. by eapply lookup_lt_Some.
Qed.

Section walkN.
Variable c : Consistent.
Hypothesis Hwf : wf c.
Variable n : Z.
Variable start : nat.
Hypothesis Hstart : (start < length (sortedHashes c))%nat.
Hypothesis Hn : n ≤ Z.of_nat (length (distinctNodes c)).

Lemma GetN_loop_step fuel i res k h :
  i ≠ start →
  (if (length (sortedHashes c) <=? i)%nat then 0%nat else i) = k →
  sortedHashes c !! k = Some h →
  GetN_loop (S fuel) c n start i res =
    if Z.of_nat (length (visit res (occupant c h))) =? n
    then Done (visit res (occupant c h))
    else GetN_loop fuel c n start (k + 1) (visit res (occupant c h)).
Proof.
  intros Hi Hk Hh. cbn [GetN_loop].
  destruct (Nat.eqb_spec i start) as [?|_]; [done|].
  rewrite Hk, (at_index_Some c k h Hh). done.
Qed.

(** One turn of the walk at position [k]: either [n] nodes are in and the
    walk returns, or it goes on from [k + 1] with [k] looked at. *)
Lemma GetN_loop_visit fuel i res k h (V : nat → Prop) :
  i ≠ start →
  (if (length (sortedHashes c) <=? i)%nat then 0%nat else i) = k →
  sortedHashes c !! k = Some h →
  collected c V res → Z.of_nat (length res) < n →
  (∀ res1, collected c (λ k', V k' ∨ k' = k) res1 → Z.of_nat (length res1) < n →
     ∃ res', GetN_loop fuel c n start (k + 1) res1 = Done res'
             ∧ walk_result c n res1 res') →
  ∃ res', GetN_loop (S fuel) c n start i res = Done res' ∧ walk_result c n res res'.
Proof.
  intros Hi Hk Hh Hcol Hlen Hnext.
  rewrite (GetN_loop_step fuel i res k h Hi Hk Hh).
  pose proof (visit_length res (occupant c h)) as Hvl.
  pose proof (visit_collected c V res k h Hcol Hh) as Hcol'.
  destruct (Z.eqb_spec (Z.of_nat (length (visit res (occupant c h)))) n) as [Heq|Hneq].
  - eexists. split; [done|]. destruct Hcol' as (? & ? & _).
    split; [done|]. split; [done|]. split; [done|]. apply visit_prefix.
  - destruct (Hnext _ Hcol') as (res' & Hres & Hpost); [lia|].
    exists res'. split; [done|]. destruct Hpost as (? & ? & ? & Hpre).
    repeat split; try done. etrans; [apply visit_prefix|done].
Qed.

(** Second lap: positions [0 .. start-1]. *)
Lemma GetN_loop_second_lap : ∀ fuel i res,
  (1 ≤ i ≤ start)%nat → (start - i < fuel)%nat →
  collected c (λ k, start ≤ k ∨ k < i)%nat res →
  Z.of_nat (length res) < n →
  ∃ res', GetN_loop fuel c n start i res = Done res' ∧ walk_result c n res res'.
Proof.
  induction fuel as [|fuel IH]; intros i res Hi Hfuel Hcol Hlen; [lia|].
  destruct (decide (i = start)) as [->|Hne].
  { pose proof (collected_all c _ res Hcol) as Hall.
    specialize (Hall ltac:(intros; simpl; lia)). lia. }
  destruct (lookup_lt_is_Some_2 (sortedHashes c) i) as [h Hh]; [lia|].
  eapply (GetN_loop_visit fuel i res i h); [done| |done|done|done|].
  { destruct (Nat.leb_spec (length (sortedHashes c)) i); [lia|done]. }
  intros res1 Hcol1 Hlen1. apply IH; [lia|lia| |done].
  eapply collected_weaken; [exact Hcol1|]. intros k _ Hk. simpl. lia.
Qed.

(** First lap: positions [start+1 .. len-1], then the wrap to 0. *)
Lemma GetN_loop_first_lap : ∀ fuel i res,
  (start < i ≤ length (sortedHashes c))%nat →
  (length (sortedHashes c) - i + start + 1 < fuel)%nat →
  collected c (λ k, start ≤ k < i)%nat res →
  Z.of_nat (length res) < n →
  ∃ res', GetN_loop fuel c n start i res = Done res' ∧ walk_result c n res res'.
Proof.
  induction fuel as [|fuel IH]; intros i res Hi Hfuel Hcol Hlen; [lia|].
  destruct (Nat.leb_spec (length (sortedHashes c)) i) as [Hge|Hlt].
  - destruct (decide (start = 0%nat)) as [Hs0|Hs0].
    { pose proof (collected_all c _ res Hcol) as Hall.
      specialize (Hall ltac:(intros; simpl; lia)). lia. }
    destruct (lookup_lt_is_Some_2 (sortedHashes c) 0) as [h Hh]; [lia|].
    eapply (GetN_loop_visit fuel i res 0%nat h); [lia| |done|done|done|].
    { destruct (Nat.leb_spec (length (sortedHashes c)) i); [done|lia]. }
    intros res1 Hcol1 Hlen1. apply GetN_loop_second_lap; [lia|lia| |done].
    eapply collected_weaken; [exact Hcol1|]. intros k Hk Hk'. simpl. lia.
  - destruct (lookup_lt_is_Some_2 (sortedHashes c) i) as [h Hh]; [lia|].
    eapply (GetN_loop_visit fuel i res i h); [lia| |done|done|done|].
    { destruct (Nat.leb_spec (length (sortedHashes c)) i); [lia|done]. }
    intros res1 Hcol1 Hlen1. apply IH; [lia|lia| |done].
    eapply collected_weaken; [exact Hcol1|]. intros k _ Hk. simpl. lia.
Qed.
End walkN.

(** * The generic ring: lemmas *)

(** ** [sort.Search] with [>=] on a sorted slice *)

Lemma searchKeys_spec (ks : list Z) (hash : Z) :
  StronglySorted Z.le ks →
  (CH.searchKeys ks hash ≤ length ks)%nat ∧
  ∀ j q, ks !! j = Some q →
    ((j < CH.searchKeys ks hash)%nat → q < hash) ∧
    ((CH.searchKeys ks hash ≤ j)%nat → hash ≤ q).
Proof.
  intros Hs. unfold CH.searchKeys.
  set (f := λ i : nat, default 0 (ks !! i) >=? hash).
  destruct (Search_spec f (length ks)) as (Hle & Hlo & Hhi).
  { intros a b Hab. unfold f.
    destruct (lookup_lt_is_Some_2 ks a) as [x Hx]; [lia|].
    destruct (lookup_lt_is_Some_2 ks b) as [y Hy]; [lia|].
    rewrite Hx, Hy. simpl. intros Hax.
    pose proof (StronglySorted_lookup_le ks a b x y Hs Hx Hy). lia. }
  split; [done|]. intros j q Hj. pose proof (lookup_lt_Some _ _ _ Hj). split; intros Hji.
  - specialize (Hlo j Hji). unfold f in Hlo. rewrite Hj in Hlo. simpl in Hlo. lia.
  - specialize (Hhi j ltac:(lia)). unfold f in Hhi. rewrite Hj in Hhi. simpl in Hhi. lia.
Qed.

(** A present hash is found at the index returned. *)
Lemma searchKeys_found (ks : list Z) (hash : Z) :
  StronglySorted Z.le ks → hash ∈ ks → ks !! CH.searchKeys ks hash = Some hash.
Proof.
  intros Hs Hin. destruct (searchKeys_spec ks hash Hs) as [Hle Hspec].
  apply list_elem_of_lookup in Hin as [j Hj].
  destruct (Nat.lt_ge_cases j (CH.searchKeys ks hash)) as [Hlt|Hge].
  { destruct (Hspec j hash Hj) as [H _]. specialize (H Hlt). lia. }
  pose proof (lookup_lt_Some _ _ _ Hj).
  destruct (lookup_lt_is_Some_2 ks (CH.searchKeys ks hash)) as [p Hp]; [lia|].
  destruct (Hspec _ p Hp) as [_ Hhp]. specialize (Hhp ltac:(lia)).
  pose proof (StronglySorted_lookup_le ks _ j p hash Hs Hp Hj Hge).
  rewrite Hp. f_equal. lia.
Qed.

(** A property kept by every turn of a loop holds after the loop. *)
Lemma foldl_preserves {A B} (P : A → Prop) (f : A → B → A) (l : list B) (a : A) :
  (∀ a x, P a → P (f a x)) → P a → P (foldl f a l).
Proof. intros Hf. revert a. induction l; simpl; auto. Qed.

(** ** Sortedness of [keys] *)

Lemma StronglySorted_excise (l : list Z) (i : nat) :
  StronglySorted Z.le l → StronglySorted Z.le (take i l ++ drop (i + 1) l).
Proof.
  intros Hs. rewrite <- (take_drop i l) in Hs.
  apply StronglySorted_app in Hs as (H12 & H1 & H2).
  apply StronglySorted_app. rewrite <- (drop_drop l 1 i).
  destruct (drop i l) as [|x l'] eqn:Hd; simpl.
  - split; [|split; [done|constructor]]. by intros ? ? ? ?%elem_of_nil.
  - rewrite drop_0. apply StronglySorted_inv in H2 as [H2 _].
    split; [|by split]. intros x1 x2 Hx1 Hx2. apply H12; [done|]. by right.
Qed.

Lemma removeRingNode_keys hash nodeRepr h :
  CH.keys (CH.removeRingNode hash nodeRepr h) = CH.keys h.
Proof. unfold CH.removeRingNode. by destruct (CH.ring h !! hash). Qed.

Lemma removeRingNode_nodes hash nodeRepr h :
  CH.nodes (CH.removeRingNode hash nodeRepr h) = CH.nodes h.
Proof. unfold CH.removeRingNode. by destruct (CH.ring h !! hash). Qed.

Lemma removeRingNode_consts hash nodeRepr h :
  CH.hashFunc (CH.removeRingNode hash nodeRepr h) = CH.hashFunc h ∧
  CH.replicas (CH.removeRingNode hash nodeRepr h) = CH.replicas h.
Proof. unfold CH.removeRingNode. by destruct (CH.ring h !! hash). Qed.

Lemma Remove_step_sorted nodeRepr h i :
  StronglySorted Z.le (CH.keys h) →
  StronglySorted Z.le (CH.keys (CH.Remove_step nodeRepr h i)).
Proof.
  intros Hs. unfold CH.Remove_step. rewrite removeRingNode_keys. simpl.
  destruct (_ <? _)%nat; [by apply StronglySorted_excise | done].
Qed.

Lemma Remove_sorted n h :
  StronglySorted Z.le (CH.keys h) → StronglySorted Z.le (CH.keys (CH.Remove n h)).
Proof.
  intros Hs. unfold CH.Remove. destruct (negb _); [done|].
  apply foldl_preserves; [|done]. intros h' i. apply Remove_step_sorted.
Qed.

Lemma AddWithReplicas_sorted n r h :
  StronglySorted Z.le (CH.keys (CH.AddWithReplicas n r h)).
Proof. unfold CH.AddWithReplicas. simpl. apply sort_asc_sorted. Qed.

Lemma apply_op_sorted h o :
  StronglySorted Z.le (CH.keys h) → StronglySorted Z.le (CH.keys (CH.apply_op h o)).
Proof.
  destruct o; simpl; intros Hs;
    [apply AddWithReplicas_sorted.. | by apply Remove_sorted].
Qed.

Lemma run_sorted h ops :
  StronglySorted Z.le (CH.keys h) → StronglySorted Z.le (CH.keys (CH.run h ops)).
Proof.
  revert h. induction ops as [|o ops IH]; intros h Hs; [done|].
  simpl. by apply IH, apply_op_sorted.
Qed.

(** ** Occupants and the registered set *)

Lemma removeRingNode_lookup hash nodeRepr h k :
  CH.ring (CH.removeRingNode hash nodeRepr h) !! k =
    if decide (k = hash) then
      match CH.ring h !! hash with
      | Some l =>
          if decide (filter (λ x, CH.repr x ≠ nodeRepr) l = []) then None
          else Some (filter (λ x, CH.repr x ≠ nodeRepr) l)
      | None => None
      end
    else CH.ring h !! k.
Proof.
  unfold CH.removeRingNode.
  destruct (CH.ring h !! hash) as [l|] eqn:Hl.
  - simpl. destruct (filter _ l) as [|y l'] eqn:Hf; simpl.
    + destruct (decide (k = hash)) as [->|Hne];
        [by rewrite lookup_delete_eq | by rewrite lookup_delete_ne].
    + destruct (decide (k = hash)) as [->|Hne];
        [by rewrite lookup_insert_eq | by rewrite lookup_insert_ne].
  - destruct (decide (k = hash)) as [->|Hne]; done.
Qed.

Lemma removeRingNode_registered hash nodeRepr h :
  registered_ring h → registered_ring (CH.removeRingNode hash nodeRepr h).
Proof.
  intros Hreg k l. rewrite removeRingNode_lookup, removeRingNode_nodes.
  destruct (decide (k = hash)) as [->|Hne]; [|apply Hreg].
  destruct (CH.ring h !! hash) as [l0|] eqn:Hl0; [|done].
  case_decide as Hf; [done|]. intros [= <-]. split; [done|].
  intros x [_ Hx]%list_elem_of_filter. by eapply Hreg.
Qed.

Lemma Remove_step_registered nodeRepr h i :
  registered_ring h → registered_ring (CH.Remove_step nodeRepr h i).
Proof.
  intros Hreg. unfold CH.Remove_step. by apply removeRingNode_registered.
Qed.

Lemma Remove_step_nodes nodeRepr h i :
  CH.nodes (CH.Remove_step nodeRepr h i) = CH.nodes h.
Proof. unfold CH.Remove_step. by rewrite removeRingNode_nodes. Qed.

Lemma Remove_step_consts nodeRepr h i :
  CH.hashFunc (CH.Remove_step nodeRepr h i) = CH.hashFunc h ∧
  CH.replicas (CH.Remove_step nodeRepr h i) = CH.replicas h.
Proof.
  unfold CH.Remove_step.
  match goal with |- context [CH.removeRingNode ?a ?b ?h'] =>
    destruct (removeRingNode_consts a b h') as [-> ->] end.
  done.
Qed.

Lemma Remove_registered n h :
  registered_ring h → registered_ring (CH.Remove n h).
Proof.
  intros Hreg. unfold CH.Remove. destruct (negb _); [done|].
  apply foldl_preserves; [|done]. intros h' i. apply Remove_step_registered.
Qed.

Lemma Remove_nodes n h : CH.nodes (CH.Remove n h) = CH.nodes h.
Proof.
  unfold CH.Remove. destruct (negb _); [done|].
  apply (foldl_preserves (λ h', CH.nodes h' = CH.nodes h)); [|done].
  intros h' i <-. apply Remove_step_nodes.
Qed.

Lemma Remove_consts n h :
  CH.hashFunc (CH.Remove n h) = CH.hashFunc h ∧
  CH.replicas (CH.Remove n h) = CH.replicas h.
Proof.
  unfold CH.Remove. destruct (negb _); [done|].
  apply (foldl_preserves (λ h', CH.hashFunc h' = CH.hashFunc h ∧
                                CH.replicas h' = CH.replicas h)); [|done].
  intros h' i [<- <-]. apply Remove_step_consts.
Qed.

Lemma Add_step_lookup n nodeRepr h i k :
  CH.ring (CH.Add_step n nodeRepr h i) !! k =
    if decide (k = CH.hash h (nodeRepr +:+ Itoa i))
    then Some (default [] (CH.ring h !! k) ++ [n])
    else CH.ring h !! k.
Proof.
  unfold CH.Add_step. simpl. case_decide as Hk.
  - subst k. by rewrite lookup_insert_eq.
  - by rewrite lookup_insert_ne.
Qed.

Lemma Add_step_registered n h i :
  CH.repr n ∈ CH.nodes h → registered_ring h →
  registered_ring (CH.Add_step n (CH.repr n) h i).
Proof.
  intros Hn Hreg k l. rewrite Add_step_lookup. case_decide as Hk; [|apply Hreg].
  intros [= <-]. split; [by destruct (default _ _)|].
  intros x [Hx| ->%list_elem_of_singleton]%elem_of_app; [|done].
  destruct (CH.ring h !! k) as [l0|] eqn:Hl0; simpl in Hx; [|by apply elem_of_nil in Hx].
  by eapply Hreg.
Qed.

Lemma AddWithReplicas_nodes n r h :
  CH.nodes (CH.AddWithReplicas n r h) = {[CH.repr n]} ∪ CH.nodes h.
Proof.
  unfold CH.AddWithReplicas. cbn [CH.nodes].
  apply (foldl_preserves (λ h', CH.nodes h' = {[CH.repr n]} ∪ CH.nodes h)).
  - by intros h' i <-.
  - simpl. by rewrite Remove_nodes.
Qed.

Lemma AddWithReplicas_consts n r h :
  CH.hashFunc (CH.AddWithReplicas n r h) = CH.hashFunc h ∧
  CH.replicas (CH.AddWithReplicas n r h) = CH.replicas h.
Proof.
  unfold CH.AddWithReplicas. cbn [CH.hashFunc CH.replicas].
  apply (foldl_preserves (λ h', CH.hashFunc h' = CH.hashFunc h ∧
                                CH.replicas h' = CH.replicas h)).
  - by intros h' i [<- <-].
  - simpl. apply Remove_consts.
Qed.

Lemma AddWithReplicas_registered n r h :
  registered_ring h → registered_ring (CH.AddWithReplicas n r h).
Proof.
  intros Hreg. unfold CH.AddWithReplicas.
  match goal with |- registered_ring {| CH.ring := CH.ring ?h'; CH.nodes := CH.nodes ?h' |} =>
    assert (registered_ring h' ∧ CH.repr n ∈ CH.nodes h') as [Hreg' _];
      [|intros k l; apply Hreg'] end.
  apply (foldl_preserves (λ h', registered_ring h' ∧ CH.repr n ∈ CH.nodes h')).
  - intros h' i [Hr Hn]. split; [by apply Add_step_registered|done].
  - split.
    + intros k l Hl. simpl in *. destruct (Remove_registered n h Hreg k l Hl) as [? Hin].
      split; [done|]. intros x Hx. apply elem_of_union_r. auto.
    + simpl. by apply elem_of_union_l, elem_of_singleton.
Qed.

Lemma apply_op_registered h o :
  registered_ring h → registered_ring (CH.apply_op h o).
Proof.
  destruct o; simpl; intros Hreg;
    [by apply AddWithReplicas_registered.. | by apply Remove_registered].
Qed.

Lemma apply_op_consts h o :
  CH.hashFunc (CH.apply_op h o) = CH.hashFunc h ∧
  CH.replicas (CH.apply_op h o) = CH.replicas h.
Proof.
  destruct o; simpl; [apply AddWithReplicas_consts.. | apply Remove_consts].
Qed.

Lemma run_registered h ops :
  registered_ring h → registered_ring (CH.run h ops).
Proof. apply foldl_preserves. intros. by apply apply_op_registered. Qed.

Lemma run_consts h ops :
  CH.hashFunc (CH.run h ops) = CH.hashFunc h ∧
  CH.replicas (CH.run h ops) = CH.replicas h.
Proof.
  apply (foldl_preserves (λ h', CH.hashFunc h' = CH.hashFunc h ∧
                                CH.replicas h' = CH.replicas h)); [|done].
  intros h' o [<- <-]. apply apply_op_consts.
Qed.

Lemma run_app h ops1 ops2 :
  CH.run h (ops1 ++ ops2) = CH.run (CH.run h ops1) ops2.
Proof. apply foldl_app. Qed.

Lemma New_registered Hash r fn :
  registered_ring (CH.NewCustomConsistentHash Hash r fn).
Proof. intros k l. simpl. by rewrite lookup_empty. Qed.

Lemma New_sorted Hash r fn :
  StronglySorted Z.le (CH.keys (CH.NewCustomConsistentHash Hash r fn)).
Proof. constructor. Qed.

Lemma New_replicas Hash r fn :
  CH.minReplica ≤ CH.replicas (CH.NewCustomConsistentHash Hash r fn).
Proof. simpl. destruct (Z.ltb_spec r CH.minReplica); lia. Qed.

Lemma registered_ring_empty h :
  registered_ring h → CH.nodes h = ∅ → CH.ring h = ∅.
Proof.
  intros Hreg Hn. apply map_empty. intros k.
  destruct (CH.ring h !! k) as [l|] eqn:Hl; [|done].
  destruct (Hreg k l Hl) as [Hne Hin]. destruct l as [|x l]; [done|].
  specialize (Hin x ltac:(by left)). rewrite Hn in Hin. by apply elem_of_empty in Hin.
Qed.

Lemma removeRingNode_has_replica hash nodeRepr h id :
  id ≠ nodeRepr → has_replica h id →
  has_replica (CH.removeRingNode hash nodeRepr h) id.
Proof.
  intros Hne (k & l & x & Hl & Hx & Hid).
  destruct (decide (k = hash)) as [->|Hk].
  - exists hash, (filter (λ x, CH.repr x ≠ nodeRepr) l), x.
    assert (x ∈ filter (λ x, CH.repr x ≠ nodeRepr) l) as Hxf.
    { apply list_elem_of_filter. split; [congruence|done]. }
    split; [|done]. rewrite removeRingNode_lookup, decide_True, Hl by done.
    rewrite decide_False; [done|]. intros Hnil. rewrite Hnil in Hxf.
    by apply elem_of_nil in Hxf.
  - exists k, l, x. split; [|done].
    by rewrite removeRingNode_lookup, decide_False.
Qed.

Lemma Remove_step_has_replica nodeRepr h i id :
  id ≠ nodeRepr → has_replica h id → has_replica (CH.Remove_step nodeRepr h i) id.
Proof.
  intros Hne Hhas. unfold CH.Remove_step.
  by apply removeRingNode_has_replica.
Qed.

Lemma Remove_has_replica n h id :
  id ≠ CH.repr n → has_replica h id → has_replica (CH.Remove n h) id.
Proof.
  intros Hne Hhas. unfold CH.Remove. destruct (negb _); [done|].
  apply foldl_preserves; [|done]. intros h' i. by apply Remove_step_has_replica.
Qed.

Lemma Add_step_has_replica n nodeRepr h i id :
  has_replica h id → has_replica (CH.Add_step n nodeRepr h i) id.
Proof.
  intros (k & l & x & Hl & Hx & Hid).
  destruct (decide (k = CH.hash h (nodeRepr +:+ Itoa i))) as [Hk|Hk].
  - exists k, (l ++ [n]), x. split; [|split; [|done]].
    + by rewrite Add_step_lookup, decide_True, Hl.
    + apply elem_of_app. by left.
  - exists k, l, x. split; [|done]. by rewrite Add_step_lookup, decide_False.
Qed.

Lemma Add_step_places n nodeRepr h i :
  has_replica (CH.Add_step n nodeRepr h i) (CH.repr n).
Proof.
  set (x := CH.hash h (nodeRepr +:+ Itoa i)).
  exists x, (default [] (CH.ring h !! x) ++ [n]), n.
  split; [|split; [|done]].
  - by rewrite Add_step_lookup, decide_True.
  - apply elem_of_app. right. by left.
Qed.

Lemma AddWithReplicas_has_replica n r h id :
  id ≠ CH.repr n → has_replica h id → has_replica (CH.AddWithReplicas n r h) id.
Proof.
  intros Hne Hhas. unfold CH.AddWithReplicas.
  match goal with |- has_replica {| CH.ring := CH.ring ?h' |} _ =>
    assert (has_replica h' id) as Hh'; [|exact Hh'] end.
  apply foldl_preserves; [intros; by apply Add_step_has_replica|].
  apply (Remove_has_replica n h id Hne) in Hhas.
  destruct Hhas as (k & l & x & ?). by exists k, l, x.
Qed.

Lemma AddWithReplicas_places n r h :
  1 ≤ r → 1 ≤ CH.replicas h →
  has_replica (CH.AddWithReplicas n r h) (CH.repr n).
Proof.
  intros Hr HR. unfold CH.AddWithReplicas.
  destruct (Remove_consts n h) as [_ ->].
  match goal with |- has_replica {| CH.ring := CH.ring ?h' |} _ =>
    assert (has_replica h' (CH.repr n)) as Hh'; [|exact Hh'] end.
  set (r' := if r >? CH.replicas h then CH.replicas h else r).
  assert (1 ≤ r') as Hr' by (unfold r'; destruct (r >? CH.replicas h); lia).
  replace r' with (Z.succ (r' - 1)) by lia.
  rewrite seqZ_cons by lia. cbn [foldl].
  apply foldl_preserves; [intros; by apply Add_step_has_replica|].
  apply Add_step_places.
Qed.

Lemma apply_op_has_replica h o id :
  id ≠ CH.repr (op_node o) → has_replica h id → has_replica (CH.apply_op h o) id.
Proof.
  destruct o; simpl; intros Hne Hhas;
    [by apply AddWithReplicas_has_replica.. | by apply Remove_has_replica].
Qed.

Lemma apply_op_places h o :
  1 ≤ op_replicas (CH.replicas h) o →
  has_replica (CH.apply_op h o) (CH.repr (op_node o)).
Proof.
  destruct o as [n|n r|n w|n]; simpl; intros Hr.
  - by apply AddWithReplicas_places.
  - apply AddWithReplicas_places; lia.
  - apply AddWithReplicas_places; lia.
  - lia.
Qed.

Lemma run_has_replica h ops id :
  Forall (λ o, id ≠ CH.repr (op_node o)) ops →
  has_replica h id → has_replica (CH.run h ops) id.
Proof.
  intros Hops. revert h. induction Hops as [|o ops Ho Hops IH]; intros h Hhas; [done|].
  simpl. by apply IH, apply_op_has_replica.
Qed.

Lemma has_replica_registered h id :
  registered_ring h → has_replica h id → id ∈ CH.nodes h.
Proof. intros Hreg (k & l & x & Hl & Hx & <-). by eapply Hreg. Qed.

(** ** Adding a node again *)

Lemma filter_idemp {A} (P : A → Prop) `{!∀ x, Decision (P x)} (l : list A) :
  filter P (filter P l) = filter P l.
Proof.
  induction l as [|x l IH]; [done|]. rewrite filter_cons.
  case_decide; [|done]. rewrite filter_cons, decide_True by done. by rewrite IH.
Qed.

Lemma filter_all {A} (P : A → Prop) `{!∀ x, Decision (P x)} (l : list A) :
  (∀ x, x ∈ l → P x) → filter P l = l.
Proof.
  induction l as [|x l IH]; intros Hall; [done|].
  rewrite filter_cons, decide_True by (apply Hall; by left).
  rewrite IH; [done|]. intros y Hy. apply Hall. by right.
Qed.

Lemma without_idemp id o : without id (without id o) = without id o.
Proof.
  destruct o as [l|]; [|done]. simpl. case_decide as Hf; [done|].
  simpl. rewrite filter_idemp. by rewrite decide_False.
Qed.

Lemma removeRingNode_without hash id h k :
  CH.ring (CH.removeRingNode hash id h) !! k =
    if decide (k = hash) then without id (CH.ring h !! hash) else CH.ring h !! k.
Proof. rewrite removeRingNode_lookup. by destruct (CH.ring h !! hash). Qed.

Lemma ConsistentHash_eq (h g : CH.ConsistentHash) :
  CH.hashFunc h = CH.hashFunc g → CH.replicas h = CH.replicas g →
  CH.keys h = CH.keys g → CH.ring h = CH.ring g → CH.nodes h = CH.nodes g →
  h = g.
Proof. destruct h, g. simpl. by intros -> -> -> -> ->. Qed.

Section readd.
Variable hf : CH.HashFunc.
Variable n : CH.node.

Lemma Remove_steps_ring js : ∀ h k,
  CH.hashFunc h = hf →
  CH.ring (foldl (CH.Remove_step (CH.repr n)) h js) !! k =
    if decide (k ∈ replicaKeys hf (CH.repr n) js)
    then without (CH.repr n) (CH.ring h !! k) else CH.ring h !! k.
Proof.
  induction js as [|j js IH]; intros h k Hhf; cbn [foldl].
  - by rewrite decide_False by apply not_elem_of_nil.
  - rewrite IH by (by destruct (Remove_step_consts (CH.repr n) h j) as [-> _]).
    unfold CH.Remove_step at 1 2. rewrite removeRingNode_without. cbn [CH.ring].
    unfold CH.hash. rewrite Hhf. unfold replicaKeys. rewrite fmap_cons.
    fold (replicaKeys hf (CH.repr n) js).
    set (x := uint64_wrap (hf (CH.repr n +:+ Itoa j))).
    destruct (decide (k = x)) as [->|Hne].
    + rewrite (decide_True (P := x ∈ x :: _)) by (by left).
      case_decide; [apply without_idemp | done].
    + destruct (decide (k ∈ replicaKeys hf (CH.repr n) js)) as [Hin|Hnin].
      * by rewrite decide_True by (by right).
      * by rewrite decide_False by (by apply not_elem_of_cons).
Qed.

Lemma Remove_steps_keys js : ∀ h K,
  CH.hashFunc h = hf → StronglySorted Z.le (CH.keys h) →
  CH.keys h ≡ₚ replicaKeys hf (CH.repr n) js ++ K →
  CH.keys (foldl (CH.Remove_step (CH.repr n)) h js) ≡ₚ K.
Proof.
  induction js as [|j js IH]; intros h K Hhf Hs Hperm; cbn [foldl]; [done|].
  apply IH.
  - by destruct (Remove_step_consts (CH.repr n) h j) as [-> _].
  - by apply Remove_step_sorted.
  - unfold CH.Remove_step. rewrite removeRingNode_keys. cbn [CH.keys].
    unfold CH.hash. rewrite Hhf.
    unfold replicaKeys in Hperm. rewrite fmap_cons in Hperm.
    fold (replicaKeys hf (CH.repr n) js) in Hperm.
    set (x := uint64_wrap (hf (CH.repr n +:+ Itoa j))) in *.
    assert (x ∈ CH.keys h) as Hx by (rewrite Hperm; by left).
    pose proof (searchKeys_found _ _ Hs Hx) as Hfound.
    pose proof (lookup_lt_Some _ _ _ Hfound) as Hlt.
    destruct (Nat.ltb_spec (CH.searchKeys (CH.keys h) x) (length (CH.keys h))); [|lia].
    replace (CH.searchKeys (CH.keys h) x + 1)%nat
      with (S (CH.searchKeys (CH.keys h) x)) by lia.
    rewrite <- delete_take_drop.
    apply (inj (x ::.)). rewrite <- app_comm_cons in Hperm. rewrite <- Hperm.
    symmetry. by apply delete_Permutation.
Qed.

Lemma Add_steps_keys js : ∀ h,
  CH.hashFunc h = hf →
  CH.keys (foldl (CH.Add_step n (CH.repr n)) h js)
  = CH.keys h ++ replicaKeys hf (CH.repr n) js.
Proof.
  induction js as [|j js IH]; intros h Hhf; cbn [foldl].
  - unfold replicaKeys. by rewrite app_nil_r.
  - rewrite IH by done. unfold CH.Add_step. cbn [CH.keys].
    unfold CH.hash. rewrite Hhf, <- app_assoc. done.
Qed.

Lemma Add_steps_consts js h :
  CH.hashFunc (foldl (CH.Add_step n (CH.repr n)) h js) = CH.hashFunc h
  ∧ CH.replicas (foldl (CH.Add_step n (CH.repr n)) h js) = CH.replicas h
  ∧ CH.nodes (foldl (CH.Add_step n (CH.repr n)) h js) = CH.nodes h.
Proof.
  apply (foldl_preserves (λ h', CH.hashFunc h' = CH.hashFunc h
                               ∧ CH.replicas h' = CH.replicas h
                               ∧ CH.nodes h' = CH.nodes h)); [|done].
  by intros h' j (<- & <- & <-).
Qed.

Lemma Add_steps_ring_cong js : ∀ h g,
  CH.hashFunc h = CH.hashFunc g → CH.ring h = CH.ring g →
  CH.ring (foldl (CH.Add_step n (CH.repr n)) h js)
  = CH.ring (foldl (CH.Add_step n (CH.repr n)) g js).
Proof.
  induction js as [|j js IH]; intros h g Hhf Hring; cbn [foldl]; [done|].
  apply IH; [done|]. unfold CH.Add_step, CH.hash. cbn [CH.ring].
  by rewrite Hhf, Hring.
Qed.

Lemma Add_steps_ring js : ∀ h k,
  CH.hashFunc h = hf →
  if decide (k ∈ replicaKeys hf (CH.repr n) js) then
    ∃ l, CH.ring (foldl (CH.Add_step n (CH.repr n)) h js) !! k = Some l
         ∧ filter (λ x, CH.repr x ≠ CH.repr n) l
           = filter (λ x, CH.repr x ≠ CH.repr n) (default [] (CH.ring h !! k))
  else CH.ring (foldl (CH.Add_step n (CH.repr n)) h js) !! k = CH.ring h !! k.
Proof.
  induction js as [|j js IH]; intros h k Hhf; cbn [foldl].
  - by rewrite decide_False by apply not_elem_of_nil.
  - specialize (IH (CH.Add_step n (CH.repr n) h j) k Hhf).
    unfold replicaKeys. rewrite fmap_cons. fold (replicaKeys hf (CH.repr n) js).
    rewrite Add_step_lookup in IH. unfold CH.hash in IH. rewrite Hhf in IH.
    set (x := uint64_wrap (hf (CH.repr n +:+ Itoa j))) in *.
    assert (filter (λ y, CH.repr y ≠ CH.repr n) (default [] (CH.ring h !! k) ++ [n])
            = filter (λ y, CH.repr y ≠ CH.repr n) (default [] (CH.ring h !! k))) as Hf.
    { rewrite filter_app, filter_cons, decide_False by (by intros ?).
      by rewrite filter_nil, app_nil_r. }
    destruct (decide (k ∈ replicaKeys hf (CH.repr n) js)) as [Hin|Hnin].
    + rewrite decide_True by (by right). destruct IH as (l & Hl & Hfl).
      exists l. split; [done|]. rewrite Hfl. case_decide; [done|done].
    + destruct (decide (k = x)) as [->|Hne].
      * rewrite decide_True by (by left). eexists. split; [done|]. done.
      * by rewrite decide_False by (by apply not_elem_of_cons).
Qed.
End readd.

(** The fields of [AddWithReplicas n r h] when [r] is the ring's replica
    count, as [Add] passes it. *)
Lemma Add_fields n h :
  CH.keys (CH.Add n h)
  = sort_asc (CH.keys (CH.Remove n h)
              ++ replicaKeys (CH.hashFunc h) (CH.repr n) (seqZ 0 (CH.replicas h)))
  ∧ CH.ring (CH.Add n h)
    = CH.ring (foldl (CH.Add_step n (CH.repr n)) (CH.Remove n h) (seqZ 0 (CH.replicas h))).
Proof.
  unfold CH.Add, CH.AddWithReplicas. cbn [CH.keys CH.ring].
  destruct (Remove_consts n h) as [Hhf HR]. rewrite HR.
  destruct (Z.gtb_spec (CH.replicas h) (CH.replicas h)) as [?|_]; [lia|].
  split.
  - by rewrite (Add_steps_keys (CH.hashFunc h)).
  - by apply Add_steps_ring_cong.
Qed.

(** [Add] of the generic ring is idempotent: on a ring whose occupants are
    registered, adding a node twice gives the state that adding it once
    gives. *)
Lemma CH_Add_twice n h :
  registered_ring h → CH.Add n (CH.Add n h) = CH.Add n h.
Proof.
  intros Hreg.
  set (hf := CH.hashFunc h). set (js := seqZ 0 (CH.replicas h)).
  set (h' := CH.Remove n h). set (h1 := CH.Add n h).
  destruct (Remove_consts n h) as [Hhf' HR']. fold h' in Hhf', HR'.
  destruct (AddWithReplicas_consts n (CH.replicas h) h) as [Hhf1 HR1].
  change (CH.AddWithReplicas n (CH.replicas h) h) with h1 in Hhf1, HR1.
  destruct (Add_fields n h) as [Hk1 Hr1]. fold h1 h' hf js in Hk1, Hr1.
  destruct (Add_fields n h1) as [Hk2 Hr2].
  rewrite Hhf1, HR1 in Hk2. rewrite HR1 in Hr2. fold hf js in Hk2, Hr2.
  assert (CH.repr n ∈ CH.nodes h1) as Hn1.
  { unfold h1, CH.Add. rewrite AddWithReplicas_nodes.
    by apply elem_of_union_l, elem_of_singleton. }
  assert (CH.Remove n h1 = foldl (CH.Remove_step (CH.repr n)) h1 js) as HRm1.
  { unfold CH.Remove, CH.containsNode. rewrite bool_decide_eq_true_2 by done.
    cbn [negb]. by rewrite HR1. }
  (* the occupants of [h'] at the replica positions hold no replica of [n] *)
  assert (∀ k l, k ∈ replicaKeys hf (CH.repr n) js → CH.ring h' !! k = Some l →
                 l ≠ [] ∧ filter (λ x, CH.repr x ≠ CH.repr n) l = l) as Hclean.
  { intros k l Hk Hl. split; [by eapply (Remove_registered n h Hreg)|].
    unfold h', CH.Remove, CH.containsNode in Hl.
    case_bool_decide as Hin; simpl in Hl.
    - rewrite (Remove_steps_ring hf n) in Hl by done. fold js in Hl.
      rewrite decide_True in Hl by done.
      destruct (CH.ring h !! k) as [l0|]; [|done]. simpl in Hl.
      case_decide; [done|]. simplify_eq. apply filter_idemp.
    - apply filter_all. intros x Hx Heq.
      destruct (Hreg k l Hl) as [_ Hr]. specialize (Hr x Hx). by rewrite Heq in Hr. }
  assert (CH.ring (CH.Remove n h1) = CH.ring h') as Hring.
  { apply map_eq. intros k. rewrite HRm1, (Remove_steps_ring hf n) by done.
    pose proof (Add_steps_ring hf n js h' k Hhf') as Hadd. rewrite <- Hr1 in Hadd.
    destruct (decide (k ∈ replicaKeys hf (CH.repr n) js)) as [Hin|Hnin]; [|done].
    destruct Hadd as (l & -> & Hfl). simpl. rewrite Hfl.
    destruct (CH.ring h' !! k) as [l0|] eqn:Hl0; simpl.
    + destruct (Hclean k l0 Hin Hl0) as [Hne ->]. by rewrite decide_False.
    + done. }
  assert (CH.keys (CH.Remove n h1) ≡ₚ CH.keys h') as Hkeys.
  { rewrite HRm1. apply (Remove_steps_keys hf n); [done| |].
    - rewrite Hk1. apply sort_asc_sorted.
    - rewrite Hk1, sort_asc_perm. apply Permutation_app_comm. }
  apply ConsistentHash_eq.
  - exact (proj1 (AddWithReplicas_consts n (CH.replicas h1) h1)).
  - exact (proj2 (AddWithReplicas_consts n (CH.replicas h1) h1)).
  - fold h1. rewrite Hk2, Hk1. apply sort_asc_unique; [|apply sort_asc_sorted].
    by rewrite Hkeys, sort_asc_perm.
  - fold h1. rewrite Hr2, Hr1. apply Add_steps_ring_cong; [|done].
    destruct (Remove_consts n h1) as [-> _]. by rewrite Hhf1.
  - unfold CH.Add. rewrite AddWithReplicas_nodes. fold (CH.Add n h) h1.
    apply set_eq. intros x. rewrite elem_of_union, elem_of_singleton.
    split; [intros [->|?]; done | by right].
Qed.

(** * Facts about the concrete rings *)

Lemma ring3_run : run ring3_ms = Done ring3_state.
Proof. vm_compute. reflexivity. Qed.

Lemma twins_run : run twins_ms = Done twins_state.
Proof. vm_compute. reflexivity. Qed.

Lemma twins3_run : run twins3_ms = Done twins3_state.
Proof. vm_compute. reflexivity. Qed.

Lemma twins_collide :
  replicaHashes New twin_a = replicaHashes New twin_b ∧ twin_a ≠ twin_b.
Proof. split; [vm_compute; reflexivity | discriminate]. Qed.

(** * The claims *)

(** ** C10 *)

(** C10.  For every key, [hashKeyCRC32] returns the CRC-32/IEEE checksum
    of the key's bytes, whichever branch it takes: the branch for keys
    shorter than 64 bytes, which copies the key into a 64-byte scratch
    buffer and checksums its first [len key] bytes, gives the same value as
    the direct checksum the other branch computes. *)
Theorem hashKeyCRC32_branches_agree (key : string) :
  hashKeyCRC32 key = hashKeyCRC32_direct key.
Proof.
  unfold hashKeyCRC32, hashKeyCRC32_direct.
  destruct (Z.ltb_spec (len key) 64) as [Hlt|Hge]; [|done].
  by rewrite scratch_prefix.
Qed.

(** ** C1 *)

Lemma run_Done_inv ms c : run ms = Done c → inv c.
Proof. intros H. destruct (run_inv ms) as (c' & Hc' & Hinv). congruence. Qed.

Lemma size_ne_0_nonempty (c : Consistent) : size (circle c) ≠ 0%nat → circle c ≠ ∅.
Proof. apply map_size_non_empty_iff. Qed.

Lemma Get_index_spec h key :
  StronglySorted Z.le (CH.keys h) → CH.keys h ≠ [] →
  ∃ i p, CH.Get_index h key = Done i ∧ CH.keys h !! i = Some p
         ∧ first_at_least (CH.keys h) key i
         ∧ (key ∈ CH.keys h → p = key).
Proof.
  intros Hs Hne. unfold CH.Get_index.
  destruct (searchKeys_spec (CH.keys h) key Hs) as [Hle Hspec].
  assert (0 < length (CH.keys h))%nat as Hlen
    by (destruct (CH.keys h); [done | simpl; lia]).
  destruct (Nat.eqb_spec (length (CH.keys h)) 0) as [?|_]; [lia|].
  destruct (decide (CH.searchKeys (CH.keys h) key = length (CH.keys h))) as [Heq|Hlt].
  - rewrite Heq, Nat.Div0.mod_same.
    destruct (lookup_lt_is_Some_2 (CH.keys h) 0) as [p Hp]; [lia|].
    assert (∀ q, q ∈ CH.keys h → q < key) as Hall.
    { intros q [j Hj]%list_elem_of_lookup. pose proof (lookup_lt_Some _ _ _ Hj).
      apply (Hspec j q Hj). lia. }
    exists 0%nat, p. repeat split; [done| |].
    + right. done.
    + intros Hin. specialize (Hall _ Hin). lia.
  - rewrite Nat.mod_small by lia.
    destruct (lookup_lt_is_Some_2 (CH.keys h) (CH.searchKeys (CH.keys h) key))
      as [p Hp]; [lia|].
    exists (CH.searchKeys (CH.keys h) key), p. repeat split; [done| |].
    + left. exists p. split; [done|]. split.
      * destruct (Hspec _ p Hp) as [_ Hge]. by apply Hge.
      * intros j q Hj Hq. destruct (Hspec j q Hq) as [Hlo _]. by apply Hlo.
    + intros Hin. rewrite (searchKeys_found _ _ Hs Hin) in Hp. congruence.
Qed.

(** What [Get] of the generic ring returns once the position is chosen. *)
Lemma CH_Get_at h v i p :
  size (CH.ring h) ≠ 0%nat →
  CH.Get_index h (CH.hash h (CH.repr v)) = Done i → CH.keys h !! i = Some p →
  (∃ x, CH.Get h v = Done (x, true) ∧ x ∈ default [] (CH.ring h !! p))
  ∨ (CH.Get h v = Done (CH.NodeNil, false) ∧ default [] (CH.ring h !! p) = []).
Proof.
  intros Hsz Hi Hp. unfold CH.Get.
  destruct (Nat.eqb_spec (size (CH.ring h)) 0) as [?|_]; [done|].
  rewrite Hi. cbn [mbind outcome_bind]. rewrite Hp.
  destruct (default [] (CH.ring h !! p)) as [|x [|y l]] eqn:Hl.
  - by right.
  - left. exists x. split; [done|]. by left.
  - left.
    set (pos := Z.to_nat (CH.hash h (CH.innerRepr v) `mod` Z.of_nat (length (x :: y :: l)))).
    destruct (lookup_lt_is_Some_2 (x :: y :: l) pos) as [z Hz].
    { unfold pos. 
      pose proof (Z.mod_pos_bound (CH.hash h (CH.innerRepr v))
                    (Z.of_nat (length (x :: y :: l))) ltac:(simpl; lia)). lia. }
    exists z. rewrite Hz. split; [done|]. by eapply list_elem_of_lookup_2.
Qed.

(** Why [keys] is required to be non-empty: [Remove] walks all of the
    ring's replica indices and excises the first key at or above each
    hash without comparing it to the hash.  Removing ["a"], added with one
    replica, takes away the only key of ["c"] (147, the first key above the
    hash 146 of [a1]); the ring keeps the occupant, and [Get] divides by
    [len(h.keys) = 0]. *)
Lemma Get_panics_without_keys :
  CH.keys generic_stolen = []
  ∧ CH.ring generic_stolen !! 147 = Some [CH.NodeString "c"]
  ∧ CH.Get generic_stolen (CH.NodeString "k") = Panic.
Proof. repeat split; vm_compute; reflexivity. Qed.

(** C1 (as amended).  On every ring built by mutations from a fresh one
    that has positions (and, in the generic ring, occupants), [Get] hashes
    the key and serves it from a position of the sorted sequence chosen by
    binary search, wrapping to index 0 when no position qualifies.  In
    the string ring ([Consistent]) the position chosen is the first one
    strictly above the key's hash.  In the generic ring
    ([ConsistentHash]) it is the first one at or above the key's hash, so
    there a key whose hash equals a stored position selects that position,
    and the node returned is one of its occupants. *)
Theorem Get_selection :
  (∀ ms c name, run ms = Done c → size (circle c) ≠ 0%nat →
     first_above (sortedHashes c) (hashKey c name) (search c (hashKey c name))
     ∧ ∃ p, sortedHashes c !! search c (hashKey c name) = Some p
            ∧ Get c name = Done (occupant c p, None))
  ∧
  (∀ Hash r fn ops v,
     let h := CH.run (CH.NewCustomConsistentHash Hash r fn) ops in
     CH.keys h ≠ [] → size (CH.ring h) ≠ 0%nat →
     ∃ i p, CH.Get_index h (CH.hash h (CH.repr v)) = Done i
            ∧ CH.keys h !! i = Some p
            ∧ first_at_least (CH.keys h) (CH.hash h (CH.repr v)) i
            ∧ (CH.hash h (CH.repr v) ∈ CH.keys h → p = CH.hash h (CH.repr v))
            ∧ ((∃ x, CH.Get h v = Done (x, true) ∧ x ∈ default [] (CH.ring h !! p))
               ∨ (CH.Get h v = Done (CH.NodeNil, false)
                  ∧ default [] (CH.ring h !! p) = []))).
Proof.
  split.
  - intros ms c name Hrun Hsz. apply run_Done_inv in Hrun as [Hwf _ _].
    split; [by apply search_first_above, wf_sorted|].
    destruct (Get_successor c name Hwf (size_ne_0_nonempty c Hsz)) as (p & Hp & _ & HG).
    eauto.
  - intros Hash r fn ops v h Hne Hsz.
    destruct (Get_index_spec h (CH.hash h (CH.repr v))) as (i & p & Hi & Hp & Hfirst & Heq);
      [by apply run_sorted, New_sorted | done |].
    exists i, p. repeat split; try done. by apply (CH_Get_at h v i p).
Qed.

Lemma Get_selection_witness :
  (first_above (sortedHashes ring3_state) (hashKey ring3_state "ggg")
     (search ring3_state (hashKey ring3_state "ggg"))
   ∧ ∃ p, sortedHashes ring3_state !! search ring3_state (hashKey ring3_state "ggg") = Some p
          ∧ Get ring3_state "ggg" = Done (occupant ring3_state p, None))
  ∧ ∃ i p, CH.Get_index generic_a (CH.hash generic_a "k") = Done i
           ∧ CH.keys generic_a !! i = Some p
           ∧ first_at_least (CH.keys generic_a) (CH.hash generic_a "k") i.
Proof.
  destruct Get_selection as [H1 H2]. split.
  - apply (H1 ring3_ms ring3_state "ggg"); [exact ring3_run | vm_compute; lia].
  - destruct (H2 byteSum 100 None [CH.OpAdd (CH.NodeString "a")] (CH.NodeString "k"))
      as (i & p & Hi & Hp & Hf & _); [vm_compute; discriminate | vm_compute; lia |].
    exists i, p. auto.
Defined.

(** C1 as stated fails on the string ring: the key ["0abcdefg"] hashes
    exactly onto a position held by ["abcdefg"] in the ring of
    [TestGetMultiple], and [Get] serves it from the next position, held by
    ["hijklmn"]. *)
Lemma Get_exact_hash_counterexample :
  run ring3_ms = Done ring3_state
  ∧ hashKey ring3_state "0abcdefg" ∈ sortedHashes ring3_state
  ∧ occupant ring3_state (hashKey ring3_state "0abcdefg") = "abcdefg"
  ∧ Get ring3_state "0abcdefg" = Done ("hijklmn", None)
  ∧ ¬ first_at_least (sortedHashes ring3_state) (hashKey ring3_state "0abcdefg")
        (search ring3_state (hashKey ring3_state "0abcdefg")).
Proof.
  split; [exact ring3_run|].
  split; [apply list_elem_of_lookup; exists 17%nat; vm_compute; reflexivity|].
  split; [vm_compute; reflexivity|].
  split; [vm_compute; reflexivity|].
  assert (search ring3_state (hashKey ring3_state "0abcdefg") = 18%nat) as ->
    by (vm_compute; reflexivity).
  assert (hashKey ring3_state "0abcdefg" = 1286158796) as -> by (vm_compute; reflexivity).
  assert (sortedHashes ring3_state !! 17%nat = Some 1286158796) as H17
    by (vm_compute; reflexivity).
  intros [(p & _ & _ & Hlo)|[Hi _]]; [|done].
  specialize (Hlo 17%nat _ ltac:(lia) H17). lia.
Qed.

(** ** C2 *)

Lemma GetTwo_empty fuel c name :
  circle c = ∅ → GetTwo fuel c name = Done ("", "", Some ErrEmptyCircle).
Proof. intros H. unfold GetTwo. by rewrite size_circle_eqb, bool_decide_eq_true_2. Qed.

Lemma GetN_empty fuel c name n :
  circle c = ∅ → GetN fuel c name n = Done ([], Some ErrEmptyCircle).
Proof. intros H. unfold GetN. by rewrite size_circle_eqb, bool_decide_eq_true_2. Qed.

Lemma GetTwo_error fuel c name a b e :
  GetTwo fuel c name = Done (a, b, Some e) → circle c = ∅.
Proof.
  unfold GetTwo. rewrite size_circle_eqb. case_bool_decide; [done|].
  destruct (at_index c _); cbn [mbind outcome_bind]; [|done..].
  destruct (count c =? 1); [done|].
  destruct (GetTwo_loop _ _ _ _ _ _); cbn [mbind outcome_bind]; done.
Qed.

Lemma GetN_error fuel c name n res e :
  GetN fuel c name n = Done (res, Some e) → circle c = ∅.
Proof.
  unfold GetN. rewrite size_circle_eqb. case_bool_decide; [done|].
  destruct (_ <? 0); [done|].
  destruct (at_index c _); cbn [mbind outcome_bind]; [|done..].
  destruct (GetN_loop _ _ _ _ _ _); cbn [mbind outcome_bind]; done.
Qed.

Lemma CH_Get_empty h v :
  CH.ring h = ∅ → CH.Get h v = Done (CH.NodeNil, false).
Proof. intros H. unfold CH.Get. by rewrite H, map_size_empty. Qed.

(** C2.  On every ring built by mutations from a fresh one, if no node is
    registered then [Get], [GetTwo] and [GetN] fail with [ErrEmptyCircle]
    (and [Get] of the generic ring, which has no error value, reports
    failure by [(nil, false)]).  [ErrEmptyCircle] is the only error value
    there is; a lookup returns it only when the ring has no position; the
    mutations return no error and every sequence of them runs to its end. *)
Theorem lookups_fail_on_empty_ring :
  (∀ ms c name n fuel, run ms = Done c → size (members c) = 0%nat →
     Get c name = Done ("", Some ErrEmptyCircle)
     ∧ GetTwo fuel c name = Done ("", "", Some ErrEmptyCircle)
     ∧ GetN fuel c name n = Done ([], Some ErrEmptyCircle))
  ∧
  (∀ Hash r fn ops v,
     let h := CH.run (CH.NewCustomConsistentHash Hash r fn) ops in
     CH.nodes h = ∅ → CH.Get h v = Done (CH.NodeNil, false))
  ∧
  (∀ c name n fuel a b res e,
     Get c name = Done (a, Some e) ∨ GetTwo fuel c name = Done (a, b, Some e)
       ∨ GetN fuel c name n = Done (res, Some e) →
     e = ErrEmptyCircle ∧ size (circle c) = 0%nat)
  ∧
  (∀ ms, ∃ c, run ms = Done c).
Proof.
  split; [|split; [|split]]; [| | |intros ms; destruct (run_inv ms) as (c & ? & _); eauto].
  - intros ms c name n fuel Hrun Hm. apply run_Done_inv in Hrun.
    apply map_size_empty_inv in Hm.
    pose proof (inv_members_empty c Hrun Hm) as Hc.
    by rewrite Get_empty, GetTwo_empty, GetN_empty.
  - intros Hash r fn ops v h Hn. apply CH_Get_empty, registered_ring_empty; [|done].
    apply run_registered, New_registered.
  - intros c name n fuel a b res [] H. split; [done|]. apply map_size_empty_iff.
    destruct H as [H|[H|H]];
      [by eapply Get_error | by eapply GetTwo_error | by eapply GetN_error].
Qed.

Lemma lookups_fail_on_empty_ring_witness :
  (Get emptied_state "ggg" = Done ("", Some ErrEmptyCircle)
   ∧ GetTwo 5 emptied_state "ggg" = Done ("", "", Some ErrEmptyCircle)
   ∧ GetN 5 emptied_state "ggg" 2 = Done ([], Some ErrEmptyCircle))
  ∧ CH.Get (CH.run (CH.NewCustomConsistentHash byteSum 100 None)
              [CH.OpRemove (CH.NodeString "a")]) (CH.NodeString "k")
    = Done (CH.NodeNil, false)
  ∧ (ErrEmptyCircle = ErrEmptyCircle ∧ size (circle New) = 0%nat).
Proof.
  destruct lookups_fail_on_empty_ring as (H1 & H2 & H3 & _). split; [|split].
  - apply (H1 emptied_ms); [vm_compute; reflexivity | vm_compute; reflexivity].
  - apply H2. vm_compute. reflexivity.
  - apply (H3 New "ggg" 0 0%nat "" "" [] ErrEmptyCircle). left. vm_compute. reflexivity.
Defined.

(** ** C3 *)

(** Adding a node a second time rewrites the same positions and the same
    member and leaves the sorted positions as they are, but counts the
    node once more. *)
Lemma add_twice c elt c1 :
  add elt c = Done c1 →
  ∃ c2, add elt c1 = Done c2
        ∧ circle c2 = circle c1 ∧ members c2 = members c1
        ∧ sortedHashes c2 = sortedHashes c1
        ∧ count c2 = int64_wrap (count c1 + 1).
Proof.
  intros Hadd. destruct (add_inv _ _ _ Hadd) as (Hwf1 & HN & HF & Hc & Hm & Hcnt).
  assert (replicas_ok c) as Hok.
  { unfold add, updateSortedHashes in Hadd. simpl in Hadd. unfold replicas_ok.
    by destruct (Z.eqb_spec (int64_wrap (NumberOfReplicas c * 4)) 0). }
  assert (replicas_ok c1) as Hok1 by (unfold replicas_ok; by rewrite HN).
  destruct (add elt c1) as [c2| |] eqn:Hadd2; [|by rewrite add_Done in Hadd2..].
  destruct (add_inv _ _ _ Hadd2) as (Hwf2 & HN2 & HF2 & Hc2 & Hm2 & Hcnt2).
  assert (circle c2 = circle c1) as Hcc.
  { rewrite Hc2, (replicaHashes_cong c c1) by done. apply map_eq. intros k.
    rewrite lookup_foldl_insert, Hc, lookup_foldl_insert. by case_decide. }
  exists c2. repeat split; try done.
  - by rewrite Hm2, Hm, insert_insert_eq.
  - unfold wf in Hwf1, Hwf2. by rewrite Hwf2, Hwf1, Hcc.
Qed.

(** C3 (the code departs from it).  [Add "abcdefg"] on a fresh ring gives
    20 positions, one member and [count = 1]; a second [Add "abcdefg"]
    leaves positions, occupants and members as they are and makes
    [count = 2], so the ring state after the two calls is not the state
    after one. *)
Theorem Add_twice_counts_twice :
  ∃ c1 c2, run [MAdd "abcdefg"] = Done c1
    ∧ run [MAdd "abcdefg"; MAdd "abcdefg"] = Done c2
    ∧ circle c2 = circle c1 ∧ sortedHashes c2 = sortedHashes c1
    ∧ members c2 = members c1 ∧ size (members c2) = 1%nat
    ∧ count c1 = 1 ∧ count c2 = 2 ∧ c2 ≠ c1.
Proof.
  exists (state_of (run [MAdd "abcdefg"])),
         (state_of (run [MAdd "abcdefg"; MAdd "abcdefg"])).
  repeat split; try (vm_compute; reflexivity).
  intros H. apply (f_equal count) in H. vm_compute in H. discriminate.
Qed.

(** ** C4 *)

(** Removing a non-member whose replica positions are all free changes
    nothing but [count], which goes down by one. *)
Lemma remove_absent c elt c' :
  wf c → remove elt c = Done c' →
  Forall (λ h, circle c !! h = None) (replicaHashes c elt) →
  members c !! elt = None →
  circle c' = circle c ∧ members c' = members c
  ∧ sortedHashes c' = sortedHashes c ∧ count c' = int64_wrap (count c - 1).
Proof.
  intros Hwf Hrm Hfree Hm.
  destruct (remove_inv _ _ _ Hrm) as (Hwf' & HN & HF & Hc & Hm' & Hcnt).
  assert (circle c' = circle c) as Hcc.
  { rewrite Hc. apply map_eq. intros k. rewrite lookup_foldl_delete.
    case_decide as Hin; [|done]. rewrite Forall_forall in Hfree. by rewrite Hfree. }
  repeat split; try done.
  - by rewrite Hm', delete_id.
  - unfold wf in Hwf, Hwf'. by rewrite Hwf', Hwf, Hcc.
Qed.

(** The generic ring does guard [Remove]: a node that is not registered
    leaves the ring as it is. *)
Lemma CH_Remove_absent n h : CH.repr n ∉ CH.nodes h → CH.Remove n h = h.
Proof.
  intros Hn. unfold CH.Remove, CH.containsNode.
  by rewrite bool_decide_eq_false_2.
Qed.

(** C4 (the code departs from it).  In the ring of [TestRemoveNonExisting],
    built by [Add "abcdefg"], the node ["aaa"] is not a member;
    [Remove "aaa"] returns without error and leaves positions, occupants
    and members as they are, but takes [count] from 1 to 0 although one
    node is still registered. *)
Theorem Remove_non_member_decrements_count :
  ∃ c1 c2, run [MAdd "abcdefg"] = Done c1
    ∧ members c1 !! "aaa" = None
    ∧ Remove "aaa" c1 = Done c2
    ∧ circle c2 = circle c1 ∧ sortedHashes c2 = sortedHashes c1
    ∧ members c2 = members c1 ∧ size (members c2) = 1%nat
    ∧ count c1 = 1 ∧ count c2 = 0 ∧ c2 ≠ c1.
Proof.
  exists (state_of (run [MAdd "abcdefg"])),
         (state_of (run [MAdd "abcdefg"; MRemove "aaa"])).
  repeat split; try (vm_compute; reflexivity).
  intros H. apply (f_equal count) in H. vm_compute in H. discriminate.
Qed.

(** ** C5 *)

(** C5 (as amended).  After every sequence of mutations of a fresh ring
    (none of which panics) the position sequence is sorted ascending.  In
    the string ring ([sortedHashes], after [Add], [Remove], [Set]) it is
    strictly ascending, hence free of duplicates.  In the generic ring
    ([keys], after [Add], [AddWithReplicas], [AddWithWeight], [Remove]) it
    is ascending. *)
Theorem positions_sorted :
  (∀ ms, ∃ c, run ms = Done c
     ∧ StronglySorted Z.lt (sortedHashes c) ∧ NoDup (sortedHashes c))
  ∧ (∀ Hash r fn ops,
       StronglySorted Z.le
         (CH.keys (CH.run (CH.NewCustomConsistentHash Hash r fn) ops))).
Proof.
  split.
  - intros ms. destruct (run_inv ms) as (c & Hrun & [Hwf _ _]).
    exists c. split; [done|]. split; [by apply wf_strict|].
    by apply StronglySorted_lt_NoDup, wf_strict.
  - intros. apply run_sorted, New_sorted.
Qed.

(** C5 as stated fails on the generic ring: with the byte-sum hash, the
    replicas [a19] and [a91] of the node ["a"] collide, [AddWithReplicas]
    records the position once per replica, and [keys] holds it twice. *)
Lemma keys_duplicates_counterexample :
  CH.keys generic_a !! 55%nat = Some 203
  ∧ CH.keys generic_a !! 56%nat = Some 203
  ∧ ¬ NoDup (CH.keys generic_a).
Proof.
  assert (CH.keys generic_a !! 55%nat = Some 203) as H1 by (vm_compute; reflexivity).
  assert (CH.keys generic_a !! 56%nat = Some 203) as H2 by (vm_compute; reflexivity).
  split; [done|]. split; [done|]. intros Hnd.
  pose proof (NoDup_lookup _ _ _ _ Hnd H1 H2). lia.
Qed.

(** The same with CRC-32 as the hash function: the twins collide on every
    replica, and each of their positions is in [keys] twice. *)
Lemma keys_duplicates_crc32 :
  length (CH.keys generic_twins) = 200%nat
  ∧ CH.keys generic_twins !! 0%nat = CH.keys generic_twins !! 1%nat
  ∧ ¬ NoDup (CH.keys generic_twins).
Proof.
  assert (CH.keys generic_twins !! 0%nat = Some 16364942) as H0 by (vm_compute; reflexivity).
  assert (CH.keys generic_twins !! 1%nat = Some 16364942) as H1 by (vm_compute; reflexivity).
  split; [vm_compute; reflexivity|]. split; [by rewrite H0, H1|].
  intros Hnd. pose proof (NoDup_lookup _ _ _ _ Hnd H0 H1). lia.
Qed.

(** ** C6 *)

(** C6 (as amended).  After every sequence of mutations of a fresh generic
    ring, every identity that has a replica among the occupants is
    registered.  Conversely, an identity is registered and has a replica
    among the occupants when the latest operation on it is an add that
    places at least one replica (after the clamp to the ring's replica
    count). *)
Theorem registered_and_replicas Hash r fn ops :
  (∀ id, has_replica (CH.run (CH.NewCustomConsistentHash Hash r fn) ops) id →
         id ∈ CH.nodes (CH.run (CH.NewCustomConsistentHash Hash r fn) ops))
  ∧ (∀ ops1 o ops2, ops = ops1 ++ o :: ops2 →
       1 ≤ op_replicas (CH.replicas (CH.NewCustomConsistentHash Hash r fn)) o →
       Forall (λ o', CH.repr (op_node o) ≠ CH.repr (op_node o')) ops2 →
       CH.repr (op_node o) ∈ CH.nodes (CH.run (CH.NewCustomConsistentHash Hash r fn) ops)
       ∧ has_replica (CH.run (CH.NewCustomConsistentHash Hash r fn) ops)
           (CH.repr (op_node o))).
Proof.
  set (h0 := CH.NewCustomConsistentHash Hash r fn).
  assert (∀ id, has_replica (CH.run h0 ops) id → id ∈ CH.nodes (CH.run h0 ops)) as Hreg.
  { intros id. apply has_replica_registered, run_registered, New_registered. }
  split; [done|]. intros ops1 o ops2 Hops Hr Hother.
  assert (has_replica (CH.run h0 ops) (CH.repr (op_node o))) as Hhas; [|by auto].
  rewrite Hops, run_app. cbn [CH.run foldl]. fold (CH.run (CH.apply_op (CH.run h0 ops1) o) ops2).
  apply run_has_replica; [done|]. apply apply_op_places.
  by destruct (run_consts h0 ops1) as [_ ->].
Qed.

Lemma registered_and_replicas_witness :
  "a" ∈ CH.nodes (CH.run (CH.NewCustomConsistentHash byteSum 100 None)
                    [CH.OpAdd (CH.NodeString "a"); CH.OpAddWithWeight (CH.NodeString "b") 0])
  ∧ has_replica (CH.run (CH.NewCustomConsistentHash byteSum 100 None)
                   [CH.OpAdd (CH.NodeString "a"); CH.OpAddWithWeight (CH.NodeString "b") 0])
      "a".
Proof.
  apply (proj2 (registered_and_replicas byteSum 100 None
                  [CH.OpAdd (CH.NodeString "a"); CH.OpAddWithWeight (CH.NodeString "b") 0])
           [] (CH.OpAdd (CH.NodeString "a")) [CH.OpAddWithWeight (CH.NodeString "b") 0]).
  - reflexivity.
  - vm_compute. discriminate.
  - repeat constructor. discriminate.
Defined.

(** C6 as stated fails: [AddWithWeight] with weight 0 registers the node
    and places no replica. *)
Lemma weight_zero_counterexample :
  let h := CH.run (CH.NewCustomConsistentHash byteSum 100 None)
             [CH.OpAddWithWeight (CH.NodeString "a") 0] in
  "a" ∈ CH.nodes h ∧ CH.ring h = ∅ ∧ ¬ has_replica h "a".
Proof.
  assert (CH.ring (CH.run (CH.NewCustomConsistentHash byteSum 100 None)
                     [CH.OpAddWithWeight (CH.NodeString "a") 0]) = ∅) as Hring
    by (vm_compute; reflexivity).
  split; [|split; [done|]].
  - unfold CH.run. cbn [foldl CH.apply_op]. unfold CH.AddWithWeight.
    rewrite AddWithReplicas_nodes. apply elem_of_union_l. by apply elem_of_singleton.
  - intros (k & l & x & Hl & _). rewrite Hring, lookup_empty in Hl. done.
Qed.

(** [Remove] takes the replicas away and leaves the identity registered:
    [removeNode] is never called. *)
Lemma removed_node_stays_registered :
  let h := CH.run (CH.NewCustomConsistentHash byteSum 100 None)
             [CH.OpAdd (CH.NodeString "a"); CH.OpRemove (CH.NodeString "a")] in
  "a" ∈ CH.nodes h ∧ CH.ring h = ∅ ∧ CH.keys h = [].
Proof.
  split; [|split; vm_compute; reflexivity].
  unfold CH.run. cbn [foldl CH.apply_op]. rewrite Remove_nodes. unfold CH.Add.
  rewrite AddWithReplicas_nodes. apply elem_of_union_l. by apply elem_of_singleton.
Qed.

(** ** C7 *)

Lemma owners_members c x : inv c → x ∈ owners c → is_Some (members c !! x).
Proof.
  intros [Hwf _ Hown] Hx. unfold owners in Hx.
  apply list_elem_of_fmap in Hx as (h & -> & Hh).
  apply (wf_occupant c h Hwf) in Hh. by destruct (Hown _ _ Hh).
Qed.

(** C7 (as amended).  On every populated ring built by mutations from a
    fresh one and for every key, [Get] returns a member, and whenever
    [GetTwo] returns, its primary node is that node.  When the node count
    is 1, [GetTwo] returns the primary alone.  When the node count is not
    1 and at least two distinct nodes hold positions on the circle,
    [GetTwo] returns, within one pass over the positions, the primary and
    a second member that differs from it. *)
Theorem GetTwo_spec ms c name :
  run ms = Done c → size (circle c) ≠ 0%nat →
  ∃ a, Get c name = Done (a, None) ∧ is_Some (members c !! a)
    ∧ (∀ fuel a' b e, GetTwo fuel c name = Done (a', b, e) → a' = a ∧ e = None)
    ∧ (count c = 1 → ∀ fuel, GetTwo fuel c name = Done (a, "", None))
    ∧ (count c ≠ 1 → (1 < length (distinctNodes c))%nat →
       ∀ fuel, (size (circle c) ≤ fuel)%nat →
       ∃ b, GetTwo fuel c name = Done (a, b, None) ∧ b ≠ a
            ∧ is_Some (members c !! b)).
Proof.
  intros Hrun Hsz. apply run_Done_inv in Hrun as Hinv. pose proof (inv_wf c Hinv) as Hwf.
  pose proof (size_ne_0_nonempty c Hsz) as Hne.
  destruct (Get_successor c name Hwf Hne) as (p & Hp & _ & HG).
  exists (occupant c p). split; [done|].
  split; [by eapply owners_members, owners_lookup|].
  assert (∀ fuel, GetTwo fuel c name =
            if count c =? 1 then Done (occupant c p, "", None)
            else b ← GetTwo_loop fuel c (occupant c p) (search c (hashKey c name))
                       (search c (hashKey c name) + 1) "";
                 Done (occupant c p, b, None)) as HGT.
  { intros fuel. unfold GetTwo.
    rewrite size_circle_eqb, bool_decide_eq_false_2 by done.
    by rewrite (at_index_Some c _ p Hp). }
  split; [|split].
  - intros fuel a' b e. rewrite HGT. destruct (count c =? 1).
    + by intros [= <- _ <-].
    + destruct (GetTwo_loop _ _ _ _ _ _); cbn [mbind outcome_bind]; [|done..].
      by intros [= <- _ <-].
  - intros Hc fuel. rewrite HGT. by destruct (Z.eqb_spec (count c) 1).
  - intros Hc Hd fuel Hfuel. rewrite HGT. destruct (Z.eqb_spec (count c) 1); [done|].
    destruct (GetTwo_loop_differs c Hwf (occupant c p) _ p fuel Hp eq_refl Hd)
      as (b & -> & Hb & Hbo); [by rewrite wf_length|].
    exists b. split; [done|]. split; [done|]. by apply owners_members.
Qed.

Lemma GetTwo_spec_witness :
  ∃ a, Get ring3_state "ggg" = Done (a, None) ∧ is_Some (members ring3_state !! a)
    ∧ (∀ fuel a' b e, GetTwo fuel ring3_state "ggg" = Done (a', b, e) → a' = a ∧ e = None)
    ∧ (count ring3_state = 1 → ∀ fuel, GetTwo fuel ring3_state "ggg" = Done (a, "", None))
    ∧ (count ring3_state ≠ 1 → (1 < length (distinctNodes ring3_state))%nat →
       ∀ fuel, (size (circle ring3_state) ≤ fuel)%nat →
       ∃ b, GetTwo fuel ring3_state "ggg" = Done (a, b, None) ∧ b ≠ a
            ∧ is_Some (members ring3_state !! b)).
Proof.
  apply (GetTwo_spec ring3_ms ring3_state "ggg"); [exact ring3_run | vm_compute; lia].
Defined.

(** C7 as stated fails: the two registered nodes [twin_a] and [twin_b]
    have the same twenty positions, which [twin_b], added last, holds
    alone.  [GetTwo "ggg"] walks the whole circle without meeting another
    node and returns [twin_b] twice. *)
Lemma GetTwo_twins_counterexample :
  run twins_ms = Done twins_state
  ∧ size (members twins_state) = 2%nat ∧ count twins_state = 2
  ∧ owners twins_state = replicate 20 twin_b
  ∧ GetTwo 20 twins_state "ggg" = Done (twin_b, twin_b, None).
Proof. repeat split; vm_compute; reflexivity. Qed.

(** When one node holds every position and the walk starts at index 0, the
    loop of [GetTwo] never meets its exit test [i != start] with [i = 0]:
    the wrap sets [i] to 0 inside the body and the increment makes it 1
    before the test. *)
Lemma GetTwo_loop_spins c a :
  wf c → sortedHashes c ≠ [] → (∀ x, x ∈ owners c → x = a) →
  ∀ fuel i b, (1 ≤ i)%nat → GetTwo_loop fuel c a 0 i b = OutOfFuel.
Proof.
  intros Hwf Hne Hall.
  induction fuel as [|fuel IH]; intros i b Hi; [done|].
  cbn [GetTwo_loop]. destruct (Nat.eqb_spec i 0) as [?|_]; [lia|].
  set (k := if (size (circle c) <=? i)%nat then 0%nat else i).
  destruct (lookup_lt_is_Some_2 (sortedHashes c) k) as [h Hh].
  { unfold k. rewrite <- (wf_length c Hwf).
    destruct (Nat.leb_spec (length (sortedHashes c)) i); [|lia].
    destruct (sortedHashes c); [done | simpl; lia]. }
  rewrite (at_index_Some c k h Hh). cbn [mbind outcome_bind].
  rewrite (Hall _ (owners_lookup c k h Hh)).
  rewrite bool_decide_eq_false_2 by (by intros ?). apply IH. lia.
Qed.

Lemma GetTwo_never_returns c name :
  wf c → size (circle c) ≠ 0%nat → count c ≠ 1 →
  length (distinctNodes c) = 1%nat → search c (hashKey c name) = 0%nat →
  ∀ fuel, GetTwo fuel c name = OutOfFuel.
Proof.
  intros Hwf Hsz Hcount Hone Hstart fuel.
  pose proof (size_ne_0_nonempty c Hsz) as Hne.
  destruct (Get_successor c name Hwf Hne) as (p & Hp & _ & _).
  unfold GetTwo. rewrite size_circle_eqb, bool_decide_eq_false_2 by done.
  rewrite (at_index_Some c _ p Hp). cbn [mbind outcome_bind].
  destruct (Z.eqb_spec (count c) 1); [done|]. rewrite Hstart.
  rewrite (GetTwo_loop_spins c (occupant c p)); [done|done| | |lia].
  - by apply wf_nonempty.
  - intros x Hx. eapply distinctNodes_single; [done| |done]. by eapply owners_lookup.
Qed.

(** After [Add "abcdefg"] twice the count is 2 with one node on the
    circle: [GetTwo "ggg"] returns that node twice, and [GetTwo "g"], whose
    walk starts at index 0, does not return. *)
Lemma GetTwo_after_double_add :
  run double_ms = Done double_state
  ∧ GetTwo 20 double_state "ggg" = Done ("abcdefg", "abcdefg", None)
  ∧ ∀ fuel, GetTwo fuel double_state "g" = OutOfFuel.
Proof.
  split; [vm_compute; reflexivity|]. split; [vm_compute; reflexivity|].
  apply GetTwo_never_returns.
  - apply (run_Done_inv double_ms). vm_compute. reflexivity.
  - vm_compute. lia.
  - vm_compute. discriminate.
  - vm_compute. reflexivity.
  - vm_compute. reflexivity.
Qed.

(** ** C8 *)

(** C8 (as amended).  On every populated ring built by mutations from a
    fresh one whose node count equals the number of distinct nodes holding
    positions on the circle, and for every [n] of at least 2,
    [GetN key n] returns, within one pass over the positions, exactly
    [min n count] pairwise distinct members, the first of which is the
    node [Get key] returns. *)
Theorem GetN_spec ms c name n fuel :
  run ms = Done c → size (circle c) ≠ 0%nat →
  count c = Z.of_nat (length (distinctNodes c)) →
  2 ≤ n → (size (circle c) < fuel)%nat →
  ∃ a res, Get c name = Done (a, None) ∧ GetN fuel c name n = Done (res, None)
    ∧ head res = Some a ∧ Z.of_nat (length res) = Z.min n (count c)
    ∧ NoDup res ∧ Forall (λ x, is_Some (members c !! x)) res.
Proof.
  intros Hrun Hsz Hcount Hn Hfuel.
  apply run_Done_inv in Hrun as Hinv. pose proof (inv_wf c Hinv) as Hwf.
  pose proof (size_ne_0_nonempty c Hsz) as Hne.
  destruct (Get_successor c name Hwf Hne) as (p & Hp & _ & HG).
  set (start := search c (hashKey c name)) in *.
  set (a := occupant c p) in *.
  pose proof (lookup_lt_Some _ _ _ Hp) as Hstart.
  pose proof (owners_lookup c start p Hp) as Ha. fold a in Ha.
  pose proof (distinctNodes_pos c a Ha) as Hpos.
  pose proof (wf_length c Hwf) as Hlen.
  exists a.
  assert (∀ res, GetN_loop fuel c (Z.min n (count c)) start (start + 1) [a] = Done res →
                 GetN fuel c name n = Done (res, None)) as HGN.
  { intros res Hres. unfold GetN.
    rewrite size_circle_eqb, bool_decide_eq_false_2 by done. fold start.
    replace (if count c <? n then count c else n) with (Z.min n (count c))
      by (destruct (Z.ltb_spec (count c) n); lia).
    destruct (Z.ltb_spec (Z.min n (count c)) 0) as [?|_]; [lia|].
    rewrite (at_index_Some c start p Hp). fold a. cbn [mbind outcome_bind].
    by rewrite Hres. }
  destruct (decide (length (distinctNodes c) = 1%nat)) as [Hone|Hmany].
  - (* a single node holds every position *)
    exists [a]. split; [done|].
    assert (Z.min n (count c) = 1) as Hmin by lia.
    split; [|split; [done|split; [by rewrite Hmin|split; [apply NoDup_singleton|]]]].
    + apply HGN. rewrite Hmin. destruct fuel as [|fuel]; [lia|].
      set (k := if (length (sortedHashes c) <=? start + 1)%nat then 0%nat
                else (start + 1)%nat).
      destruct (lookup_lt_is_Some_2 (sortedHashes c) k) as [h Hh].
      { unfold k. destruct (Nat.leb_spec (length (sortedHashes c)) (start + 1)); lia. }
      rewrite (GetN_loop_step c 1 start fuel (start + 1) [a] k h); [|lia|done|done].
      rewrite (distinctNodes_single c a (occupant c h) Hone Ha (owners_lookup c k h Hh)).
      unfold visit. rewrite sliceContainsMember_spec.
      rewrite bool_decide_eq_true_2 by (by left). done.
    + apply Forall_singleton. by apply owners_members.
  - (* at least two: the walk stops when [min n count] nodes are in *)
    destruct (GetN_loop_first_lap c (Z.min n (count c)) start Hstart ltac:(lia)
                fuel (start + 1)%nat [a]) as (res & Hres & Hlen' & Hnd & Hsub & Hpre).
    + lia.
    + lia.
    + split; [apply NoDup_singleton|]. split.
      * by intros x ->%list_elem_of_singleton.
      * intros k h Hk Hh. assert (k = start) as -> by lia. simplify_eq. by left.
    + simpl. lia.
    + exists res. split; [done|]. split; [by apply HGN|].
      split; [by destruct Hpre as [l ->]|]. split; [done|]. split; [done|].
      apply Forall_forall. intros x Hx. by apply owners_members, Hsub.
Qed.

Lemma GetN_spec_witness :
  ∃ a res, Get ring3_state "ggg" = Done (a, None)
    ∧ GetN 61 ring3_state "ggg" 2 = Done (res, None)
    ∧ head res = Some a ∧ Z.of_nat (length res) = Z.min 2 (count ring3_state)
    ∧ NoDup res ∧ Forall (λ x, is_Some (members ring3_state !! x)) res.
Proof.
  apply (GetN_spec ring3_ms ring3_state "ggg" 2 61).
  - exact ring3_run.
  - vm_compute. lia.
  - vm_compute. reflexivity.
  - lia.
  - vm_compute. lia.
Defined.

(** C8 as stated fails for [n = 0]: the primary is always included and the
    walk, whose only exit test is [len(res) == n], then collects every
    node, so [GetN "ggg" 0] returns the three nodes of the ring and not
    [min 0 3 = 0] of them.  It also fails when registered nodes hold no
    position: of the two registered twins only [twin_b] is on the circle,
    and [GetN "ggg" 2] returns one node. *)
Lemma GetN_counterexample :
  (run ring3_ms = Done ring3_state ∧ count ring3_state = 3
   ∧ GetN 61 ring3_state "ggg" 0 = Done (["abcdefg"; "hijklmn"; "opqrstu"], None))
  ∧ (run twins_ms = Done twins_state ∧ size (members twins_state) = 2%nat
     ∧ count twins_state = 2
     ∧ GetN 21 twins_state "ggg" 2 = Done ([twin_b], None)).
Proof. repeat split; vm_compute; reflexivity. Qed.

(** For [n = 1] the exit test comes after the first step of the walk: the
    node of the next position is appended, the length passes 1, and the
    walk collects every node. *)
Lemma GetN_one_returns_all :
  GetN 61 ring3_state "ggg" 1 = Done (["abcdefg"; "hijklmn"; "opqrstu"], None).
Proof. vm_compute. reflexivity. Qed.

(** ** C9 *)

(** C9 (as amended).  On every ring built by mutations from a fresh one,
    if [Get key] returns a node other than [C], and each replica position
    of [C] is free or held by [C] itself, then [Remove C] succeeds and
    [Get key] returns the same node afterwards. *)
Theorem Remove_keeps_other_keys ms c C name a :
  run ms = Done c →
  Get c name = Done (a, None) → a ≠ C →
  Forall (λ h, circle c !! h = None ∨ circle c !! h = Some C) (replicaHashes c C) →
  ∃ c', Remove C c = Done c' ∧ Get c' name = Done (a, None).
Proof.
  intros Hrun HG HaC Hfree. apply run_Done_inv in Hrun as Hinv.
  pose proof (inv_wf c Hinv) as Hwf.
  assert (circle c ≠ ∅) as Hne.
  { intros Hc. by rewrite (Get_empty c name Hc) in HG. }
  destruct (Get_successor c name Hwf Hne) as (p & Hp & Hsucc & HG').
  assert (a = occupant c p) as -> by congruence.
  destruct (remove_preserves_inv c C Hinv) as (c' & Hrm & Hinv').
  pose proof (inv_wf c' Hinv') as Hwf'.
  exists c'. split; [done|].
  assert (circle c' !! p = Some (occupant c p)) as Hp'.
  { apply (remove_keeps_position c C c' p Hrm); [|done..].
    apply wf_occupant; [done|]. by eapply list_elem_of_lookup_2. }
  assert (circle c' ≠ ∅) as Hne' by (intros Hc; by rewrite Hc, lookup_empty in Hp').
  destruct (Get_successor c' name Hwf' Hne') as (p' & _ & Hsucc' & ->).
  assert (hashKey c' name = hashKey c name) as Hkey.
  { destruct (remove_inv _ _ _ Hrm) as (_ & _ & HF & _). unfold hashKey. by rewrite HF. }
  rewrite Hkey in Hsucc'.
  assert (successor (sortedHashes c') (hashKey c name) p) as Hsucc''.
  { eapply successor_subseteq; [exact Hsucc| |].
    - intros q Hq. apply (wf_elem_of c q Hwf).
      apply (remove_circle_subseteq c C c' q Hrm). by apply (wf_elem_of c' q Hwf').
    - apply (wf_elem_of c' p Hwf'). eauto. }
  rewrite (successor_unique _ _ _ _ Hsucc' Hsucc'').
  unfold occupant at 1. by rewrite Hp'.
Qed.

Lemma Remove_keeps_other_keys_witness :
  ∃ c', Remove "hijklmn" ring3_state = Done c' ∧ Get c' "ggg" = Done ("abcdefg", None).
Proof.
  apply (Remove_keeps_other_keys ring3_ms ring3_state "hijklmn" "ggg" "abcdefg").
  - exact ring3_run.
  - vm_compute. reflexivity.
  - discriminate.
  - apply (bool_decide_unpack _). vm_compute. exact I.
Defined.

(** C9 as stated fails: in the ring built by [Add twin_a], [Add twin_b],
    [Add "abcdefg"], the key ["hhh"] is served by [twin_b], whose
    positions are those of [twin_a]; [Remove twin_a] deletes them, and the
    key moves to ["abcdefg"] although it was not mapped to the removed
    node. *)
Lemma Remove_twin_counterexample :
  run twins3_ms = Done twins3_state
  ∧ Get twins3_state "hhh" = Done (twin_b, None) ∧ twin_b ≠ twin_a
  ∧ ∃ c', Remove twin_a twins3_state = Done c'
          ∧ Get c' "hhh" = Done ("abcdefg", None).
Proof.
  split; [exact twins3_run|]. split; [vm_compute; reflexivity|].
  split; [discriminate|].
  exists (state_of (Remove twin_a twins3_state)).
  split; vm_compute; reflexivity.
Qed.

(** * Further properties of the string ring *)

(** ** What [add] and [remove] do to the circle *)

Lemma length_replicaHashes c elt :
  length (replicaHashes c elt) = Z.to_nat (NumberOfReplicas c).
Proof. unfold replicaHashes. by rewrite length_fmap, length_seqZ. Qed.

Lemma replicaHashes_nonempty c elt : inv c → replicaHashes c elt ≠ [].
Proof.
  intros [_ HN _] Hnil. apply (f_equal length) in Hnil.
  rewrite length_replicaHashes, HN in Hnil. done.
Qed.

Lemma add_lookup c elt c' k :
  add elt c = Done c' →
  circle c' !! k = if decide (k ∈ replicaHashes c elt) then Some elt else circle c !! k.
Proof.
  intros Hadd. destruct (add_inv _ _ _ Hadd) as (_ & _ & _ & -> & _).
  apply lookup_foldl_insert.
Qed.

Lemma remove_lookup c elt c' k :
  remove elt c = Done c' →
  circle c' !! k = if decide (k ∈ replicaHashes c elt) then None else circle c !! k.
Proof.
  intros Hrm. destruct (remove_inv _ _ _ Hrm) as (_ & _ & _ & -> & _).
  apply lookup_foldl_delete.
Qed.

Lemma add_circle_nonempty c elt c' : inv c → add elt c = Done c' → circle c' ≠ ∅.
Proof.
  intros Hinv Hadd Hempty.
  destruct (replicaHashes c elt) as [|h hs] eqn:Hhs; [by eapply replicaHashes_nonempty|].
  pose proof (add_lookup c elt c' h Hadd) as Hh.
  rewrite Hhs, decide_True, Hempty, lookup_empty in Hh by (by left). done.
Qed.

Lemma hashKey_cong c c' name : UseFnv c' = UseFnv c → hashKey c' name = hashKey c name.
Proof. unfold hashKey. by intros ->. Qed.

(** X1.  Adding a node moves keys to the new node only: on every ring
    built by mutations from a fresh one, after [Add elt] each key is served
    either by [elt] or by the node that served it before. *)
Theorem Add_moves_keys_to_new_node_only ms c elt name :
  run ms = Done c →
  ∃ c' a', Add elt c = Done c' ∧ Get c' name = Done (a', None)
    ∧ (a' = elt ∨ Get c name = Done (a', None)).
Proof.
  intros Hrun. apply run_Done_inv in Hrun as Hinv.
  destruct (add_preserves_inv c elt Hinv) as (c' & Hadd & Hinv').
  pose proof (inv_wf c Hinv) as Hwf. pose proof (inv_wf c' Hinv') as Hwf'.
  pose proof (add_circle_nonempty c elt c' Hinv Hadd) as Hne'.
  destruct (Get_successor c' name Hwf' Hne') as (p' & Hp' & Hsucc' & HG').
  exists c', (occupant c' p'). split; [done|]. split; [done|].
  pose proof (add_lookup c elt c' p' Hadd) as Hlk.
  destruct (decide (p' ∈ replicaHashes c elt)) as [Hin|Hnin];
    [left; unfold occupant; by rewrite Hlk|].
  right. assert (occupant c' p' = occupant c p') as -> by (unfold occupant; by rewrite Hlk).
  assert (is_Some (circle c !! p')) as Hsome.
  { rewrite <- Hlk. apply (wf_elem_of c' p' Hwf'). by eapply list_elem_of_lookup_2. }
  assert (circle c ≠ ∅) as Hne.
  { intros Hc. rewrite Hc, lookup_empty in Hsome. by destruct Hsome. }
  destruct (Get_successor c name Hwf Hne) as (p & _ & Hsucc & ->).
  destruct (add_inv _ _ _ Hadd) as (_ & _ & HF & _).
  rewrite (hashKey_cong c c') in Hsucc' by done.
  assert (successor (sortedHashes c) (hashKey c name) p') as Hsucc''.
  { eapply successor_subseteq; [exact Hsucc'| |by apply (wf_elem_of c p' Hwf)].
    intros q Hq. apply (wf_elem_of c' q Hwf'). apply (wf_elem_of c q Hwf) in Hq.
    rewrite (add_lookup c elt c' q Hadd). by case_decide. }
  by rewrite (successor_unique _ _ _ _ Hsucc Hsucc'').
Qed.

Lemma Add_moves_keys_to_new_node_only_witness :
  ∃ c' a', Add "vwxyz" ring3_state = Done c' ∧ Get c' "ggg" = Done (a', None)
    ∧ (a' = "vwxyz" ∨ Get ring3_state "ggg" = Done (a', None)).
Proof.
  apply (Add_moves_keys_to_new_node_only ring3_ms ring3_state "vwxyz" "ggg").
  exact ring3_run.
Defined.

(** X2.  A removed node serves no key: on every ring built by mutations
    from a fresh one, [Remove elt] succeeds, and afterwards [elt] is not a
    member, holds no position, and is returned by [Get] for no key. *)
Theorem Remove_unserves_node ms c elt :
  run ms = Done c →
  ∃ c', Remove elt c = Done c' ∧ members c' !! elt = None
    ∧ (∀ h, circle c' !! h ≠ Some elt)
    ∧ (∀ name, Get c' name ≠ Done (elt, None)).
Proof.
  intros Hrun. apply run_Done_inv in Hrun as Hinv.
  destruct (remove_preserves_inv c elt Hinv) as (c' & Hrm & Hinv').
  pose proof (inv_wf c' Hinv') as Hwf'.
  destruct (remove_inv _ _ _ Hrm) as (_ & _ & _ & _ & Hm & _).
  assert (members c' !! elt = None) as Hnone by (rewrite Hm; apply lookup_delete_eq).
  assert (∀ h, circle c' !! h ≠ Some elt) as Hfree.
  { intros h Hh. destruct (inv_owned c' Hinv' h elt Hh) as [[b Hb] _]. congruence. }
  exists c'. split; [done|]. split; [done|]. split; [done|].
  intros name HG. destruct (decide (circle c' = ∅)) as [Hc|Hc].
  - by rewrite (Get_empty c' name Hc) in HG.
  - destruct (Get_successor c' name Hwf' Hc) as (p & Hp & _ & HG').
    rewrite HG' in HG. injection HG as Hocc.
    apply (Hfree p). rewrite <- Hocc. apply wf_occupant; [done|].
    by eapply list_elem_of_lookup_2.
Qed.

Lemma Remove_unserves_node_witness :
  ∃ c', Remove "hijklmn" ring3_state = Done c' ∧ members c' !! "hijklmn" = None
    ∧ (∀ h, circle c' !! h ≠ Some "hijklmn")
    ∧ (∀ name, Get c' name ≠ Done ("hijklmn", None)).
Proof. apply (Remove_unserves_node ring3_ms ring3_state "hijklmn"). exact ring3_run. Defined.

(** ** A ring with one node *)

Lemma sole_member_owners c elt x :
  inv c → (∀ y, is_Some (members c !! y) → y = elt) → x ∈ owners c → x = elt.
Proof. intros Hinv Hsole Hx. by apply Hsole, owners_members. Qed.

(** X3.  A ring with a single node (the ring of [TestGetSingle]): after
    [Add elt] on a fresh ring every key is served by [elt]; [GetTwo]
    returns [elt] with no second node, and [GetN] returns [elt] alone for
    every [n] of at least 1. *)
Theorem single_node_ring elt name :
  ∃ c, run [MAdd elt] = Done c
    ∧ Get c name = Done (elt, None)
    ∧ (∀ fuel, GetTwo fuel c name = Done (elt, "", None))
    ∧ (∀ fuel n, 1 ≤ n → GetN (S fuel) c name n = Done ([elt], None)).
Proof.
  destruct (add_preserves_inv New elt inv_New) as (c & Hadd & Hinv).
  pose proof (inv_wf c Hinv) as Hwf.
  pose proof (add_circle_nonempty New elt c inv_New Hadd) as Hne.
  destruct (add_inv _ _ _ Hadd) as (_ & _ & _ & _ & Hm & Hcnt).
  assert (count c = 1) as Hcount by (rewrite Hcnt; reflexivity).
  assert (∀ y, is_Some (members c !! y) → y = elt) as Hsole.
  { intros y. rewrite Hm. simpl. destruct (decide (y = elt)) as [->|Hy]; [done|].
    rewrite lookup_insert_ne, lookup_empty by done. by intros [? ?]. }
  destruct (Get_successor c name Hwf Hne) as (p & Hp & _ & HG).
  assert (occupant c p = elt) as Hocc
    by (eapply sole_member_owners; [done|done|by eapply owners_lookup]).
  rewrite Hocc in HG.
  exists c. split; [exact Hadd|]. split; [done|]. split.
  - intros fuel. unfold GetTwo. rewrite size_circle_eqb, bool_decide_eq_false_2 by done.
    rewrite (at_index_Some c _ p Hp), Hocc. cbn [mbind outcome_bind].
    by rewrite Hcount.
  - intros fuel n Hn. unfold GetN.
    rewrite size_circle_eqb, bool_decide_eq_false_2 by done. rewrite Hcount.
    replace (if 1 <? n then 1 else n) with 1 by (destruct (Z.ltb_spec 1 n); lia).
    cbn [Z.ltb Z.compare]. rewrite (at_index_Some c _ p Hp), Hocc.
    cbn [mbind outcome_bind].
    set (start := search c (hashKey c name)) in *.
    pose proof (lookup_lt_Some _ _ _ Hp) as Hstart.
    set (k := if (length (sortedHashes c) <=? start + 1)%nat then 0%nat
              else (start + 1)%nat).
    destruct (lookup_lt_is_Some_2 (sortedHashes c) k) as [h Hh].
    { unfold k. destruct (Nat.leb_spec (length (sortedHashes c)) (start + 1)); lia. }
    rewrite (GetN_loop_step c 1 start fuel (start + 1) [elt] k h); [|lia|done|done].
    rewrite (sole_member_owners c elt (occupant c h) Hinv Hsole (owners_lookup c k h Hh)).
    unfold visit. rewrite sliceContainsMember_spec.
    rewrite bool_decide_eq_true_2 by (by left). done.
Qed.

(** ** [Set] and [Members] *)

Lemma existsb_elem_of (k : string) (elts : list string) :
  existsb (λ v, bool_decide (k = v)) elts = bool_decide (k ∈ elts).
Proof.
  induction elts as [|v elts IH]; cbn [existsb].
  - symmetry. apply bool_decide_eq_false_2, not_elem_of_nil.
  - rewrite IH. destruct (decide (k = v)) as [->|Hne].
    + rewrite (bool_decide_eq_true_2 (v = v)) by done. simpl.
      symmetry. apply bool_decide_eq_true_2. by left.
    + rewrite (bool_decide_eq_false_2 (k = v)) by done. simpl.
      apply bool_decide_ext. rewrite elem_of_cons. split; [by right | by intros [?|?]].
Qed.

Lemma elem_of_Members c x : x ∈ Members c ↔ is_Some (members c !! x).
Proof.
  unfold Members. rewrite list_elem_of_fmap. split.
  - intros ([k b] & -> & Hin). apply elem_of_map_to_list in Hin. eauto.
  - intros [b Hb]. exists (x, b). split; [done|]. by apply elem_of_map_to_list.
Qed.

Lemma NoDup_Members c : NoDup (Members c).
Proof. apply NoDup_fst_map_to_list. Qed.

(** The first loop of [Set]: the members visited that are not in [elts]
    are removed. *)
Lemma Set_removes_members elts : ∀ ks c, inv c →
  ∃ c1, foldl (Set_remove elts) (Done c) ks = Done c1 ∧ inv c1
    ∧ ∀ x, members c1 !! x
           = if decide (x ∈ ks ∧ x ∉ elts) then None else members c !! x.
Proof.
  induction ks as [|k ks IH]; intros c Hinv; cbn [foldl].
  - exists c. split; [done|]. split; [done|]. intros x.
    rewrite decide_False; [done|]. intros [H _]. by apply elem_of_nil in H.
  - unfold Set_remove at 2. cbn [mbind outcome_bind]. rewrite existsb_elem_of.
    case_bool_decide as Hk; cbn [negb].
    + destruct (IH c Hinv) as (c1 & Hfold & Hinv1 & Hm).
      exists c1. split; [done|]. split; [done|]. intros x. rewrite Hm.
      apply decide_ext. rewrite elem_of_cons. split; [intros [? ?]; auto|].
      intros [[->|?] ?]; [done|auto].
    + destruct (remove_preserves_inv c k Hinv) as (c2 & Hrm & Hinv2). rewrite Hrm.
      destruct (IH c2 Hinv2) as (c1 & Hfold & Hinv1 & Hm).
      exists c1. split; [done|]. split; [done|]. intros x. rewrite Hm.
      destruct (remove_inv _ _ _ Hrm) as (_ & _ & _ & _ & -> & _).
      destruct (decide (x = k)) as [->|Hne].
      * rewrite lookup_delete_eq. rewrite (decide_True (P := k ∈ k :: ks ∧ _));
          [by case_decide | split; [by left|done]].
      * rewrite lookup_delete_ne by done. apply decide_ext. rewrite elem_of_cons.
        split; [intros [? ?]; auto|]. intros [[?|?] ?]; [done|auto].
Qed.

(** The second loop of [Set]: the elements of [elts] become members. *)
Lemma Set_adds_members : ∀ elts c, inv c →
  ∃ c', foldl Set_add (Done c) elts = Done c' ∧ inv c'
    ∧ ∀ x, is_Some (members c' !! x) ↔ is_Some (members c !! x) ∨ x ∈ elts.
Proof.
  induction elts as [|v elts IH]; intros c Hinv; cbn [foldl].
  - exists c. split; [done|]. split; [done|]. intros x. split; [auto|].
    intros [?|H]; [done|by apply elem_of_nil in H].
  - unfold Set_add at 2. cbn [mbind outcome_bind]. case_bool_decide as Hv.
    + destruct (IH c Hinv) as (c' & Hfold & Hinv' & Hm).
      exists c'. split; [done|]. split; [done|]. intros x. rewrite Hm, elem_of_cons.
      split; [intros [?|?]; auto|]. intros [?|[->|?]]; auto.
    + destruct (add_preserves_inv c v Hinv) as (c2 & Hadd & Hinv2). rewrite Hadd.
      destruct (IH c2 Hinv2) as (c' & Hfold & Hinv' & Hm).
      exists c'. split; [done|]. split; [done|]. intros x. rewrite Hm, elem_of_cons.
      destruct (add_inv _ _ _ Hadd) as (_ & _ & _ & _ & -> & _).
      destruct (decide (x = v)) as [->|Hne].
      * rewrite lookup_insert_eq. split; [auto|]. intros _. left. eauto.
      * rewrite lookup_insert_ne by done. split; [intros [?|?]; auto|].
        intros [?|[?|?]]; auto. done.
Qed.

Lemma Set_members c elts :
  inv c → ∃ c', Set_ elts c = Done c' ∧ inv c'
               ∧ ∀ x, is_Some (members c' !! x) ↔ x ∈ elts.
Proof.
  intros Hinv. unfold Set_, Set_ordered. fold (Members c).
  destruct (Set_removes_members elts (Members c) c Hinv) as (c1 & -> & Hinv1 & Hm1).
  destruct (Set_adds_members elts c1 Hinv1) as (c' & -> & Hinv' & Hm').
  exists c'. split; [done|]. split; [done|]. intros x. rewrite Hm', Hm1.
  split; [|auto]. intros [Hx|?]; [|done]. case_decide as Hd.
  - by destruct Hx.
  - destruct (decide (x ∈ elts)) as [?|Hnin]; [done|]. destruct Hd.
    split; [|done]. by apply elem_of_Members.
Qed.

Lemma run_snoc ms m c : run ms = Done c → run (ms ++ [m]) = apply_mutation c m.
Proof. unfold run. intros H. rewrite foldl_app. simpl. by rewrite H. Qed.

(** X4.  [Set] makes the members exactly the elements given: on every
    ring built by mutations from a fresh one, [Set elts] succeeds, and
    afterwards a node is a member if and only if it is in [elts];
    [Members] lists these nodes, each once. *)
Theorem Set_makes_members ms elts :
  ∃ c', run (ms ++ [MSet elts]) = Done c'
    ∧ (∀ x, is_Some (members c' !! x) ↔ x ∈ elts)
    ∧ (∀ x, x ∈ Members c' ↔ x ∈ elts) ∧ NoDup (Members c')
    ∧ length (Members c') = length (remove_dups elts).
Proof.
  destruct (run_inv ms) as (c & Hrun & Hinv).
  destruct (Set_members c elts Hinv) as (c' & HSet & _ & Hm).
  exists c'. split; [by rewrite (run_snoc ms _ c)|]. split; [done|].
  assert (∀ x, x ∈ Members c' ↔ x ∈ elts) as HM
    by (intros x; by rewrite elem_of_Members).
  split; [done|]. split; [apply NoDup_Members|].
  apply Permutation_length, NoDup_Permutation;
    [apply NoDup_Members | apply NoDup_remove_dups|].
  intros x. by rewrite HM, elem_of_remove_dups.
Qed.

(** [Set] with the current members visits every member and every element
    without calling [remove] or [add]. *)
Lemma Set_removes_noop elts c : ∀ ks,
  (∀ k, k ∈ ks → k ∈ elts) → foldl (Set_remove elts) (Done c) ks = Done c.
Proof.
  induction ks as [|k ks IH]; intros Hks; cbn [foldl]; [done|].
  unfold Set_remove at 2. cbn [mbind outcome_bind]. rewrite existsb_elem_of.
  rewrite bool_decide_eq_true_2 by (apply Hks; by left). cbn [negb].
  apply IH. intros k' Hk'. apply Hks. by right.
Qed.

Lemma Set_adds_noop c : ∀ elts,
  (∀ v, v ∈ elts → is_Some (members c !! v)) → foldl Set_add (Done c) elts = Done c.
Proof.
  induction elts as [|v elts IH]; intros Hel; cbn [foldl]; [done|].
  unfold Set_add at 2. cbn [mbind outcome_bind].
  rewrite bool_decide_eq_true_2 by (apply Hel; by left).
  apply IH. intros v' Hv'. apply Hel. by right.
Qed.

Lemma Set_noop c elts :
  (∀ x, is_Some (members c !! x) ↔ x ∈ elts) → Set_ elts c = Done c.
Proof.
  intros Hm. unfold Set_, Set_ordered. fold (Members c).
  rewrite Set_removes_noop by (intros k Hk; by apply Hm, elem_of_Members).
  apply Set_adds_noop. intros v Hv. by apply Hm.
Qed.

(** X5.  [Set] with the nodes that are the members already changes
    nothing, the node count included, whatever the order and the
    repetitions of the list; this holds of every ring state. *)
Theorem Set_current_members_noop c elts :
  (∀ x, is_Some (members c !! x) ↔ x ∈ elts) → Set_ elts c = Done c.
Proof. apply Set_noop. Qed.

Lemma Set_current_members_noop_witness :
  Set_ ["opqrstu"; "abcdefg"; "hijklmn"; "abcdefg"] ring3_state = Done ring3_state.
Proof.
  apply Set_current_members_noop. intros x. rewrite <- elem_of_Members.
  assert (Members ring3_state = ["opqrstu"; "abcdefg"; "hijklmn"]) as ->
    by (vm_compute; reflexivity).
  rewrite !elem_of_cons, !elem_of_nil. tauto.
Defined.

(** X6.  [Set] is idempotent: on every ring built by mutations from a
    fresh one, [Set elts] followed by [Set elts] leaves the ring in the
    state the first call gave (the third step of [TestSet]). *)
Theorem Set_idempotent ms elts :
  ∃ c', run (ms ++ [MSet elts]) = Done c'
        ∧ run (ms ++ [MSet elts; MSet elts]) = Done c'.
Proof.
  destruct (run_inv ms) as (c & Hrun & Hinv).
  destruct (Set_members c elts Hinv) as (c' & HSet & _ & Hm).
  assert (run (ms ++ [MSet elts]) = Done c') as Hrun'
    by (by rewrite (run_snoc ms _ c)).
  exists c'. split; [done|].
  replace (ms ++ [MSet elts; MSet elts]) with ((ms ++ [MSet elts]) ++ [MSet elts])
    by (by rewrite <- app_assoc).
  rewrite (run_snoc _ _ c' Hrun'). simpl.
  by apply Set_noop.
Qed.

(** ** The node count *)

Lemma int64_wrap_small z : - 2 ^ 63 ≤ z < 2 ^ 63 → int64_wrap z = z.
Proof. intros Hz. unfold int64_wrap. rewrite Z.mod_small; lia. Qed.

Lemma int64_wrap_range z : - 2 ^ 63 ≤ int64_wrap z < 2 ^ 63.
Proof.
  unfold int64_wrap. pose proof (Z.mod_pos_bound (z + 2 ^ 63) (2 ^ 64) ltac:(lia)). lia.
Qed.

Lemma Set_size c elts c' :
  inv c → Set_ elts c = Done c' → size (members c') = length (remove_dups elts).
Proof.
  intros Hinv HSet. destruct (Set_members c elts Hinv) as (c'' & HSet' & _ & Hm).
  assert (c'' = c') as -> by congruence.
  rewrite <- (length_map_to_list (members c')), <- (length_fmap fst). fold (Members c').
  apply Permutation_length, NoDup_Permutation;
    [apply NoDup_Members | apply NoDup_remove_dups|].
  intros x. by rewrite elem_of_Members, Hm, elem_of_remove_dups.
Qed.

(** X7.  Under intended use, that is when [Add] is called for nodes that
    are not members, [Remove] for nodes that are, and [Set] at will, every
    call succeeds and [count] is the number of members; a further
    [Set elts] then makes it the number of distinct elements of [elts]
    (the checks [x.count != 2] of [TestSet]). *)
Theorem count_is_number_of_members ms c :
  intended_run ms c →
  run ms = Done c
  ∧ count c = int64_wrap (Z.of_nat (size (members c)))
  ∧ ∀ elts, ∃ c', Set_ elts c = Done c'
      ∧ count c' = int64_wrap (Z.of_nat (length (remove_dups elts))).
Proof.
  intros Hrun. destruct (intended_run_count ms c Hrun) as [Hdone Hcount].
  split; [done|]. split; [done|]. intros elts.
  pose proof (run_Done_inv ms c Hdone) as Hinv.
  destruct (Set_preserves_inv c elts Hinv) as (c' & HSet & _).
  exists c'. split; [done|].
  rewrite <- (Set_size c elts c' Hinv HSet). by apply (Set_count_ok elts c c').
Qed.

Lemma count_is_number_of_members_witness :
  run ring3_ms = Done ring3_state
  ∧ count ring3_state = int64_wrap (Z.of_nat (size (members ring3_state)))
  ∧ ∀ elts, ∃ c', Set_ elts ring3_state = Done c'
      ∧ count c' = int64_wrap (Z.of_nat (length (remove_dups elts))).
Proof.
  apply (count_is_number_of_members ring3_ms ring3_state).
  apply (intended_snoc [MAdd "abcdefg"; MAdd "hijklmn"]
           (state_of (run [MAdd "abcdefg"; MAdd "hijklmn"])) (MAdd "opqrstu") ring3_state);
    [|vm_compute; reflexivity|vm_compute; reflexivity].
  apply (intended_snoc [MAdd "abcdefg"]
           (state_of (run [MAdd "abcdefg"])) (MAdd "hijklmn")
           (state_of (run [MAdd "abcdefg"; MAdd "hijklmn"])));
    [|vm_compute; reflexivity|vm_compute; reflexivity].
  apply (intended_snoc [] New (MAdd "abcdefg") (state_of (run [MAdd "abcdefg"])));
    [|vm_compute; reflexivity|vm_compute; reflexivity].
  apply intended_nil.
Defined.

Lemma balance_snoc ms m :
  balance (ms ++ [m])
  = match m with MAdd _ => balance ms + 1 | MRemove _ => balance ms - 1
    | MSet _ => balance ms end.
Proof. unfold balance. by rewrite foldl_app. Qed.

(** X8.  Used freely, [count] counts calls, not nodes: after any sequence
    of [Add] and [Remove] calls on a fresh ring it is the number of [Add]
    calls less the number of [Remove] calls (as an [int64]), whether or
    not the nodes were members. *)
Theorem count_is_calls_balance ms c :
  Forall no_Set ms → run ms = Done c → count c = int64_wrap (balance ms).
Proof.
  revert c. induction ms as [|m ms IH] using rev_ind; intros c Hms Hrun.
  - injection Hrun as <-. reflexivity.
  - apply Forall_app in Hms as [Hms Hm]. rewrite Forall_singleton in Hm.
    destruct (run_inv ms) as (c0 & Hrun0 & _).
    rewrite (run_snoc ms m c0 Hrun0) in Hrun. rewrite balance_snoc.
    specialize (IH c0 Hms Hrun0).
    destruct m as [elt|elt|elts]; simpl in Hrun; [| |by destruct Hm].
    + destruct (add_inv _ _ _ Hrun) as (_ & _ & _ & _ & _ & ->).
      by rewrite IH, int64_wrap_add_l.
    + destruct (remove_inv _ _ _ Hrun) as (_ & _ & _ & _ & _ & ->).
      replace (count c0 - 1) with (count c0 + -1) by lia.
      rewrite IH, int64_wrap_add_l. f_equal; lia.
Qed.

Lemma count_is_calls_balance_witness :
  count overdrawn_state = int64_wrap (balance overdrawn_ms)
  ∧ count overdrawn_state = -1 ∧ size (members overdrawn_state) = 1%nat.
Proof.
  split; [|split; vm_compute; reflexivity].
  apply (count_is_calls_balance overdrawn_ms overdrawn_state).
  - repeat constructor.
  - vm_compute. reflexivity.
Defined.

(** ** The division in [updateSortedHashes] *)

(** X9.  [NumberOfReplicas] is an exported field, and
    [updateSortedHashes] divides by [NumberOfReplicas * 4]: when the field
    is 0, [Add] and [Remove] panic with a division by zero, and for every
    other value (of less than 62 bits) they return. *)
Theorem zero_replicas_panic c elt :
  - 2 ^ 61 < NumberOfReplicas c < 2 ^ 61 →
  (Add elt c = Panic ↔ NumberOfReplicas c = 0)
  ∧ (Remove elt c = Panic ↔ NumberOfReplicas c = 0)
  ∧ (NumberOfReplicas c ≠ 0 →
     (∃ c', Add elt c = Done c') ∧ ∃ c', Remove elt c = Done c').
Proof.
  intros HN.
  assert (int64_wrap (NumberOfReplicas c * 4) = NumberOfReplicas c * 4) as Hw
    by (apply int64_wrap_small; lia).
  unfold Add, Remove, add, remove, updateSortedHashes. cbn [NumberOfReplicas].
  rewrite Hw.
  destruct (Z.eqb_spec (NumberOfReplicas c * 4) 0) as [H0|H0]; cbn [mbind outcome_bind].
  - split; [|split]; [split; [lia|done]..|lia].
  - split; [|split]; [split; [done|lia]..|eauto].
Qed.

Lemma zero_replicas_panic_witness :
  (Add "abcdefg" no_replicas = Panic ↔ NumberOfReplicas no_replicas = 0)
  ∧ (Remove "abcdefg" no_replicas = Panic ↔ NumberOfReplicas no_replicas = 0)
  ∧ (NumberOfReplicas no_replicas ≠ 0 →
     (∃ c', Add "abcdefg" no_replicas = Done c')
     ∧ ∃ c', Remove "abcdefg" no_replicas = Done c').
Proof. apply zero_replicas_panic. vm_compute. split; reflexivity. Defined.

(** ** The order of the calls *)

(** X10.  Removals commute: removing two nodes in either order gives the
    same state (or the same panic), on every ring state. *)
Theorem Remove_commutes c a b :
  (c1 ← Remove a c; Remove b c1) = (c2 ← Remove b c; Remove a c2).
Proof. apply remove_comm. Qed.

(** X11.  Additions commute when the two nodes share no position: adding
    them in either order gives the same state, so a ring without colliding
    replicas does not depend on the order in which its nodes were added. *)
Theorem Add_commutes c a b :
  Forall (λ h, h ∉ replicaHashes c b) (replicaHashes c a) →
  (c1 ← Add a c; Add b c1) = (c2 ← Add b c; Add a c2).
Proof.
  intros Hdisj. unfold Add. rewrite Forall_forall in Hdisj.
  destruct (decide (a = b)) as [->|Hab]; [done|].
  destruct (decide (replicas_ok c)) as [Hok|Hnok].
  - destruct (add a c) as [c1| |] eqn:H1; [|by rewrite add_Done in H1..].
    destruct (add b c) as [c2| |] eqn:H2; [|by rewrite add_Done in H2..].
    cbn [mbind outcome_bind].
    destruct (add_inv _ _ _ H1) as (_ & HN1 & HF1 & Hc1 & Hm1 & Hcnt1).
    destruct (add_inv _ _ _ H2) as (_ & HN2 & HF2 & Hc2 & Hm2 & Hcnt2).
    destruct (add b c1) as [c12| |] eqn:H12;
      [|rewrite add_Done in H12; [done | unfold replicas_ok; by rewrite HN1]..].
    destruct (add a c2) as [c21| |] eqn:H21;
      [|rewrite add_Done in H21; [done | unfold replicas_ok; by rewrite HN2]..].
    destruct (add_inv _ _ _ H12) as (Hwf12 & HN12 & HF12 & Hc12 & Hm12 & Hcnt12).
    destruct (add_inv _ _ _ H21) as (Hwf21 & HN21 & HF21 & Hc21 & Hm21 & Hcnt21).
    rewrite (replicaHashes_cong c c1) in Hc12 by done.
    rewrite (replicaHashes_cong c c2) in Hc21 by done.
    assert (circle c12 = circle c21) as Hcc.
    { rewrite Hc12, Hc21, Hc1, Hc2. apply map_eq. intros k.
      rewrite !lookup_foldl_insert.
      destruct (decide (k ∈ replicaHashes c b)) as [Hb|Hb],
               (decide (k ∈ replicaHashes c a)) as [Ha|Ha]; try done.
      by destruct (Hdisj k Ha). }
    f_equal. apply Consistent_eq; [done| | |congruence|congruence|congruence].
    + rewrite Hm12, Hm21, Hm1, Hm2. by apply insert_insert_ne.
    + unfold wf in Hwf12, Hwf21. by rewrite Hwf12, Hwf21, Hcc.
  - unfold add, updateSortedHashes. cbn [NumberOfReplicas].
    unfold replicas_ok in Hnok.
    destruct (Z.eqb_spec (int64_wrap (NumberOfReplicas c * 4)) 0); [done|].
    by destruct Hnok.
Qed.

Lemma Add_commutes_witness :
  (c1 ← Add "abcdefg" New; Add "hijklmn" c1) = (c2 ← Add "hijklmn" New; Add "abcdefg" c2).
Proof. apply Add_commutes. apply (bool_decide_unpack _). vm_compute. exact I. Defined.

(** ** Adding a node and removing it again *)

Lemma Set_preserves (P : Consistent → Prop) :
  (∀ c k c', P c → add k c = Done c' → P c') →
  (∀ c k c', P c → remove k c = Done c' → P c') →
  ∀ elts c c', P c → Set_ elts c = Done c' → P c'.
Proof.
  intros Hadd Hrm elts c c' HP. unfold Set_, Set_ordered.
  generalize (map_to_list (members c)).*1. intros ks HSet.
  destruct (foldl (Set_remove elts) (Done c) ks) as [c1| |] eqn:Hfold;
    [|by apply Set_add_failed in HSet..].
  assert (P c1) as HP1.
  { clear HSet. revert c HP Hfold. induction ks as [|k ks IH]; intros c HP Hfold;
      simpl in Hfold; [by simplify_eq|].
    destruct (existsb _ elts); cbn [negb] in Hfold; [by eapply IH|].
    destruct (remove k c) as [c2| |] eqn:Hr; [|by apply Set_remove_failed in Hfold..].
    eapply (IH c2); [by eapply Hrm|done]. }
  clear Hfold HP c. revert c1 HP1 HSet.
  induction elts as [|v elts IH]; intros c HP HSet; simpl in HSet; [by simplify_eq|].
  destruct (bool_decide _); [by eapply IH|].
  destruct (add v c) as [c2| |] eqn:Ha; [|by apply Set_add_failed in HSet..].
  eapply (IH c2); [by eapply Hadd|done].
Qed.

Lemma run_count_range ms c : run ms = Done c → - 2 ^ 63 ≤ count c < 2 ^ 63.
Proof.
  revert c. induction ms as [|m ms IH] using rev_ind; intros c Hrun.
  - injection Hrun as <-. simpl. lia.
  - destruct (run_inv ms) as (c0 & Hrun0 & _).
    rewrite (run_snoc ms m c0 Hrun0) in Hrun. specialize (IH c0 Hrun0).
    destruct m as [elt|elt|elts]; simpl in Hrun.
    + destruct (add_inv _ _ _ Hrun) as (_ & _ & _ & _ & _ & ->). apply int64_wrap_range.
    + destruct (remove_inv _ _ _ Hrun) as (_ & _ & _ & _ & _ & ->). apply int64_wrap_range.
    + eapply (Set_preserves (λ c, - 2 ^ 63 ≤ count c < 2 ^ 63)); [| |exact IH|exact Hrun].
      * intros c1 k c2 _ Ha.
        destruct (add_inv _ _ _ Ha) as (_ & _ & _ & _ & _ & ->). apply int64_wrap_range.
      * intros c1 k c2 _ Hr.
        destruct (remove_inv _ _ _ Hr) as (_ & _ & _ & _ & _ & ->). apply int64_wrap_range.
Qed.

(** X12.  Round trip: on every ring built by mutations from a fresh one,
    adding a node that is not a member and whose replica positions are
    all free, and then removing it, gives back the ring as it was, field
    by field (generalising [TestRemove]). *)
Theorem Add_then_Remove_restores ms c elt :
  run ms = Done c → members c !! elt = None →
  Forall (λ h, circle c !! h = None) (replicaHashes c elt) →
  ∃ c1, Add elt c = Done c1 ∧ Remove elt c1 = Done c.
Proof.
  intros Hrun Hm Hfree. rewrite Forall_forall in Hfree.
  pose proof (run_Done_inv ms c Hrun) as Hinv. pose proof (inv_wf c Hinv) as Hwf.
  destruct (add_preserves_inv c elt Hinv) as (c1 & Hadd & Hinv1).
  destruct (remove_preserves_inv c1 elt Hinv1) as (c2 & Hrm & Hinv2).
  exists c1. split; [done|]. unfold Remove. rewrite Hrm. f_equal.
  destruct (add_inv _ _ _ Hadd) as (_ & HN1 & HF1 & _ & Hm1 & Hcnt1).
  destruct (remove_inv _ _ _ Hrm) as (Hwf2 & HN2 & HF2 & _ & Hm2 & Hcnt2).
  assert (circle c2 = circle c) as Hcc.
  { apply map_eq. intros k.
    rewrite (remove_lookup c1 elt c2 k Hrm), (replicaHashes_cong c c1) by done.
    rewrite (add_lookup c elt c1 k Hadd).
    destruct (decide (k ∈ replicaHashes c elt)) as [Hin|Hnin]; [|done].
    symmetry. by apply Hfree. }
  apply Consistent_eq; [done| | |congruence|
                        |congruence].
  - rewrite Hm2, Hm1. by apply delete_insert_id.
  - unfold wf in Hwf, Hwf2. by rewrite Hwf2, Hwf, Hcc.
  - rewrite Hcnt2, Hcnt1. replace (int64_wrap (count c + 1) - 1)
      with (int64_wrap (count c + 1) + -1) by lia.
    rewrite int64_wrap_add_l. replace (count c + 1 + -1) with (count c) by lia.
    apply int64_wrap_small. by eapply run_count_range.
Qed.

Lemma Add_then_Remove_restores_witness :
  ∃ c1, Add "vwxyz" ring3_state = Done c1 ∧ Remove "vwxyz" c1 = Done ring3_state.
Proof.
  apply (Add_then_Remove_restores ring3_ms ring3_state "vwxyz").
  - exact ring3_run.
  - vm_compute. reflexivity.
  - apply (bool_decide_unpack _). vm_compute. exact I.
Defined.

(** ** The size of the circle *)

Lemma length_bind_const {A B} (f : A → list B) (n : nat) (l : list A) :
  (∀ x, length (f x) = n) → length (l ≫= f) = (n * length l)%nat.
Proof.
  intros Hf. induction l as [|x l IH]; [simpl; lia|].
  rewrite bind_cons, length_app, Hf, IH. simpl. lia.
Qed.

(** X13.  A ring never holds more than twenty positions per member: on
    every ring built by mutations from a fresh one, [sortedHashes] has one
    entry per position of the circle, and their number is at most
    [20 * len(members)] (it is less when replicas collide). *)
Theorem circle_size_bound ms :
  ∃ c, run ms = Done c ∧ length (sortedHashes c) = size (circle c)
       ∧ (size (circle c) ≤ 20 * size (members c))%nat.
Proof.
  destruct (run_inv ms) as (c & Hrun & Hinv). pose proof (inv_wf c Hinv) as Hwf.
  exists c. split; [done|]. split; [by apply wf_length|].
  rewrite <- (wf_length c Hwf), <- (length_map_to_list (members c)), <- (length_fmap fst).
  fold (Members c).
  rewrite <- (length_bind_const (replicaHashes c) 20 (Members c)).
  - apply submseteq_length, NoDup_submseteq.
    + by apply StronglySorted_lt_NoDup, wf_strict.
    + intros h Hh. apply (wf_elem_of c h Hwf) in Hh as [e He].
      destruct (inv_owned c Hinv h e He) as [Hmem Hin].
      apply list_elem_of_bind. exists e. split; [done|]. by apply elem_of_Members.
  - intros x. rewrite length_replicaHashes, (inv_replicas c Hinv). done.
Qed.

(** ** Panics and results of the lookups *)

Section lookups.
Variable c : Consistent.
Hypothesis Hwf : wf c.
Hypothesis Hne : sortedHashes c ≠ [].

Lemma wrap_index_lt (n i : nat) :
  n = length (sortedHashes c) →
  ((if (n <=? i)%nat then 0%nat else i) < length (sortedHashes c))%nat.
Proof.
  intros ->. destruct (Nat.leb_spec (length (sortedHashes c)) i); [|done].
  destruct (sortedHashes c); [done | simpl; lia].
Qed.

(** The walk of [GetTwo] indexes inside the slice, and what it returns
    is the value it started with or an occupant of the circle. *)
Lemma GetTwo_loop_result a start : ∀ fuel i b,
  GetTwo_loop fuel c a start i b = OutOfFuel
  ∨ ∃ b', GetTwo_loop fuel c a start i b = Done b' ∧ (b' = b ∨ b' ∈ owners c).
Proof.
  induction fuel as [|fuel IH]; intros i b; [by left|]. cbn [GetTwo_loop].
  destruct (Nat.eqb_spec i start) as [_|_]; [right; eauto|].
  set (k := if (size (circle c) <=? i)%nat then 0%nat else i).
  destruct (lookup_lt_is_Some_2 (sortedHashes c) k) as [h Hh].
  { apply wrap_index_lt. by rewrite wf_length. }
  rewrite (at_index_Some c k h Hh). cbn [mbind outcome_bind].
  case_bool_decide.
  - right. eexists. split; [done|]. right. by eapply owners_lookup.
  - destruct (IH (k + 1)%nat (occupant c h)) as [->|(b' & -> & [->|Hb'])]; [by left|..].
    + right. eexists. split; [done|]. right. by eapply owners_lookup.
    + right. eauto.
Qed.

(** The walk of [GetN] indexes inside the slice as well; it only ever
    appends occupants that are not in the result yet. *)
Lemma GetN_loop_result n start : ∀ fuel i res,
  NoDup res → (∀ x, x ∈ res → x ∈ owners c) →
  GetN_loop fuel c n start i res = OutOfFuel
  ∨ ∃ res', GetN_loop fuel c n start i res = Done res'
            ∧ NoDup res' ∧ (∀ x, x ∈ res' → x ∈ owners c) ∧ res `prefix_of` res'.
Proof.
  induction fuel as [|fuel IH]; intros i res Hnd Hsub; [by left|]. cbn [GetN_loop].
  destruct (Nat.eqb_spec i start) as [_|_]; [right; eauto|].
  set (k := if (length (sortedHashes c) <=? i)%nat then 0%nat else i).
  destruct (lookup_lt_is_Some_2 (sortedHashes c) k) as [h Hh].
  { by apply wrap_index_lt. }
  rewrite (at_index_Some c k h Hh). cbn [mbind outcome_bind].
  fold (visit res (occupant c h)).
  destruct (visit_collected c (λ _, False) res k h) as (Hnd' & Hsub' & _);
    [by split; [|split]|done|].
  pose proof (visit_prefix res (occupant c h)) as Hpre.
  destruct (Z.eqb_spec (Z.of_nat (length (visit res (occupant c h)))) n) as [_|_].
  - right. eauto.
  - destruct (IH (k + 1)%nat _ Hnd' Hsub') as [->|(res' & -> & ? & ? & ?)]; [by left|].
    right. exists res'. repeat split; try done. by etrans.
Qed.
End lookups.

Lemma GetN_clamp_neg n cnt : (if cnt <? n then cnt else n) < 0 ↔ n < 0 ∨ cnt < 0.
Proof. destruct (Z.ltb_spec cnt n); lia. Qed.

(** X14.  Panics of the lookups.  On every ring built by mutations from a
    fresh one, [Get] and [GetTwo] never panic, and [GetN] panics in one
    case only: the ring has positions and [n] or [count] is negative, so
    that [make([]string, 0, n)] gets a negative capacity.  ([count] is
    negative after more [Remove] than [Add] calls.) *)
Theorem lookups_panic ms c name :
  run ms = Done c →
  Get c name ≠ Panic
  ∧ (∀ fuel, GetTwo fuel c name ≠ Panic)
  ∧ (∀ fuel n, GetN fuel c name n = Panic
               ↔ size (circle c) ≠ 0%nat ∧ (n < 0 ∨ count c < 0)).
Proof.
  intros Hrun. apply run_Done_inv in Hrun as Hinv. pose proof (inv_wf c Hinv) as Hwf.
  destruct (decide (circle c = ∅)) as [Hc|Hc].
  { rewrite (Get_empty c name Hc). split; [done|]. split.
    - intros fuel. by rewrite (GetTwo_empty fuel c name Hc).
    - intros fuel n. rewrite (GetN_empty fuel c name n Hc).
      split; [done|]. intros [Hsz _]. by rewrite Hc, map_size_empty in Hsz. }
  pose proof (wf_nonempty c Hwf Hc) as Hne.
  destruct (Get_successor c name Hwf Hc) as (p & Hp & _ & HG).
  split; [by rewrite HG|]. split.
  - intros fuel. unfold GetTwo. rewrite size_circle_eqb, bool_decide_eq_false_2 by done.
    rewrite (at_index_Some c _ p Hp). cbn [mbind outcome_bind].
    destruct (count c =? 1); [done|].
    by destruct (GetTwo_loop_result c Hwf Hne (occupant c p) (search c (hashKey c name))
                   fuel (search c (hashKey c name) + 1)%nat "") as [->|(b' & -> & _)].
  - intros fuel n. unfold GetN. rewrite size_circle_eqb, bool_decide_eq_false_2 by done.
    rewrite <- GetN_clamp_neg.
    destruct (Z.ltb_spec (if count c <? n then count c else n) 0) as [Hneg|Hpos].
    + split; [|done]. intros _. split; [|done].
      intros Hsz. by apply map_size_empty_inv in Hsz.
    + rewrite (at_index_Some c _ p Hp). cbn [mbind outcome_bind].
      split; [|lia].
      by destruct (GetN_loop_result c Hne (if count c <? n then count c else n)
                     (search c (hashKey c name)) fuel (search c (hashKey c name) + 1)%nat
                     [occupant c p] (NoDup_singleton _)
                     ltac:(intros x ->%list_elem_of_singleton; by eapply owners_lookup))
        as [->|(res' & -> & _)].
Qed.

Lemma lookups_panic_witness :
  Get overdrawn_state "ggg" ≠ Panic
  ∧ (∀ fuel, GetTwo fuel overdrawn_state "ggg" ≠ Panic)
  ∧ (∀ fuel n, GetN fuel overdrawn_state "ggg" n = Panic
               ↔ size (circle overdrawn_state) ≠ 0%nat
                 ∧ (n < 0 ∨ count overdrawn_state < 0)).
Proof.
  apply (lookups_panic overdrawn_ms overdrawn_state "ggg"). vm_compute. reflexivity.
Defined.

(** X15.  What the lookups return.  On every populated ring built by
    mutations from a fresh one, [Get] returns a member; whenever [GetTwo]
    returns, its first node is the one [Get] returns and its second node
    is empty or a member; whenever [GetN] returns, for any [n], its
    result starts with the node [Get] returns and consists of members
    without repetition. *)
Theorem lookups_return_members ms c name :
  run ms = Done c → size (circle c) ≠ 0%nat →
  ∃ a, Get c name = Done (a, None) ∧ is_Some (members c !! a)
    ∧ (∀ fuel a' b e, GetTwo fuel c name = Done (a', b, e) →
         a' = a ∧ e = None ∧ (b = "" ∨ is_Some (members c !! b)))
    ∧ (∀ fuel n res e, GetN fuel c name n = Done (res, e) →
         e = None ∧ head res = Some a ∧ NoDup res
         ∧ Forall (λ x, is_Some (members c !! x)) res).
Proof.
  intros Hrun Hsz. apply run_Done_inv in Hrun as Hinv. pose proof (inv_wf c Hinv) as Hwf.
  pose proof (size_ne_0_nonempty c Hsz) as Hc.
  pose proof (wf_nonempty c Hwf Hc) as Hne.
  destruct (Get_successor c name Hwf Hc) as (p & Hp & _ & HG).
  pose proof (owners_lookup c _ p Hp) as Ha.
  exists (occupant c p). split; [done|]. split; [by apply owners_members|]. split.
  - intros fuel a' b e. unfold GetTwo.
    rewrite size_circle_eqb, bool_decide_eq_false_2 by done.
    rewrite (at_index_Some c _ p Hp). cbn [mbind outcome_bind].
    destruct (count c =? 1); [intros [= <- <- <-]; auto|].
    destruct (GetTwo_loop_result c Hwf Hne (occupant c p) (search c (hashKey c name))
                fuel (search c (hashKey c name) + 1)%nat "") as [->|(b' & -> & Hb')];
      cbn [mbind outcome_bind]; [done|].
    intros [= <- <- <-]. split; [done|]. split; [done|].
    destruct Hb' as [->|Hb']; [by left|]. right. by apply owners_members.
  - intros fuel n res e. unfold GetN.
    rewrite size_circle_eqb, bool_decide_eq_false_2 by done.
    destruct (_ <? 0); [done|].
    rewrite (at_index_Some c _ p Hp). cbn [mbind outcome_bind].
    destruct (GetN_loop_result c Hne (if count c <? n then count c else n)
                (search c (hashKey c name)) fuel (search c (hashKey c name) + 1)%nat
                [occupant c p] (NoDup_singleton _)
                ltac:(by intros x ->%list_elem_of_singleton))
      as [->|(res' & -> & Hnd & Hsub & Hpre)]; cbn [mbind outcome_bind]; [done|].
    intros [= <- <-]. split; [done|]. split; [by destruct Hpre as [l ->]|].
    split; [done|]. apply Forall_forall. intros x Hx. by apply owners_members, Hsub.
Qed.

Lemma lookups_return_members_witness :
  ∃ a, Get ring3_state "ggg" = Done (a, None) ∧ is_Some (members ring3_state !! a)
    ∧ (∀ fuel a' b e, GetTwo fuel ring3_state "ggg" = Done (a', b, e) →
         a' = a ∧ e = None ∧ (b = "" ∨ is_Some (members ring3_state !! b)))
    ∧ (∀ fuel n res e, GetN fuel ring3_state "ggg" n = Done (res, e) →
         e = None ∧ head res = Some a ∧ NoDup res
         ∧ Forall (λ x, is_Some (members ring3_state !! x)) res).
Proof.
  apply (lookups_return_members ring3_ms ring3_state "ggg");
    [exact ring3_run | vm_compute; lia].
Defined.

(** ** The iteration order of [Set] *)

(** X16.  The first loop of [Set] ranges over the map [members], in an
    order Go leaves unspecified: whatever the order in which the members
    are visited, the resulting state is the same. *)
Theorem Set_iteration_order_irrelevant ks elts c :
  ks ≡ₚ Members c → Set_ordered ks elts c = Set_ elts c.
Proof. intros Hperm. unfold Set_. fold (Members c). by apply Set_order_irrelevant. Qed.

Lemma Set_iteration_order_irrelevant_witness :
  Set_ordered ["abcdefg"; "hijklmn"; "opqrstu"] ["vwxyz"; "hijklmn"] ring3_state
  = Set_ ["vwxyz"; "hijklmn"] ring3_state.
Proof.
  apply Set_iteration_order_irrelevant. apply (bool_decide_unpack _). vm_compute. exact I.
Defined.

(** ** Membership *)

Lemma member_after_snoc x ms m :
  member_after x (ms ++ [m])
  = match m with
    | MAdd e => if bool_decide (x = e) then true else member_after x ms
    | MRemove e => if bool_decide (x = e) then false else member_after x ms
    | MSet elts => bool_decide (x ∈ elts)
    end.
Proof. unfold member_after. by rewrite foldl_app. Qed.

(** X17.  The members are what the calls say: after any sequence of
    [Add], [Remove] and [Set] calls on a fresh ring, a node is listed by
    [Members] if and only if the last call that concerns it put it in
    ([Add] of the node, or [Set] with a list that has it). *)
Theorem members_track_calls ms :
  ∃ c, run ms = Done c ∧ ∀ x, x ∈ Members c ↔ member_after x ms = true.
Proof.
  induction ms as [|m ms IH] using rev_ind.
  - exists New. split; [done|]. intros x. rewrite elem_of_Members. simpl.
    rewrite lookup_empty. split; [by intros [? ?]|done].
  - destruct IH as (c & Hrun & Hm). pose proof (run_Done_inv ms c Hrun) as Hinv.
    rewrite (run_snoc ms m c Hrun).
    destruct m as [e|e|elts]; simpl.
    + destruct (add_preserves_inv c e Hinv) as (c' & Hadd & _).
      exists c'. split; [done|]. intros x. rewrite member_after_snoc, elem_of_Members.
      destruct (add_inv _ _ _ Hadd) as (_ & _ & _ & _ & -> & _).
      case_bool_decide as Hx.
      * subst x. rewrite lookup_insert_eq. split; [done|eauto].
      * rewrite lookup_insert_ne by done. by rewrite <- Hm, elem_of_Members.
    + destruct (remove_preserves_inv c e Hinv) as (c' & Hrm & _).
      exists c'. split; [done|]. intros x. rewrite member_after_snoc, elem_of_Members.
      destruct (remove_inv _ _ _ Hrm) as (_ & _ & _ & _ & -> & _).
      case_bool_decide as Hx.
      * subst x. rewrite lookup_delete_eq. split; [by intros [? ?]|done].
      * rewrite lookup_delete_ne by done. by rewrite <- Hm, elem_of_Members.
    + destruct (Set_members c elts Hinv) as (c' & HSet & _ & Hm').
      exists c'. split; [done|]. intros x. rewrite member_after_snoc, elem_of_Members, Hm'.
      by rewrite bool_decide_eq_true.
Qed.

(** ** Replica keys shared by two nodes *)

Lemma Itoa_two_digits d : 0 ≤ d ≤ 9 → Itoa (10 + d) = "1" +:+ Itoa d.
Proof.
  intros Hd.
  assert (d = 0 ∨ d = 1 ∨ d = 2 ∨ d = 3 ∨ d = 4 ∨ d = 5 ∨ d = 6 ∨ d = 7 ∨ d = 8 ∨ d = 9)
    as Hcases by lia.
  repeat (destruct Hcases as [->|Hcases]; [reflexivity|]). by subst d.
Qed.

Lemma append_assoc (s1 s2 s3 : string) : (s1 +:+ s2) +:+ s3 = s1 +:+ (s2 +:+ s3).
Proof.
  induction s1 as [|a s1 IH]; [done|].
  change (String a ((s1 +:+ s2) +:+ s3) = String a (s1 +:+ (s2 +:+ s3))).
  by rewrite IH.
Qed.

(** X18.  [eltKey] puts the replica index before the node name with
    nothing in between, so the keys of two nodes can be the same string:
    replica 1 of the node ["d" + elt], for a digit [d], has the key of
    replica [10 + d] of the node [elt].  On every ring built by mutations
    from a fresh one, when both nodes are added, that position of [elt] is
    held by the node added last. *)
Theorem eltKey_overlap ms c elt d :
  0 ≤ d ≤ 9 → run ms = Done c →
  eltKey (Itoa d +:+ elt) 1 = eltKey elt (10 + d)
  ∧ hashKey c (eltKey elt (10 + d)) ∈ replicaHashes c elt
  ∧ ∃ c1 c2, Add elt c = Done c1 ∧ Add (Itoa d +:+ elt) c1 = Done c2
      ∧ circle c2 !! hashKey c (eltKey elt (10 + d)) = Some (Itoa d +:+ elt).
Proof.
  intros Hd Hrun. pose proof (run_Done_inv ms c Hrun) as Hinv.
  assert (eltKey (Itoa d +:+ elt) 1 = eltKey elt (10 + d)) as Hkey.
  { unfold eltKey. by rewrite (Itoa_two_digits d Hd), append_assoc. }
  split; [done|]. split.
  { unfold replicaHashes. apply list_elem_of_fmap. exists (10 + d). split; [done|].
    apply elem_of_seqZ. rewrite (inv_replicas c Hinv). lia. }
  destruct (add_preserves_inv c elt Hinv) as (c1 & Hadd1 & Hinv1).
  destruct (add_preserves_inv c1 (Itoa d +:+ elt) Hinv1) as (c2 & Hadd2 & _).
  exists c1, c2. split; [done|]. split; [done|].
  rewrite (add_lookup c1 (Itoa d +:+ elt) c2 _ Hadd2). rewrite decide_True; [done|].
  destruct (add_inv _ _ _ Hadd1) as (_ & _ & HF & _).
  unfold replicaHashes. apply list_elem_of_fmap. exists 1.
  split; [by rewrite Hkey, (hashKey_cong c c1)|].
  apply elem_of_seqZ. rewrite (inv_replicas c1 Hinv1). lia.
Qed.

Lemma eltKey_overlap_witness :
  eltKey "10" 1 = eltKey "0" 11
  ∧ hashKey New (eltKey "0" 11) ∈ replicaHashes New "0"
  ∧ ∃ c1 c2, Add "0" New = Done c1 ∧ Add "10" c1 = Done c2
      ∧ circle c2 !! hashKey New (eltKey "0" 11) = Some "10".
Proof. apply (eltKey_overlap [] New "0" 1); [lia | reflexivity]. Defined.

(** ** Rings that hash with FNV *)

Lemma apply_mutation_UseFnv c m c' :
  apply_mutation c m = Done c' → UseFnv c' = UseFnv c.
Proof.
  destruct m as [e|e|elts]; simpl; intros H.
  - by destruct (add_inv _ _ _ H) as (_ & _ & ? & _).
  - by destruct (remove_inv _ _ _ H) as (_ & _ & ? & _).
  - eapply (Set_preserves (λ c0, UseFnv c0 = UseFnv c)); [| |done|exact H].
    + intros c1 k c2 <- Ha. by destruct (add_inv _ _ _ Ha) as (_ & _ & ? & _).
    + intros c1 k c2 <- Hr. by destruct (remove_inv _ _ _ Hr) as (_ & _ & ? & _).
Qed.

Lemma run_from_inv c0 ms :
  inv c0 → ∃ c, run_from c0 ms = Done c ∧ inv c ∧ UseFnv c = UseFnv c0.
Proof.
  intros Hinv0. unfold run_from. induction ms as [|m ms IH] using rev_ind; simpl.
  - eauto.
  - rewrite foldl_app. simpl. destruct IH as (c & -> & Hinv & HF).
    destruct (apply_mutation_preserves_inv c m Hinv) as (c' & Happ & Hinv').
    exists c'. split; [done|]. split; [done|].
    by rewrite (apply_mutation_UseFnv c m c' Happ).
Qed.

Lemma inv_NewFnv : inv NewFnv.
Proof.
  split; [unfold wf; simpl; by rewrite map_to_list_empty | done |].
  intros h e Hh. simpl in Hh. by rewrite lookup_empty in Hh.
Qed.

(** X19.  The hash is chosen by the exported field [UseFnv], which no
    operation changes: on a ring made with [UseFnv = true], every sequence
    of mutations succeeds and keeps the field; keys are then hashed with
    FNV-1a, the positions are strictly ascending, and [Get] serves a key
    from the successor of its FNV hash, held by a member. *)
Theorem UseFnv_ring ms name :
  ∃ c, run_from NewFnv ms = Done c ∧ UseFnv c = true
    ∧ hashKey c name = Sum32a (bytes name)
    ∧ StronglySorted Z.lt (sortedHashes c)
    ∧ (size (circle c) ≠ 0%nat →
       ∃ p, successor (sortedHashes c) (Sum32a (bytes name)) p
            ∧ Get c name = Done (occupant c p, None)
            ∧ is_Some (members c !! occupant c p)).
Proof.
  destruct (run_from_inv NewFnv ms inv_NewFnv) as (c & Hrun & Hinv & HF).
  pose proof (inv_wf c Hinv) as Hwf. simpl in HF.
  assert (hashKey c name = Sum32a (bytes name)) as Hkey
    by (unfold hashKey; by rewrite HF).
  exists c. split; [done|]. split; [done|]. split; [done|].
  split; [by apply wf_strict|]. intros Hsz.
  destruct (Get_successor c name Hwf (size_ne_0_nonempty c Hsz)) as (p & Hp & Hsucc & HG).
  exists p. rewrite <- Hkey. split; [done|]. split; [done|].
  by eapply owners_members, owners_lookup.
Qed.

(** ** When [GetTwo] returns *)

Section same_owner.
Variable c : Consistent.
Hypothesis Hwf : wf c.
Variable a : string.
Hypothesis Hall : ∀ x, x ∈ owners c → x = a.
Variable start : nat.
Hypothesis Hstart : (start < length (sortedHashes c))%nat.

(** When one node holds every position, the walk goes on to [start]. *)
Lemma GetTwo_loop_same_second : ∀ fuel i b,
  (i ≤ start)%nat → (start - i < fuel)%nat →
  ∃ b', GetTwo_loop fuel c a start i b = Done b'.
Proof.
  induction fuel as [|fuel IH]; intros i b Hi Hfuel; [lia|]. cbn [GetTwo_loop].
  destruct (Nat.eqb_spec i start) as [_|Hne]; [eauto|].
  rewrite <- (wf_length c Hwf).
  destruct (Nat.leb_spec (length (sortedHashes c)) i) as [?|_]; [lia|].
  destruct (lookup_lt_is_Some_2 (sortedHashes c) i) as [h Hh]; [lia|].
  rewrite (at_index_Some c i h Hh). cbn [mbind outcome_bind].
  rewrite (Hall _ (owners_lookup c i h Hh)).
  rewrite bool_decide_eq_false_2 by (by intros ?). apply IH; lia.
Qed.

Lemma GetTwo_loop_same_first : start ≠ 0%nat → ∀ fuel i b,
  (start < i ≤ length (sortedHashes c))%nat →
  (length (sortedHashes c) - i + start + 1 < fuel)%nat →
  ∃ b', GetTwo_loop fuel c a start i b = Done b'.
Proof.
  intros Hs0. induction fuel as [|fuel IH]; intros i b Hi Hfuel; [lia|].
  cbn [GetTwo_loop].
  destruct (Nat.eqb_spec i start) as [?|_]; [lia|].
  rewrite <- (wf_length c Hwf).
  destruct (Nat.leb_spec (length (sortedHashes c)) i) as [Hge|Hlt].
  - destruct (lookup_lt_is_Some_2 (sortedHashes c) 0) as [h Hh]; [lia|].
    rewrite (at_index_Some c 0 h Hh). cbn [mbind outcome_bind].
    rewrite (Hall _ (owners_lookup c 0 h Hh)).
    rewrite bool_decide_eq_false_2 by (by intros ?).
    apply GetTwo_loop_same_second; lia.
  - destruct (lookup_lt_is_Some_2 (sortedHashes c) i) as [h Hh]; [lia|].
    rewrite (at_index_Some c i h Hh). cbn [mbind outcome_bind].
    rewrite (Hall _ (owners_lookup c i h Hh)).
    rewrite bool_decide_eq_false_2 by (by intros ?). apply IH; lia.
Qed.
End same_owner.

(** X20.  When [GetTwo] returns.  On every populated ring built by
    mutations from a fresh one, [GetTwo] returns for a key, within one
    pass over the positions, in all cases but one: a single node holds
    every position, [count] is not 1, and the key is served from index 0.
    In that case the loop never meets its exit test and the call does not
    return. *)
Theorem GetTwo_returns_iff ms c name :
  run ms = Done c → size (circle c) ≠ 0%nat →
  ((∃ r, GetTwo (S (S (size (circle c)))) c name = Done r)
   ↔ ¬ (count c ≠ 1 ∧ length (distinctNodes c) = 1%nat
        ∧ search c (hashKey c name) = 0%nat))
  ∧ (count c ≠ 1 ∧ length (distinctNodes c) = 1%nat
     ∧ search c (hashKey c name) = 0%nat →
     ∀ fuel, GetTwo fuel c name = OutOfFuel).
Proof.
  intros Hrun Hsz. apply run_Done_inv in Hrun as Hinv. pose proof (inv_wf c Hinv) as Hwf.
  pose proof (size_ne_0_nonempty c Hsz) as Hc.
  assert (count c ≠ 1 ∧ length (distinctNodes c) = 1%nat
          ∧ search c (hashKey c name) = 0%nat →
          ∀ fuel, GetTwo fuel c name = OutOfFuel) as Hspin.
  { intros (H1 & H2 & H3). by apply GetTwo_never_returns. }
  split; [|done]. split.
  - intros [r Hr] Hbad. by rewrite (Hspin Hbad) in Hr.
  - intros Hgood.
    destruct (Get_successor c name Hwf Hc) as (p & Hp & _ & _).
    pose proof (lookup_lt_Some _ _ _ Hp) as Hstart.
    pose proof (wf_length c Hwf) as Hlen.
    unfold GetTwo. rewrite size_circle_eqb, bool_decide_eq_false_2 by done.
    rewrite (at_index_Some c _ p Hp). cbn [mbind outcome_bind].
    destruct (Z.eqb_spec (count c) 1) as [?|Hcount]; [eauto|].
    set (start := search c (hashKey c name)) in *.
    destruct (decide (length (distinctNodes c) = 1%nat)) as [Hone|Hmany].
    + assert (start ≠ 0%nat) as Hs0 by (intros ?; by apply Hgood).
      destruct (GetTwo_loop_same_first c Hwf (occupant c p)
                  ltac:(intros x Hx; eapply distinctNodes_single;
                        [done|by eapply owners_lookup|done])
                  start Hstart Hs0 (S (S (size (circle c)))) (start + 1)%nat "")
        as [b' ->]; [lia|lia|]. eauto.
    + pose proof (distinctNodes_pos c _ (owners_lookup c _ p Hp)).
      destruct (GetTwo_loop_differs c Hwf (occupant c p) start p (S (S (size (circle c))))
                  Hp eq_refl ltac:(lia) ltac:(lia)) as (b & -> & _). eauto.
Qed.

Lemma GetTwo_returns_iff_witness :
  ((∃ r, GetTwo (S (S (size (circle double_state)))) double_state "g" = Done r)
   ↔ ¬ (count double_state ≠ 1 ∧ length (distinctNodes double_state) = 1%nat
        ∧ search double_state (hashKey double_state "g") = 0%nat))
  ∧ (count double_state ≠ 1 ∧ length (distinctNodes double_state) = 1%nat
     ∧ search double_state (hashKey double_state "g") = 0%nat →
     ∀ fuel, GetTwo fuel double_state "g" = OutOfFuel).
Proof.
  apply (GetTwo_returns_iff double_ms double_state "g");
    [vm_compute; reflexivity | vm_compute; lia].
Defined.

(** ** The property tests, for every key *)

(** X30.  [TestGetMultipleQuick] and [TestGetTwoQuick] hold for every key,
    not only for the keys [quick.Check] draws: on the ring of the three
    nodes of the tests, [Get] returns one of the three nodes, and [GetTwo]
    returns two different nodes among the three. *)
Theorem quick_tests_hold_for_every_key (s : string) :
  ∃ a b, Get ring3_state s = Done (a, None)
    ∧ GetTwo 60 ring3_state s = Done (a, b, None) ∧ a ≠ b
    ∧ a ∈ ["abcdefg"; "hijklmn"; "opqrstu"] ∧ b ∈ ["abcdefg"; "hijklmn"; "opqrstu"].
Proof.
  pose proof (run_Done_inv ring3_ms ring3_state ring3_run) as Hinv.
  pose proof (inv_wf _ Hinv) as Hwf.
  assert (circle ring3_state ≠ ∅) as Hc.
  { apply size_ne_0_nonempty. vm_compute. lia. }
  assert (∀ x, x ∈ owners ring3_state → x ∈ ["abcdefg"; "hijklmn"; "opqrstu"]) as Hthree.
  { intros x Hx. apply (owners_members _ _ Hinv), elem_of_Members in Hx.
    assert (Members ring3_state = ["opqrstu"; "abcdefg"; "hijklmn"]) as Heq
      by (vm_compute; reflexivity).
    rewrite Heq in Hx. rewrite !elem_of_cons in *. tauto. }
  destruct (Get_successor ring3_state s Hwf Hc) as (p & Hp & _ & HG).
  destruct (GetTwo_loop_differs ring3_state Hwf (occupant ring3_state p) _ p 60 Hp eq_refl)
    as (b & Hb & Hne & Hbo); [vm_compute; lia | vm_compute; lia |].
  exists (occupant ring3_state p), b. split; [done|]. split; [|split; [done|split]].
  - unfold GetTwo. rewrite size_circle_eqb, bool_decide_eq_false_2 by done.
    rewrite (at_index_Some _ _ p Hp). cbn [mbind outcome_bind].
    assert ((count ring3_state =? 1) = false) as -> by (vm_compute; reflexivity).
    by rewrite Hb.
  - apply Hthree. by eapply owners_lookup.
  - by apply Hthree.
Qed.

(** * Further properties of the generic ring *)

(** ** [Get]: panics and results *)

Lemma CH_Get_no_keys h v :
  CH.ring h ≠ ∅ → CH.keys h = [] → CH.Get h v = Panic.
Proof.
  intros Hr Hk. unfold CH.Get, CH.Get_index.
  destruct (Nat.eqb_spec (size (CH.ring h)) 0) as [Hsz|_];
    [by apply map_size_empty_inv in Hsz|].
  by rewrite Hk.
Qed.

Lemma CH_Get_index_Done h key :
  CH.keys h ≠ [] →
  ∃ i p, CH.Get_index h key = Done i ∧ CH.keys h !! i = Some p.
Proof.
  intros Hk. unfold CH.Get_index.
  assert (0 < length (CH.keys h))%nat as Hlen
    by (destruct (CH.keys h); [done | simpl; lia]).
  destruct (Nat.eqb_spec (length (CH.keys h)) 0) as [?|_]; [lia|].
  destruct (lookup_lt_is_Some_2 (CH.keys h)
              (CH.searchKeys (CH.keys h) key `mod` length (CH.keys h))%nat) as [p Hp].
  { apply Nat.mod_upper_bound. lia. }
  eauto.
Qed.

(** The three outcomes of [Get]. *)
Lemma CH_Get_cases h v :
  (CH.ring h = ∅ ∧ CH.Get h v = Done (CH.NodeNil, false))
  ∨ (CH.ring h ≠ ∅ ∧ CH.keys h = [] ∧ CH.Get h v = Panic)
  ∨ (CH.ring h ≠ ∅ ∧ ∃ p, p ∈ CH.keys h ∧
       ((∃ l x, CH.ring h !! p = Some l ∧ x ∈ l ∧ CH.Get h v = Done (x, true))
        ∨ (default [] (CH.ring h !! p) = [] ∧ CH.Get h v = Done (CH.NodeNil, false)))).
Proof.
  destruct (decide (CH.ring h = ∅)) as [Hr|Hr]; [left; by split; [|apply CH_Get_empty]|].
  right. destruct (decide (CH.keys h = [])) as [Hk|Hk];
    [left; by split; [|split; [|apply CH_Get_no_keys]]|].
  right. split; [done|].
  destruct (CH_Get_index_Done h (CH.hash h (CH.repr v)) Hk) as (i & p & Hi & Hp).
  exists p. split; [by eapply list_elem_of_lookup_2|].
  assert (size (CH.ring h) ≠ 0%nat) as Hsz by (by intros ?%map_size_empty_inv).
  destruct (CH_Get_at h v i p Hsz Hi Hp) as [(x & HG & Hx)|[HG Hnil]]; [left|by right].
  destruct (CH.ring h !! p) as [l|]; [|by apply elem_of_nil in Hx].
  exists l, x. done.
Qed.

(** X21.  [Get] of the generic ring panics in exactly one situation: the
    ring has occupants and [keys] is empty, where the index expression
    [... % len(h.keys)] divides by zero.  This holds of every ring state. *)
Theorem CH_Get_panics_iff h v :
  CH.Get h v = Panic ↔ CH.ring h ≠ ∅ ∧ CH.keys h = [].
Proof.
  destruct (CH_Get_cases h v) as [[Hr HG]|[(Hr & Hk & HG)|(Hr & p & Hp & HG)]].
  - rewrite HG. split; [done|]. by intros [? _].
  - by rewrite HG.
  - assert (CH.Get h v ≠ Panic) as Hnp.
    { destruct HG as [(l & x & _ & _ & ->)|[_ ->]]; done. }
    split; [done|]. intros [_ Hk]. rewrite Hk in Hp. by apply elem_of_nil in Hp.
Qed.

(** X22.  What [Get] returns on a ring built by operations from a fresh
    one: with [true], an occupant of the ring whose identity is
    registered; with [false], the nil node. *)
Theorem CH_Get_result Hash r fn ops v x b :
  CH.Get (CH.run (CH.NewCustomConsistentHash Hash r fn) ops) v = Done (x, b) →
  if b then
    has_replica (CH.run (CH.NewCustomConsistentHash Hash r fn) ops) (CH.repr x)
    ∧ CH.repr x ∈ CH.nodes (CH.run (CH.NewCustomConsistentHash Hash r fn) ops)
  else x = CH.NodeNil.
Proof.
  set (h := CH.run (CH.NewCustomConsistentHash Hash r fn) ops).
  assert (registered_ring h) as Hreg by apply run_registered, New_registered.
  intros HG.
  destruct (CH_Get_cases h v) as [[_ HG']|[(_ & _ & HG')|(_ & p & _ &
    [(l & y & Hl & Hy & HG')|[_ HG']])]]; rewrite HG' in HG; simplify_eq; try done.
  assert (has_replica h (CH.repr x)) as Hhas by (by exists p, l, x).
  split; [done|]. by apply has_replica_registered.
Qed.

Lemma CH_Get_result_witness :
  has_replica generic_a (CH.repr (CH.NodeString "a"))
  ∧ CH.repr (CH.NodeString "a") ∈ CH.nodes generic_a.
Proof.
  apply (CH_Get_result byteSum 100 None [CH.OpAdd (CH.NodeString "a")]
           (CH.NodeString "k") (CH.NodeString "a") true).
  vm_compute. reflexivity.
Defined.

(** ** The clamp of [AddWithReplicas] and the weights *)

Lemma AddWithReplicas_clamp n r0 h :
  CH.replicas h ≤ r0 → CH.AddWithReplicas n r0 h = CH.Add n h.
Proof.
  intros Hr. unfold CH.Add, CH.AddWithReplicas.
  destruct (Remove_consts n h) as [_ ->].
  destruct (Z.gtb_spec (CH.replicas h) (CH.replicas h)) as [?|_]; [lia|].
  destruct (Z.gtb_spec r0 (CH.replicas h)) as [?|?]; [done|].
  by replace r0 with (CH.replicas h) by lia.
Qed.

Lemma sort_asc_sorted_id (l : list Z) : StronglySorted Z.le l → sort_asc l = l.
Proof. intros Hs. by apply sort_asc_unique. Qed.

(** X23.  The replica count of an addition is clamped to the ring's: on
    every ring built by operations from a fresh one, [AddWithReplicas]
    with at least the ring's replica count is [Add], and so is
    [AddWithWeight] with a weight of at least [TopWeight] = 100 (as long as
    [replicas * weight] fits an [int]); with a replica count of zero or
    less, [AddWithReplicas] only removes the node's replicas. *)
Theorem AddWithReplicas_clamps Hash r fn ops n :
  (∀ r0, CH.replicas (CH.run (CH.NewCustomConsistentHash Hash r fn) ops) ≤ r0 →
     CH.AddWithReplicas n r0 (CH.run (CH.NewCustomConsistentHash Hash r fn) ops)
     = CH.Add n (CH.run (CH.NewCustomConsistentHash Hash r fn) ops))
  ∧ (∀ w, CH.TopWeight ≤ w →
       CH.replicas (CH.run (CH.NewCustomConsistentHash Hash r fn) ops) * w < 2 ^ 63 →
       CH.AddWithWeight n w (CH.run (CH.NewCustomConsistentHash Hash r fn) ops)
       = CH.Add n (CH.run (CH.NewCustomConsistentHash Hash r fn) ops))
  ∧ (∀ r0, r0 ≤ 0 →
       CH.ring (CH.AddWithReplicas n r0 (CH.run (CH.NewCustomConsistentHash Hash r fn) ops))
       = CH.ring (CH.Remove n (CH.run (CH.NewCustomConsistentHash Hash r fn) ops))
       ∧ CH.keys (CH.AddWithReplicas n r0 (CH.run (CH.NewCustomConsistentHash Hash r fn) ops))
         = CH.keys (CH.Remove n (CH.run (CH.NewCustomConsistentHash Hash r fn) ops))).
Proof.
  set (h0 := CH.NewCustomConsistentHash Hash r fn). set (h := CH.run h0 ops).
  assert (CH.minReplica ≤ CH.replicas h) as HR.
  { unfold h. destruct (run_consts h0 ops) as [_ ->]. apply New_replicas. }
  unfold CH.minReplica in HR.
  split; [intros r0; apply AddWithReplicas_clamp|]. split.
  - intros w Hw Hfit. unfold CH.TopWeight in Hw. unfold CH.AddWithWeight.
    apply AddWithReplicas_clamp.
    rewrite int64_wrap_small by nia. unfold CH.TopWeight.
    rewrite <- (Z.quot_mul (CH.replicas h) 100) at 1 by lia.
    apply Z.quot_le_mono; nia.
  - intros r0 Hr0. unfold CH.AddWithReplicas. cbn [CH.ring CH.keys].
    destruct (Remove_consts n h) as [_ ->].
    destruct (Z.gtb_spec r0 (CH.replicas h)) as [?|_]; [lia|].
    rewrite seqZ_nil by lia. cbn [foldl CH.addNode CH.ring CH.keys].
    split; [done|]. apply sort_asc_sorted_id, Remove_sorted, run_sorted, New_sorted.
Qed.

Lemma AddWithReplicas_clamps_witness :
  CH.AddWithReplicas (CH.NodeString "b") 250 generic_a = CH.Add (CH.NodeString "b") generic_a
  ∧ CH.AddWithWeight (CH.NodeString "b") 300 generic_a = CH.Add (CH.NodeString "b") generic_a
  ∧ CH.ring (CH.AddWithReplicas (CH.NodeString "a") (-3) generic_a)
    = CH.ring (CH.Remove (CH.NodeString "a") generic_a).
Proof.
  destruct (AddWithReplicas_clamps byteSum 100 None [CH.OpAdd (CH.NodeString "a")]
              (CH.NodeString "b")) as (H1 & H2 & _).
  destruct (AddWithReplicas_clamps byteSum 100 None [CH.OpAdd (CH.NodeString "a")]
              (CH.NodeString "a")) as (_ & _ & H3).
  split; [|split].
  - apply H1. vm_compute. discriminate.
  - apply H2; vm_compute; [discriminate | reflexivity].
  - apply H3. lia.
Defined.

(** ** The registered set *)

(** X24.  The registered set only grows: on a ring built by operations
    from a fresh one, an identity is registered if and only if one of the
    operations added a node of that identity, whether or not [Remove] was
    called for it afterwards ([removeNode] is never called). *)
Theorem CH_registered_iff_added Hash r fn ops id :
  id ∈ CH.nodes (CH.run (CH.NewCustomConsistentHash Hash r fn) ops)
  ↔ ∃ o, o ∈ ops ∧ op_adds o = true ∧ CH.repr (op_node o) = id.
Proof.
  induction ops as [|o ops IH] using rev_ind.
  - simpl. split; [by intros ?%elem_of_empty|]. by intros (o & ?%elem_of_nil & _).
  - rewrite run_app. cbn [CH.run foldl].
    fold (CH.run (CH.NewCustomConsistentHash Hash r fn) ops).
    set (h := CH.run (CH.NewCustomConsistentHash Hash r fn) ops) in *.
    assert (CH.nodes (CH.apply_op h o)
            = if op_adds o then {[CH.repr (op_node o)]} ∪ CH.nodes h else CH.nodes h) as ->.
    { destruct o; simpl; [apply AddWithReplicas_nodes..|apply Remove_nodes]. }
    split.
    + intros Hid.
      assert (id ∈ CH.nodes h ∨ (op_adds o = true ∧ CH.repr (op_node o) = id)) as [Hh|[Ha Hr]].
      { destruct (op_adds o); [|by left].
        apply elem_of_union in Hid as [->%elem_of_singleton|?]; [by right|by left]. }
      * apply IH in Hh as (o' & Ho' & ?). exists o'. split; [|done].
        apply elem_of_app. by left.
      * exists o. split; [|done]. apply elem_of_app. right. by left.
    + intros (o' & [Ho'| ->%list_elem_of_singleton]%elem_of_app & Ha & Hr).
      * assert (id ∈ CH.nodes h) as Hh by (apply IH; eauto).
        destruct (op_adds o); [by apply elem_of_union_r|done].
      * rewrite Ha. apply elem_of_union_l. by apply elem_of_singleton.
Qed.

(** ** Where the occupants sit *)

Lemma foldl_preserves_in {A B} (P : A → Prop) (f : A → B → A) (l : list B) (a : A) :
  (∀ a x, x ∈ l → P a → P (f a x)) → P a → P (foldl f a l).
Proof.
  revert a. induction l as [|y l IH]; intros a Hf Ha; [done|]. cbn [foldl].
  apply IH; [intros a' x Hx; apply Hf; by right|]. apply Hf; [by left|done].
Qed.

Lemma New_placed Hash r fn : placed (CH.NewCustomConsistentHash Hash r fn).
Proof. intros k l x. simpl. by rewrite lookup_empty. Qed.

Lemma removeRingNode_placed hash id h : placed h → placed (CH.removeRingNode hash id h).
Proof.
  intros Hpl k l x. rewrite removeRingNode_lookup.
  destruct (removeRingNode_consts hash id h) as [-> ->].
  destruct (decide (k = hash)) as [->|Hne]; [|apply Hpl].
  destruct (CH.ring h !! hash) as [l0|] eqn:Hl0; [|done].
  case_decide; [done|]. intros [= <-] [_ Hx]%list_elem_of_filter. by eapply Hpl.
Qed.

Lemma Remove_step_placed id h i : placed h → placed (CH.Remove_step id h i).
Proof. intros Hpl. unfold CH.Remove_step. by apply removeRingNode_placed. Qed.

Lemma Remove_placed n h : placed h → placed (CH.Remove n h).
Proof.
  intros Hpl. unfold CH.Remove. destruct (negb _); [done|].
  apply foldl_preserves; [|done]. intros h' i. apply Remove_step_placed.
Qed.

Lemma Add_step_placed n h i :
  i ∈ seqZ 0 (CH.replicas h) → placed h → placed (CH.Add_step n (CH.repr n) h i).
Proof.
  intros Hi Hpl k l x. rewrite Add_step_lookup. cbn [CH.Add_step CH.hashFunc CH.replicas].
  case_decide as Hk; [|apply Hpl].
  intros [= <-] [Hx| ->%list_elem_of_singleton]%elem_of_app.
  - destruct (CH.ring h !! k) as [l0|] eqn:Hl0; simpl in Hx; [|by apply elem_of_nil in Hx].
    by eapply Hpl.
  - rewrite Hk. unfold replicaKeys, CH.hash. apply list_elem_of_fmap. by exists i.
Qed.

Lemma AddWithReplicas_placed n r0 h : placed h → placed (CH.AddWithReplicas n r0 h).
Proof.
  intros Hpl. unfold CH.AddWithReplicas.
  destruct (Remove_consts n h) as [HhfR HRR]. rewrite HRR.
  set (r' := if r0 >? CH.replicas h then CH.replicas h else r0).
  assert (r' ≤ CH.replicas h) as Hr' by (unfold r'; destruct (Z.gtb_spec r0 (CH.replicas h)); lia).
  match goal with |- placed {| CH.ring := CH.ring ?h' |} =>
    assert (placed h' ∧ CH.replicas h' = CH.replicas h) as [Hh' _];
      [|intros k l x; apply Hh'] end.
  apply foldl_preserves_in.
  - intros h' i Hi [Hp HR]. split; [|done]. apply Add_step_placed; [|done].
    rewrite HR. apply elem_of_seqZ in Hi. apply elem_of_seqZ. lia.
  - split; [|done]. intros k l x. cbn [CH.addNode CH.ring CH.hashFunc CH.replicas].
    apply (Remove_placed n h Hpl).
Qed.

Lemma apply_op_placed h o : placed h → placed (CH.apply_op h o).
Proof.
  destruct o; simpl; intros Hpl; [by apply AddWithReplicas_placed.. | by apply Remove_placed].
Qed.

Lemma run_placed h ops : placed h → placed (CH.run h ops).
Proof. apply foldl_preserves. intros. by apply apply_op_placed. Qed.

(** [Remove] leaves no occupant of the identity removed. *)
Lemma Remove_clears n h :
  registered_ring h → placed h → ¬ has_replica (CH.Remove n h) (CH.repr n).
Proof.
  intros Hreg Hpl (k & l & x & Hl & Hx & Hid).
  unfold CH.Remove, CH.containsNode in Hl. case_bool_decide as Hin; cbn [negb] in Hl.
  - rewrite (Remove_steps_ring (CH.hashFunc h) n) in Hl by done.
    case_decide as Hk.
    + destruct (CH.ring h !! k) as [l0|]; simpl in Hl; [|done].
      case_decide; [done|]. simplify_eq.
      by apply list_elem_of_filter in Hx as [Hne _].
    + apply Hk. rewrite <- Hid. by eapply Hpl.
  - destruct (Hreg k l Hl) as [_ Hr]. specialize (Hr x Hx). by rewrite Hid in Hr.
Qed.

Lemma CH_Get_occupant h v x :
  CH.Get h v = Done (x, true) → has_replica h (CH.repr x).
Proof.
  intros HG.
  destruct (CH_Get_cases h v) as [[_ HG']|[(_ & _ & HG')|(_ & p & _ &
    [(l & y & Hl & Hy & HG')|[_ HG']])]]; rewrite HG' in HG; simplify_eq.
  by exists p, l, x.
Qed.

(** X25.  A removed node serves no key: on every ring built by operations
    from a fresh one, after [Remove node] no occupant has the identity of
    [node], and [Get] returns no node of that identity. *)
Theorem CH_Remove_clears_identity Hash r fn ops n :
  ¬ has_replica (CH.Remove n (CH.run (CH.NewCustomConsistentHash Hash r fn) ops)) (CH.repr n)
  ∧ ∀ v x, CH.Get (CH.Remove n (CH.run (CH.NewCustomConsistentHash Hash r fn) ops)) v
           = Done (x, true) → CH.repr x ≠ CH.repr n.
Proof.
  set (h := CH.run (CH.NewCustomConsistentHash Hash r fn) ops).
  assert (¬ has_replica (CH.Remove n h) (CH.repr n)) as Hclear.
  { apply Remove_clears; [apply run_registered, New_registered
                         | apply run_placed, New_placed]. }
  split; [done|]. intros v x HG Hid. apply Hclear. rewrite <- Hid.
  by eapply CH_Get_occupant.
Qed.

(** ** Identities *)

Lemma Add_steps_occupants n id js : ∀ h k l x,
  CH.ring (foldl (CH.Add_step n id) h js) !! k = Some l → x ∈ l →
  x = n ∨ ∃ l0, CH.ring h !! k = Some l0 ∧ x ∈ l0.
Proof.
  induction js as [|j js IH]; intros h k l x Hl Hx; cbn [foldl] in Hl; [eauto|].
  destruct (IH _ k l x Hl Hx) as [->|(l0 & Hl0 & Hx0)]; [by left|].
  rewrite Add_step_lookup in Hl0. case_decide; [|eauto]. simplify_eq.
  apply elem_of_app in Hx0 as [Hx0| ->%list_elem_of_singleton]; [|by left].
  destruct (CH.ring h !! _) as [l1|] eqn:Hl1; simpl in Hx0; [|by apply elem_of_nil in Hx0].
  eauto.
Qed.

(** X26.  A node is known by its textual form [repr]: on every ring built
    by operations from a fresh one, after a node is added (with any
    replica count) every occupant of the same textual form is that node;
    a node added before under the same form, such as the integer [1]
    before the string ["1"], is replaced. *)
Theorem CH_Add_replaces_identity Hash r fn ops n r0 k l :
  CH.ring (CH.AddWithReplicas n r0 (CH.run (CH.NewCustomConsistentHash Hash r fn) ops)) !! k
    = Some l →
  Forall (λ x, CH.repr x = CH.repr n → x = n) l.
Proof.
  set (h := CH.run (CH.NewCustomConsistentHash Hash r fn) ops).
  intros Hl. apply Forall_forall. intros x Hx Hid.
  unfold CH.AddWithReplicas in Hl. cbn [CH.ring] in Hl.
  destruct (Add_steps_occupants _ _ _ _ k l x Hl Hx) as [?|(l0 & Hl0 & Hx0)]; [done|].
  cbn [CH.addNode CH.ring] in Hl0. exfalso.
  apply (Remove_clears n h); [apply run_registered, New_registered
                             | apply run_placed, New_placed|].
  by exists k, l0, x.
Qed.

Lemma CH_Add_replaces_identity_witness :
  Forall (λ x, CH.repr x = CH.repr (CH.NodeString "1") → x = CH.NodeString "1")
    [CH.NodeString "1"].
Proof.
  apply (CH_Add_replaces_identity byteSum 100 None
           [CH.OpAdd (CH.NodeInt 1); CH.OpAdd (CH.NodeString "b")]
           (CH.NodeString "1") 100 97 [CH.NodeString "1"]).
  vm_compute. reflexivity.
Defined.

(** X27.  [Add] of the generic ring is idempotent: on every ring built by
    operations from a fresh one, adding a node twice gives the state that
    adding it once gives (keys, occupants and registered set). *)
Theorem CH_Add_idempotent Hash r fn ops n :
  CH.Add n (CH.Add n (CH.run (CH.NewCustomConsistentHash Hash r fn) ops))
  = CH.Add n (CH.run (CH.NewCustomConsistentHash Hash r fn) ops).
Proof. apply CH_Add_twice, run_registered, New_registered. Qed.

(** ** Rings built by [Add] alone *)

Lemma Add_steps_mono n id js : ∀ h k l x,
  CH.ring h !! k = Some l → x ∈ l →
  ∃ l', CH.ring (foldl (CH.Add_step n id) h js) !! k = Some l' ∧ x ∈ l'.
Proof.
  induction js as [|j js IH]; intros h k l x Hl Hx; cbn [foldl]; [eauto|].
  apply (IH _ k (if decide (k = CH.hash h (id +:+ Itoa j)) then l ++ [n] else l)).
  - rewrite Add_step_lookup. case_decide; [by rewrite Hl|done].
  - case_decide; [apply elem_of_app; by left|done].
Qed.

Lemma Add_steps_places_at hf n js : ∀ h k,
  CH.hashFunc h = hf → k ∈ replicaKeys hf (CH.repr n) js →
  ∃ l, CH.ring (foldl (CH.Add_step n (CH.repr n)) h js) !! k = Some l ∧ n ∈ l.
Proof.
  induction js as [|j js IH]; intros h k Hhf Hk; [by apply elem_of_nil in Hk|].
  cbn [foldl]. unfold replicaKeys in Hk. rewrite fmap_cons in Hk.
  fold (replicaKeys hf (CH.repr n) js) in Hk.
  apply elem_of_cons in Hk as [->|Hk]; [|by apply IH].
  apply (Add_steps_mono n (CH.repr n) js _ _
           (default [] (CH.ring h !! CH.hash h (CH.repr n +:+ Itoa j)) ++ [n])).
  - rewrite Add_step_lookup. unfold CH.hash. rewrite Hhf. by rewrite decide_True.
  - apply elem_of_app. right. by left.
Qed.

Lemma Remove_steps_keeps hf n js h k l x :
  CH.hashFunc h = hf → CH.ring h !! k = Some l → x ∈ l → CH.repr x ≠ CH.repr n →
  ∃ l', CH.ring (foldl (CH.Remove_step (CH.repr n)) h js) !! k = Some l' ∧ x ∈ l'.
Proof.
  intros Hhf Hl Hx Hne. rewrite (Remove_steps_ring hf n) by done.
  case_decide; [|eauto]. rewrite Hl. simpl.
  assert (x ∈ filter (λ y, CH.repr y ≠ CH.repr n) l) as Hxf
    by (by apply list_elem_of_filter).
  case_decide as Hnil; [rewrite Hnil in Hxf; by apply elem_of_nil in Hxf|eauto].
Qed.

Lemma New_complete Hash r fn : complete (CH.NewCustomConsistentHash Hash r fn).
Proof.
  split.
  - simpl. by rewrite elements_empty.
  - intros id k Hid. simpl in Hid. by apply elem_of_empty in Hid.
Qed.

(** [Add] keeps every registered identity complete: the removal it starts
    with finds the node's own keys, and the additions put them back. *)
Lemma Add_complete n h :
  StronglySorted Z.le (CH.keys h) → complete h → complete (CH.Add n h).
Proof.
  intros Hs [Hkeys Hcov].
  set (hf := CH.hashFunc h) in *. set (js := seqZ 0 (CH.replicas h)) in *.
  destruct (AddWithReplicas_consts n (CH.replicas h) h) as [Hhf1 HR1].
  fold (CH.Add n h) in Hhf1, HR1.
  destruct (Add_fields n h) as [Hk1 Hr1]. fold hf js in Hk1, Hr1.
  destruct (Remove_consts n h) as [HhfR HRR].
  assert (CH.nodes (CH.Add n h) = {[CH.repr n]} ∪ CH.nodes h) as Hn1
    by apply AddWithReplicas_nodes.
  unfold complete. rewrite Hhf1, HR1, Hn1, Hk1, Hr1. fold hf js.
  destruct (decide (CH.repr n ∈ CH.nodes h)) as [Hin|Hnin].
  - (* the node is registered: its keys are taken out and put back *)
    assert (CH.Remove n h = foldl (CH.Remove_step (CH.repr n)) h js) as HRm.
    { unfold CH.Remove, CH.containsNode. by rewrite bool_decide_eq_true_2 by done. }
    assert ({[CH.repr n]} ∪ CH.nodes h = CH.nodes h) as ->.
    { apply subseteq_union_1_L. by intros x ->%elem_of_singleton. }
    assert (elements (CH.nodes h)
            ≡ₚ CH.repr n :: elements (CH.nodes h ∖ {[CH.repr n]})) as Hel.
    { rewrite (union_difference_singleton_L (CH.repr n) (CH.nodes h) Hin) at 1.
      apply elements_union_singleton. intros [_ Hx]%elem_of_difference.
      by apply Hx, elem_of_singleton. }
    assert (CH.keys h ≡ₚ replicaKeys hf (CH.repr n) js
              ++ elements (CH.nodes h ∖ {[CH.repr n]}) ≫= (λ i, replicaKeys hf i js))
      as Hsplit.
    { rewrite Hkeys, Hel. by rewrite bind_cons. }
    split.
    + rewrite sort_asc_perm, HRm.
      rewrite (Remove_steps_keys hf n js h _ eq_refl Hs Hsplit).
      rewrite Hel, bind_cons. apply Permutation_app_comm.
    + intros id' k Hid' Hk. destruct (decide (id' = CH.repr n)) as [->|Hne].
      * destruct (Add_steps_places_at hf n js (CH.Remove n h) k HhfR Hk) as (l & Hl & Hx).
        by exists l, n.
      * destruct (Hcov id' k Hid' Hk) as (l & x & Hl & Hx & Hrx).
        destruct (Remove_steps_keeps hf n js h k l x eq_refl Hl Hx) as (l1 & Hl1 & Hx1);
          [by rewrite Hrx|].
        rewrite <- HRm in Hl1.
        destruct (Add_steps_mono n (CH.repr n) js _ k l1 x Hl1 Hx1) as (l2 & Hl2 & Hx2).
        by exists l2, x.
  - (* a new node *)
    assert (CH.Remove n h = h) as HRm.
    { unfold CH.Remove, CH.containsNode. by rewrite bool_decide_eq_false_2 by done. }
    rewrite HRm. split.
    + rewrite sort_asc_perm, (elements_union_singleton _ _ Hnin), bind_cons, Hkeys.
      apply Permutation_app_comm.
    + intros id' k [->%elem_of_singleton|Hid']%elem_of_union Hk.
      * destruct (Add_steps_places_at hf n js h k eq_refl Hk) as (l & Hl & Hx).
        by exists l, n.
      * destruct (Hcov id' k Hid' Hk) as (l & x & Hl & Hx & Hrx).
        destruct (Add_steps_mono n (CH.repr n) js _ k l x Hl Hx) as (l2 & Hl2 & Hx2).
        by exists l2, x.
Qed.

Lemma removeRingNode_among ns hash id h :
  occupants_among ns h → occupants_among ns (CH.removeRingNode hash id h).
Proof.
  intros Ho k l x. rewrite removeRingNode_lookup.
  destruct (decide (k = hash)) as [->|Hne]; [|apply Ho].
  destruct (CH.ring h !! hash) as [l0|] eqn:Hl0; [|done].
  case_decide; [done|]. intros [= <-] [_ Hx]%list_elem_of_filter. by eapply Ho.
Qed.

Lemma Add_among ns n h : n ∈ ns → occupants_among ns h → occupants_among ns (CH.Add n h).
Proof.
  intros Hn Ho k l x Hl Hx. unfold CH.Add, CH.AddWithReplicas in Hl. cbn [CH.ring] in Hl.
  destruct (Add_steps_occupants _ _ _ _ k l x Hl Hx) as [->|(l0 & Hl0 & Hx0)]; [done|].
  cbn [CH.addNode CH.ring] in Hl0. clear Hl Hx. revert k l0 x Hl0 Hx0.
  change (occupants_among ns (CH.Remove n h)).
  unfold CH.Remove. destruct (negb _); [done|].
  apply foldl_preserves; [|done]. intros h' i Ho'. unfold CH.Remove_step.
  apply removeRingNode_among. intros k l0 x. apply Ho'.
Qed.

(** What holds of a ring built from a fresh one by adding the nodes
    [ns]. *)
Lemma adds_invariant Hash r fn ns :
  ∀ h, h = CH.run (CH.NewCustomConsistentHash Hash r fn) (CH.OpAdd <$> ns) →
  StronglySorted Z.le (CH.keys h) ∧ complete h ∧ occupants_among ns h
  ∧ (ns ≠ [] → CH.nodes h ≠ ∅).
Proof.
  induction ns as [|n ns IH] using rev_ind; intros h ->.
  - split; [constructor|]. split; [apply New_complete|]. split; [|done].
    intros k l x. simpl. by rewrite lookup_empty.
  - rewrite fmap_app, run_app. cbn [fmap list_fmap CH.run foldl CH.apply_op].
    destruct (IH _ eq_refl) as (Hs & Hc & Ho & _).
    set (h := CH.run (CH.NewCustomConsistentHash Hash r fn) (CH.OpAdd <$> ns)) in *.
    split; [apply AddWithReplicas_sorted|]. split; [by apply Add_complete|]. split.
    + apply Add_among; [apply elem_of_app; right; by left|].
      intros k l x Hl Hx. apply elem_of_app. left. by eapply Ho.
    + intros _ Hempty. apply (not_elem_of_empty (C := gset string) (CH.repr n)).
      rewrite <- Hempty. unfold CH.Add. rewrite AddWithReplicas_nodes.
      by apply elem_of_union_l, elem_of_singleton.
Qed.

Lemma replicaKeys_length hf id js : length (replicaKeys hf id js) = length js.
Proof. unfold replicaKeys. by rewrite length_fmap. Qed.

(** X28.  A ring built by [Add] alone always answers: after the nodes
    [ns] (at least one, repetitions allowed) have been added to a fresh
    ring, [Get] returns, for every key, one of these nodes with [true];
    it neither panics nor reports a miss. *)
Theorem CH_Get_after_adds Hash r fn ns v :
  ns ≠ [] →
  ∃ x, CH.Get (CH.run (CH.NewCustomConsistentHash Hash r fn) (CH.OpAdd <$> ns)) v
       = Done (x, true) ∧ x ∈ ns.
Proof.
  intros Hns.
  set (h := CH.run (CH.NewCustomConsistentHash Hash r fn) (CH.OpAdd <$> ns)).
  destruct (adds_invariant Hash r fn ns h eq_refl) as (Hs & [Hkeys Hcov] & Ho & Hn).
  specialize (Hn Hns).
  assert (∀ p, p ∈ CH.keys h → ∃ l x, CH.ring h !! p = Some l ∧ x ∈ l) as Hocc.
  { intros p Hp. rewrite Hkeys in Hp. apply list_elem_of_bind in Hp as (id & Hp & Hid).
    apply elem_of_elements in Hid.
    destruct (Hcov id p Hid Hp) as (l & x & ? & ? & _). eauto. }
  assert (∃ p, p ∈ CH.keys h) as [p0 Hp0].
  { apply set_choose_L in Hn as [id Hid].
    assert (100 ≤ CH.replicas h) as HR.
    { unfold h. destruct (run_consts (CH.NewCustomConsistentHash Hash r fn)
                            (CH.OpAdd <$> ns)) as [_ ->]. apply New_replicas. }
    destruct (replicaKeys (CH.hashFunc h) id (seqZ 0 (CH.replicas h))) as [|p ps] eqn:Hrk.
    { apply (f_equal length) in Hrk. rewrite replicaKeys_length, length_seqZ in Hrk.
      simpl in Hrk. lia. }
    exists p. rewrite Hkeys. apply list_elem_of_bind. exists id.
    split; [rewrite Hrk; by left | by apply elem_of_elements]. }
  destruct (CH_Get_cases h v) as [[Hr _]|[(_ & Hk & _)|(_ & p & Hp & HG)]].
  - destruct (Hocc p0 Hp0) as (l & x & Hl & _). by rewrite Hr, lookup_empty in Hl.
  - rewrite Hk in Hp0. by apply elem_of_nil in Hp0.
  - destruct HG as [(l & x & Hl & Hx & HG)|[Hnil _]].
    + exists x. split; [done|]. by eapply Ho.
    + destruct (Hocc p Hp) as (l & x & Hl & Hx). rewrite Hl in Hnil. simpl in Hnil.
      rewrite Hnil in Hx. by apply elem_of_nil in Hx.
Qed.

Lemma CH_Get_after_adds_witness :
  ∃ x, CH.Get (CH.run (CH.NewCustomConsistentHash byteSum 100 None)
                 (CH.OpAdd <$> [CH.NodeString "a"; CH.NodeInt 7; CH.NodeString "a"]))
         (CH.NodeString "k") = Done (x, true)
       ∧ x ∈ [CH.NodeString "a"; CH.NodeInt 7; CH.NodeString "a"].
Proof. apply CH_Get_after_adds. discriminate. Defined.

(** X29.  On a ring built by [Add] alone, [keys] holds exactly the
    replica positions of the registered identities, [replicas] of them
    for each identity, however often a node was added again. *)
Theorem CH_keys_after_adds Hash r fn ns :
  CH.keys (CH.run (CH.NewCustomConsistentHash Hash r fn) (CH.OpAdd <$> ns))
  ≡ₚ elements (CH.nodes (CH.run (CH.NewCustomConsistentHash Hash r fn) (CH.OpAdd <$> ns)))
       ≫= (λ id, replicaKeys (default Hash fn) id (seqZ 0 (Z.max r CH.minReplica)))
  ∧ length (CH.keys (CH.run (CH.NewCustomConsistentHash Hash r fn) (CH.OpAdd <$> ns)))
    = (Z.to_nat (Z.max r CH.minReplica)
       * size (CH.nodes (CH.run (CH.NewCustomConsistentHash Hash r fn) (CH.OpAdd <$> ns))))%nat.
Proof.
  set (h := CH.run (CH.NewCustomConsistentHash Hash r fn) (CH.OpAdd <$> ns)).
  destruct (adds_invariant Hash r fn ns h eq_refl) as (_ & [Hkeys _] & _).
  assert (CH.replicas h = Z.max r CH.minReplica ∧ CH.hashFunc h = default Hash fn)
    as [HR Hhf].
  { unfold h. destruct (run_consts (CH.NewCustomConsistentHash Hash r fn)
                          (CH.OpAdd <$> ns)) as [-> ->].
    simpl. split; [|by destruct fn]. destruct (Z.ltb_spec r CH.minReplica); lia. }
  rewrite HR, Hhf in Hkeys. split; [done|]. rewrite Hkeys.
  rewrite (length_bind_const _ (Z.to_nat (Z.max r CH.minReplica))); [done|].
  intros id. by rewrite replicaKeys_length, length_seqZ.
Qed.
